(** * Architect: dependency-driven service start-up and shutdown

    A shallow embedding of [src/architect.js].  The class [Architect] becomes a
    record of its fields together with the part of the JavaScript event loop
    the class talks to (queued promise reactions, pending promises, armed
    timers); every method becomes a state-passing function with the name it
    has in the source.  Plain objects used as dictionaries are modelled by
    [JsObject.t], an association list kept in the order in which JavaScript
    enumerates own string keys.

    Conventions.
    - Errors are the message strings the source builds; the builders are
      named after the error taxonomy of the specification.
    - Every object of the class inherits from [Object.prototype]: [in] and
      the reading of a member see the inherited members ([JsObject.contains],
      [JsObject.inherited]), and writing [__proto__] creates no own property
      ([JsObject.assign]).  The four tables [starting], [resolved],
      [teardown] and [ignored] are written under the names of declared
      services only, and a declared service is assumed not to be named
      [__proto__].
    - A value thrown synchronously by a factory or by the loading of a module
      is assumed to be an error object, whose [stack] can be read; the reason
      of a rejected promise may be anything ([Reject]).
    - [addDependency] changes a declaration and its [dependencies] container
      in place.  Each declaration, initial or added by [addService], is
      assumed to own both: no two declarations share one specification
      object, array or alias object.
    - Options ([setOption], [addOptions], the [options] argument of a
      factory) never influence scheduling and are left out. *)

From Stdlib Require Import List String Ascii Bool Arith NArith Lia Permutation.
Import ListNotations.
Local Open Scope string_scope.
Local Open Scope list_scope.

Set Implicit Arguments.

Infix "+++" := String.append (right associativity, at level 60).

(* ------------------------------------------------------------------------- *)
(** ** JavaScript values used by the class *)

(** Result of a call that may throw: the value, or the thrown message. *)
Inductive result (A : Type) : Type :=
| Ok (value : A)
| Throw (message : string).
Arguments Ok {A} value.
Arguments Throw {A} message.

Module JsObject.

  (** Own enumerable string-keyed properties, in enumeration order: array
      indices first, ascending, then the other keys in insertion order. *)
Definition t (V : Type) : Type := list (string * V).

Definition digit_of (c : ascii) : option N :=
    let n := N_of_ascii c in
    if ((48 <=? n) && (n <=? 57))%N then Some (n - 48)%N else None.

Fixpoint parse_digits (acc : N) (s : string) : option N :=
    match s with
    | EmptyString => Some acc
    | String c r =>
        match digit_of c with
        | Some d => parse_digits (10 * acc + d)%N r
        | None => None
        end
    end.

  (** A key is an array index when it is the canonical decimal form of an
      integer below 2^32 - 1. *)
Definition array_index (s : string) : option N :=
    match s with
    | EmptyString => None
    | String c r =>
        if Ascii.eqb c "0" && negb (String.eqb r "") then None
        else match parse_digits 0 s with
             | Some n => if (n <? 4294967295)%N then Some n else None
             | None => None
             end
    end.

(** The members every object inherits from [Object.prototype]. *)
Definition prototype_members : list string :=
  ["constructor"; "__defineGetter__"; "__defineSetter__"; "hasOwnProperty";
   "__lookupGetter__"; "__lookupSetter__"; "isPrototypeOf";
   "propertyIsEnumerable"; "toString"; "valueOf"; "__proto__";
   "toLocaleString"].

Definition inherited (k : string) : bool :=
  existsb (String.eqb k) prototype_members.

Section Ops.
Variable V : Type.

Definition empty : t V := [].

    (** The own property [k] of [o], if there is one *)
Fixpoint get (k : string) (o : t V) : option V :=
      match o with
      | [] => None
      | (k', v) :: r => if String.eqb k k' then Some v else get k r
      end.

    (** [o] has an own property [k] *)
Definition has (k : string) (o : t V) : bool :=
      match get k o with Some _ => true | None => false end.

    (** [k in o], for an object [o] that inherits from [Object.prototype] *)
Definition contains (k : string) (o : t V) : bool :=
      has k o || inherited k.

    (** [Object.keys(o)] *)
Definition keys (o : t V) : list string := map fst o.

    (** [Object.keys(object).map(key => object[key])] *)
Definition values (o : t V) : list V := map snd o.

Fixpoint replace (k : string) (v : V) (o : t V) : t V :=
      match o with
      | [] => []
      | (k', v') :: r =>
          if String.eqb k k' then (k, v) :: r else (k', v') :: replace k v r
      end.

Fixpoint insert_index (n : N) (k : string) (v : V) (o : t V) : t V :=
      match o with
      | [] => [(k, v)]
      | (k', v') :: r =>
          match array_index k' with
          | Some m =>
              if (m <? n)%N then (k', v') :: insert_index n k v r
              else (k, v) :: o
          | None => (k, v) :: o
          end
      end.

    (** [o[k] = v] for a key other than [__proto__] *)
Definition set (k : string) (v : V) (o : t V) : t V :=
      if has k o then replace k v o
      else match array_index k with
           | Some n => insert_index n k v o
           | None => o ++ [(k, v)]
           end.

    (** [o[k] = v] for a key that need not be a service name: the own
        properties after the assignment.  Writing [__proto__] goes to the
        accessor of [Object.prototype] and creates no own property, unless
        [o] has that own property already. *)
Definition assign (k : string) (v : V) (o : t V) : t V :=
      if String.eqb k "__proto__" && negb (has k o) then o else set k v o.

    (** [delete o[k]] *)
Fixpoint delete (k : string) (o : t V) : t V :=
      match o with
      | [] => []
      | (k', v') :: r =>
          if String.eqb k k' then r else (k', v') :: delete k r
      end.

    (** An object literal: later duplicates overwrite earlier ones. *)
Definition of_list (l : list (string * V)) : t V :=
      fold_left (fun o kv => set (fst kv) (snd kv) o) l empty.

    (** [Object.keys(o).length === 0] *)
Definition is_empty (o : t V) : bool :=
      match o with [] => true | _ :: _ => false end.
End Ops.

End JsObject.

(** [array.indexOf(name)] *)
Fixpoint indexOf (name : string) (l : list string) : option nat :=
  match l with
  | [] => None
  | x :: r =>
      if String.eqb name x then Some 0
      else match indexOf name r with Some i => Some (S i) | None => None end
  end.

Fixpoint remove_at (i : nat) (l : list string) : list string :=
  match l, i with
  | [], _ => []
  | _ :: r, 0 => r
  | x :: r, S j => x :: remove_at j r
  end.

(** [array.splice(array.indexOf(name), 1)]; an index of -1 addresses the
    last element. *)
Definition splice_indexOf (name : string) (l : list string) : list string :=
  match indexOf name l with
  | Some i => remove_at i l
  | None => removelast l
  end.

(** [array.join(sep)] *)
Fixpoint join (sep : string) (l : list string) : string :=
  match l with
  | [] => ""
  | [x] => x
  | x :: r => x +++ sep +++ join sep r
  end.

Definition mem (name : string) (l : list string) : bool :=
  existsb (String.eqb name) l.

Definition newline : string := String (ascii_of_nat 10) EmptyString.

(** A non-empty string is truthy. *)
Definition truthy (alias : option string) : bool :=
  match alias with
  | Some a => negb (String.eqb a "")
  | None => false
  end.

(* ------------------------------------------------------------------------- *)
(** ** Data model *)

(** What a [shutdown] function of a produced service does when it is called. *)
Inductive Teardown : Type :=
| TeardownReturns                       (* returns a plain value *)
| TeardownPending                       (* returns a promise settled later *)
| TeardownThrows (stack : string).      (* throws synchronously *)

(** The object a factory produces: an identity and its [shutdown] member. *)
Record ServiceObject : Type := mkServiceObject {
  label : string;
  shutdown_member : option Teardown
}.

(** [{}] *)
Definition emptyObject : ServiceObject :=
  {| label := "{}"; shutdown_member := None |}.

(** [service.dependencies]: an array of names, or an object alias -> name. *)
Inductive Dependencies : Type :=
| DepArray (names : list string)
| DepObject (aliases : JsObject.t string).

(** How a factory call ends. *)
Inductive Completion : Type :=
| Returns (value : option ServiceObject)   (* a plain value; [None] is falsy *)
| ReturnsPending                           (* a promise that is still pending *)
| Throws (stack : string).                 (* throws, or is not callable *)

(** A service declaration.  [path] is paired with what Node's [require]
    yields for it, so that a declaration is self-contained.  The body of a
    factory is the sequence of registry calls it makes through
    [imports.__app__] before it ends; an exception of such a call is not
    caught by the factory. *)
Inductive ServiceSpec : Type :=
| Service (dependencies : option Dependencies) (ignore : bool)
          (module : option Factory) (path : Required)
with Factory : Type :=
| Function (body : list AppCall) (completion : Completion)
with AppCall : Type :=
| CallAddService (name : string) (spec : ServiceSpec)
| CallAddDependency (name dependency : string) (alias : option string)
with Required : Type :=
| RequireThrows (stack : string)        (* throws an error whose [stack] is
                                           [stack]: no path, path not found,
                                           load error *)
| RequireReturns (exports : Exports)
with Exports : Type :=
| ExportsNullish (stack : string)       (* undefined or null; [stack] is the
                                           stack of the TypeError that reading
                                           a member of it raises *)
| ExportsFalsy                          (* 0, '', false, NaN *)
| ExportsFunction (f : Factory)
| ExportsEsModule (default : Factory)   (* [__esModule] with a default export
                                           that is a function *)
| ExportsNotCallable (stack : string).  (* another truthy export; [stack] is
                                           the stack of the TypeError that
                                           calling it raises *)

Definition dependencies (s : ServiceSpec) : option Dependencies :=
  match s with Service d _ _ _ => d end.
Definition ignore (s : ServiceSpec) : bool :=
  match s with Service _ i _ _ => i end.
Definition module (s : ServiceSpec) : option Factory :=
  match s with Service _ _ m _ => m end.
Definition path (s : ServiceSpec) : Required :=
  match s with Service _ _ _ p => p end.
Definition set_dependencies (d : Dependencies) (s : ServiceSpec) : ServiceSpec :=
  match s with Service _ i m p => Service (Some d) i m p end.

(** State of a promise. *)
Inductive Settlement : Type :=
| Pending
| Fulfilled
| Rejected (message : string).

(** The value handed to a factory under a key of [imports]. *)
Inductive Import : Type :=
| ImportApp                                  (* the handle [__app__] *)
| ImportValue (v : option ServiceObject)     (* a recorded object, or [undefined] *)
| ImportInherited (name : string).           (* a member of [Object.prototype] *)

(** The fields of an [Architect] instance, followed by the part of the event
    loop that concerns it. *)
Record Architect : Type := mkArchitect {
  services : JsObject.t ServiceSpec;
  ignored : JsObject.t nat;
  starting : JsObject.t bool;
  resolved : JsObject.t ServiceObject;
  teardown : JsObject.t Teardown;
  promise : option Settlement;        (* [null] until [execute] creates it *)
  started : bool;
  executed : bool;
  awaiting : list string;
  (* event loop *)
  jobs : list (string * option ServiceObject);  (* queued [then] reactions *)
  deferred : list string;             (* factories whose promise is pending *)
  timers : list string;               (* armed start-up timers *)
  calls : list (string * JsObject.t Import)     (* factory calls made so far *)
}.

Definition with_services v (a : Architect) : Architect :=
  mkArchitect v (ignored a) (starting a) (resolved a) (teardown a) (promise a)
    (started a) (executed a) (awaiting a) (jobs a) (deferred a) (timers a) (calls a).
Definition with_ignored v (a : Architect) : Architect :=
  mkArchitect (services a) v (starting a) (resolved a) (teardown a) (promise a)
    (started a) (executed a) (awaiting a) (jobs a) (deferred a) (timers a) (calls a).
Definition with_starting v (a : Architect) : Architect :=
  mkArchitect (services a) (ignored a) v (resolved a) (teardown a) (promise a)
    (started a) (executed a) (awaiting a) (jobs a) (deferred a) (timers a) (calls a).
Definition with_resolved v (a : Architect) : Architect :=
  mkArchitect (services a) (ignored a) (starting a) v (teardown a) (promise a)
    (started a) (executed a) (awaiting a) (jobs a) (deferred a) (timers a) (calls a).
Definition with_teardown v (a : Architect) : Architect :=
  mkArchitect (services a) (ignored a) (starting a) (resolved a) v (promise a)
    (started a) (executed a) (awaiting a) (jobs a) (deferred a) (timers a) (calls a).
Definition with_promise v (a : Architect) : Architect :=
  mkArchitect (services a) (ignored a) (starting a) (resolved a) (teardown a) v
    (started a) (executed a) (awaiting a) (jobs a) (deferred a) (timers a) (calls a).
Definition with_started v (a : Architect) : Architect :=
  mkArchitect (services a) (ignored a) (starting a) (resolved a) (teardown a) (promise a)
    v (executed a) (awaiting a) (jobs a) (deferred a) (timers a) (calls a).
Definition with_executed v (a : Architect) : Architect :=
  mkArchitect (services a) (ignored a) (starting a) (resolved a) (teardown a) (promise a)
    (started a) v (awaiting a) (jobs a) (deferred a) (timers a) (calls a).
Definition with_awaiting v (a : Architect) : Architect :=
  mkArchitect (services a) (ignored a) (starting a) (resolved a) (teardown a) (promise a)
    (started a) (executed a) v (jobs a) (deferred a) (timers a) (calls a).
Definition with_jobs v (a : Architect) : Architect :=
  mkArchitect (services a) (ignored a) (starting a) (resolved a) (teardown a) (promise a)
    (started a) (executed a) (awaiting a) v (deferred a) (timers a) (calls a).
Definition with_deferred v (a : Architect) : Architect :=
  mkArchitect (services a) (ignored a) (starting a) (resolved a) (teardown a) (promise a)
    (started a) (executed a) (awaiting a) (jobs a) v (timers a) (calls a).
Definition with_timers v (a : Architect) : Architect :=
  mkArchitect (services a) (ignored a) (starting a) (resolved a) (teardown a) (promise a)
    (started a) (executed a) (awaiting a) (jobs a) (deferred a) v (calls a).
Definition with_calls v (a : Architect) : Architect :=
  mkArchitect (services a) (ignored a) (starting a) (resolved a) (teardown a) (promise a)
    (started a) (executed a) (awaiting a) (jobs a) (deferred a) (timers a) v.

(* ------------------------------------------------------------------------- *)
(** ** Errors *)

Definition DuplicateService (name : string) : string :=
  "Cannot add service `" +++ name +++ "`. The service already exists.".
Definition AlreadyStarted (name : string) : string :=
  "Cannot add service `" +++ name +++ "` after the application fully started.".
Definition UnknownService (name : string) : string :=
  "Cannot add dependency for `" +++ name +++ "`. The service does not exist.".
Definition AlreadyStarting (name : string) : string :=
  "Cannot add dependency for `" +++ name +++ "`. The service has been started.".
Definition NotDependent (name : string) : string :=
  "Cannot add dependency for `" +++ name +++ "`. The service has no dependencies.".
Definition AlreadyExecuted : string :=
  "Cannot execute the application twice.".
Definition NotStarted : string :=
  "The application cannot gracefully shutdown until fully started.".
Definition ShutdownTimeout : string :=
  "Timeout of shutdown is exceeded".
Definition CircularDependency (names : list string) : string :=
  "Circular dependency detected while resolving " +++ join ", " names.
Definition IgnoredDependency (dependency name : string) : string :=
  "Dependency `" +++ dependency +++ "` on `" +++ name +++ "` is ignored".
Definition UnknownDependency (dependency name : string) : string :=
  "Dependency `" +++ dependency +++ "` on `" +++ name +++ "` was not found".
Definition ReservedName (name : string) : string :=
  "Service name `" +++ name +++ "` is forbidden.".
Definition ModuleLoadError (name stack : string) : string :=
  "Error occurs during module requiring (" +++ name +++ ")." +++ newline +++ stack.
Definition ServiceStartupError (name stack : string) : string :=
  "Error occurs during module `" +++ name +++ "` startup." +++ newline +++ stack.
Definition StartupTimeout (name : string) : string :=
  "Timeout of startup module `" +++ name +++ "` is exceeded".
(** Stands for the stack of the [TypeError] raised where the source reads a
    member of [undefined] in a place that is never reached: the declaration of
    an awaiting service, the [path] of a service that has a [module]. *)
Definition TypeErrorStack : string :=
  "TypeError: Cannot read properties of undefined".

(* ------------------------------------------------------------------------- *)
(** ** The class [Architect] *)

(** [values(object)] *)
Definition values {V : Type} (object : JsObject.t V) : list V :=
  JsObject.values object.

(** [makeDictionary(array)] *)
Definition makeDictionary (array : list string) : JsObject.t string :=
  fold_left (fun newObject name => JsObject.assign name name newObject)
            array (JsObject.empty string).

(** [new Architect({ services: {...} })] *)
Definition new (config_services : list (string * ServiceSpec)) : Architect :=
  let services := JsObject.of_list config_services in
  {| services := services;
     ignored := [];
     starting := [];
     resolved := [];
     teardown := [];
     promise := None;
     started := false;
     executed := false;
     awaiting := JsObject.keys services;
     jobs := [];
     deferred := [];
     timers := [];
     calls := [] |}.

(** The two functions of [this.promise]: only the first call has an effect. *)
Definition promise_settle (s : Settlement) (a : Architect) : Architect :=
  match promise a with
  | Some Pending => with_promise (Some s) a
  | _ => a
  end.
Definition promise_resolve (a : Architect) : Architect :=
  promise_settle Fulfilled a.
Definition promise_reject (message : string) (a : Architect) : Architect :=
  promise_settle (Rejected message) a.

(** A truthy export that is not a function: calling it throws. *)
Definition notCallable (stack : string) : Factory :=
  Function [] (Throws stack).

(** [requireDefault(service.path)]: reading [module.__esModule] of a nullish
    export throws a [TypeError]; an ES module with a truthy default yields
    the default, any other export is returned as it is.  [Ok None] is a falsy
    export. *)
Definition requireDefault (p : Required) : result (option Factory) :=
  match p with
  | RequireThrows stack => Throw stack
  | RequireReturns (ExportsNullish stack) => Throw stack
  | RequireReturns ExportsFalsy => Ok None
  | RequireReturns (ExportsFunction f) => Ok (Some f)
  | RequireReturns (ExportsEsModule f) => Ok (Some f)
  | RequireReturns (ExportsNotCallable stack) => Ok (Some (notCallable stack))
  end.

Definition addService (name : string) (spec : ServiceSpec) (a : Architect)
  : result Architect :=
  if JsObject.contains name (services a) then Throw (DuplicateService name)
  else if started a then Throw (AlreadyStarted name)
  else Ok (with_awaiting (awaiting a ++ [name])
             (with_services (JsObject.set name spec (services a)) a)).

(** [this.starting[name]] is truthy: the own member, or for want of one the
    member inherited from [Object.prototype]. *)
Definition isStarting (name : string) (a : Architect) : bool :=
  match JsObject.get name (starting a) with
  | Some v => v
  | None => JsObject.inherited name
  end.

(** For a name without declaration that [Object.prototype] has,
    [name in this.services] holds and [this.services[name]] is the inherited
    member, which has no [dependencies]. *)
Definition addDependency (name dependency : string) (alias : option string)
  (a : Architect) : result Architect :=
  match JsObject.get name (services a) with
  | None =>
      if negb (JsObject.inherited name) then Throw (UnknownService name)
      else if isStarting name a then Throw (AlreadyStarting name)
      else Throw (NotDependent name)
  | Some service =>
      if isStarting name a then Throw (AlreadyStarting name)
      else
          match dependencies service with
          | None => Throw (NotDependent name)
          | Some deps =>
              let deps1 :=
                match deps with
                | DepArray names =>
                    if truthy alias then DepObject (makeDictionary names) else deps
                | DepObject _ => deps
                end in
              let deps2 :=
                match deps1 with
                | DepArray names => DepArray (names ++ [dependency])
                | DepObject aliases =>
                    DepObject
                      (JsObject.assign
                         (match alias with
                          | Some al => if truthy alias then al else dependency
                          | None => dependency
                          end)
                         dependency aliases)
                end in
              Ok (with_services
                    (JsObject.set name (set_dependencies deps2 service) (services a)) a)
          end
  end.

Definition getDependencyNames (service : ServiceSpec) : list string :=
  match dependencies service with
  | None => []
  | Some (DepArray names) => names
  | Some (DepObject aliases) => values aliases
  end.

Fixpoint checkNameConstraints (names : list string) : result unit :=
  match names with
  | [] => Ok tt
  | name :: rest =>
      if String.eqb name "require" then Throw (ReservedName "require")
      else if String.eqb name "requireDefault" then Throw (ReservedName "requireDefault")
      else checkNameConstraints rest
  end.

Fixpoint checkServicesConstraints (services : JsObject.t ServiceSpec)
  (names : list string) : result unit :=
  match names with
  | [] => Ok tt
  | name :: rest =>
      match JsObject.get name services with
      | None => Throw TypeErrorStack
      | Some service =>
          match checkNameConstraints (getDependencyNames service) with
          | Throw e => Throw e
          | Ok _ => checkServicesConstraints services rest
          end
      end
  end.

Definition checkConstraints (a : Architect) : result unit :=
  match checkNameConstraints (awaiting a) with
  | Throw e => Throw e
  | Ok _ => checkServicesConstraints (services a) (awaiting a)
  end.

(** The loop runs after [checkConstraints] has read every awaiting service,
    so [service] is never undefined here. *)
Definition fillIgnored (a : Architect) : Architect :=
  with_ignored
    (fold_left
       (fun ignored name =>
          match JsObject.get name (services a) with
          | Some service =>
              if ignore service then JsObject.set name 1 ignored else ignored
          | None => ignored
          end)
       (awaiting a) (ignored a))
    a.

Definition cleanAwaiting (a : Architect) : Architect :=
  with_awaiting
    (fold_left (fun awaiting name => splice_indexOf name awaiting)
               (JsObject.keys (ignored a)) (awaiting a))
    a.

(** One step of the [forEach] of [checkDependencies]. *)
Definition checkDependency (name : string) (acc : Architect * bool)
  (dependency : string) : Architect * bool :=
  let (a, resolved_) := acc in
  let resolved_ := resolved_ && JsObject.contains dependency (resolved a) in
  let a :=
    if JsObject.contains dependency (ignored a)
    then promise_reject (IgnoredDependency dependency name) a else a in
  let a :=
    if negb (JsObject.contains dependency (services a))
    then promise_reject (UnknownDependency dependency name) a else a in
  (a, resolved_).

Definition checkDependencies (name : string) (service : ServiceSpec)
  (a : Architect) : Architect * bool :=
  match dependencies service with
  | None => (a, true)
  | Some (DepArray []) => (a, true)
  | Some _ => fold_left (checkDependency name) (getDependencyNames service) (a, true)
  end.

(** The first branch is the [catch] of [obtainModule]. *)
Definition obtainModule (name : string) (service : ServiceSpec) (a : Architect)
  : Architect * option Factory :=
  match module service with
  | Some f => (a, Some f)
  | None =>
      match requireDefault (path service) with
      | Throw stack => (promise_reject (ModuleLoadError name stack) a, None)
      | Ok serviceModule => (a, serviceModule)
      end
  end.

(** [this.resolved[name]]: the recorded object, or for want of one the
    member inherited from [Object.prototype], or [undefined]. *)
Definition resolvedMember (name : string) (a : Architect) : Import :=
  match JsObject.get name (resolved a) with
  | Some v => ImportValue (Some v)
  | None =>
      if JsObject.inherited name then ImportInherited name else ImportValue None
  end.

(** The own properties of the object handed to a factory. *)
Definition obtainDepenedcies (service : ServiceSpec) (a : Architect)
  : JsObject.t Import :=
  let imports := JsObject.set "__app__" ImportApp (JsObject.empty Import) in
  match dependencies service with
  | None => imports
  | Some (DepArray names) =>
      fold_left
        (fun imports name => JsObject.assign name (resolvedMember name a) imports)
        names imports
  | Some (DepObject aliases) =>
      fold_left
        (fun imports alias =>
           match JsObject.get alias aliases with
           | Some name => JsObject.assign alias (resolvedMember name a) imports
           | None => imports
           end)
        (JsObject.keys aliases) imports
  end.

Definition call (c : AppCall) (a : Architect) : result Architect :=
  match c with
  | CallAddService name spec => addService name spec a
  | CallAddDependency name dependency alias => addDependency name dependency alias a
  end.

(** Runs the registry calls of a factory body up to the first one that
    throws; the thrown message stands for [error.stack]. *)
Fixpoint run_body (body : list AppCall) (a : Architect) : Architect * option string :=
  match body with
  | [] => (a, None)
  | c :: rest =>
      match call c a with
      | Ok a' => run_body rest a'
      | Throw message => (a, Some message)
      end
  end.

(** [startService] from [this.starting[name] = true] to the point where the
    factory is called: the service has left [awaiting] and its timer is
    armed. *)
Definition beforeCall (name : string) (imports : JsObject.t Import)
  (a : Architect) : Architect :=
  let a := with_starting (JsObject.set name true (starting a)) a in
  let a := with_awaiting (splice_indexOf name (awaiting a)) a in
  let a := with_timers (name :: timers a) a in
  with_calls (calls a ++ [(name, imports)]) a.

(** [startService] after the factory call: the [catch] of [startService] for
    an exception, [register] for a value, which is handed to
    [Promise.resolve(..).then]. *)
Definition afterCall (name : string) (thrown : option string)
  (completion : Completion) (a : Architect) : Architect :=
  match thrown, completion with
  | Some stack, _ => promise_reject (ServiceStartupError name stack) a
  | None, Throws stack => promise_reject (ServiceStartupError name stack) a
  | None, Returns value => with_jobs (jobs a ++ [(name, value)]) a
  | None, ReturnsPending => with_deferred (name :: deferred a) a
  end.

Definition startService (name : string) (service : ServiceSpec) (a : Architect)
  : Architect :=
  let imports := obtainDepenedcies service a in
  let (a, serviceModule) := obtainModule name service a in
  match serviceModule with
  | None => a
  | Some (Function body completion) =>
      let a := beforeCall name imports a in
      let (a, thrown) := run_body body a in
      afterCall name thrown completion a
  end.

(** Number of factory calls a declaration can lead to within one round: its
    own, and those of the services its factory adds. *)
Fixpoint spec_weight (s : ServiceSpec) : nat :=
  match s with
  | Service _ _ m p =>
      S (match m with Some f => factory_weight f | None => 0 end + required_weight p)
  end
with factory_weight (f : Factory) : nat :=
  match f with
  | Function body _ =>
      (fix body_weight (l : list AppCall) : nat :=
         match l with
         | [] => 0
         | c :: r => call_weight c + body_weight r
         end) body
  end
with call_weight (c : AppCall) : nat :=
  match c with
  | CallAddService _ s => spec_weight s
  | CallAddDependency _ _ _ => 0
  end
with required_weight (p : Required) : nat :=
  match p with
  | RequireThrows _ => 0
  | RequireReturns e => exports_weight e
  end
with exports_weight (e : Exports) : nat :=
  match e with
  | ExportsFunction f => factory_weight f
  | ExportsEsModule f => factory_weight f
  | _ => 0
  end.

Definition weight_of (services : JsObject.t ServiceSpec) (name : string) : nat :=
  match JsObject.get name services with
  | Some s => spec_weight s
  | None => 0
  end.

Definition body_weight (body : list AppCall) : nat :=
  list_sum (map call_weight body).

(** Factory calls the services awaiting from index [i] on can lead to. *)
Definition remaining_weight (a : Architect) (i : nat) : nat :=
  list_sum (map (weight_of (services a)) (skipn i (awaiting a))).

(** Bound on the iterations of the loop of [nextRound]. *)
Definition round_fuel (a : Architect) : nat :=
  remaining_weight a 0.

(** The [for] loop of [nextRound] from index [i] on.  [None] stands for the
    two cases shown not to occur ([nextRound_completes]): the bound is spent,
    or [awaiting] names an undeclared service. *)
Fixpoint round (fuel i startedInThisRound : nat) (a : Architect)
  : option (Architect * nat) :=
  match nth_error (awaiting a) i with
  | None => Some (a, startedInThisRound)
  | Some name =>
      match fuel with
      | 0 => None
      | S fuel' =>
          match JsObject.get name (services a) with
          | None => None
          | Some service =>
              let (a1, ok) := checkDependencies name service a in
              if ok
              then round fuel' (S i) (S startedInThisRound) (startService name service a1)
              else round fuel' (S i) startedInThisRound a1
          end
      end
  end.

(** The two checks that end [nextRound]. *)
Definition round_end (startedInThisRound : nat) (a : Architect) : Architect :=
  if Nat.eqb (List.length (awaiting a)) 0 && JsObject.is_empty (starting a)
  then promise_resolve (with_started true a)
  else if Nat.eqb startedInThisRound 0
       then if JsObject.is_empty (starting a)
            then promise_reject (CircularDependency (awaiting a)) a
            else a
       else a.

Definition nextRound (a : Architect) : Architect :=
  match round (round_fuel a) 0 0 a with
  | Some (a', startedInThisRound) => round_end startedInThisRound a'
  | None => a
  end.

(** What a call of [execute] hands back. *)
Inductive Executed : Type :=
| ExecuteThrows (message : string)
| ExecuteRejected (message : string)   (* [Promise.reject(e)] *)
| ExecutePromise.                      (* the promise behind [this.promise] *)

(** [execute] between the constraint check and the first round: the ignored
    services leave [awaiting] and the promise of the run is created. *)
Definition prepare (a : Architect) : Architect :=
  with_executed true (with_promise (Some Pending) (cleanAwaiting (fillIgnored a))).

Definition execute (a : Architect) : Architect * Executed :=
  if executed a then (a, ExecuteThrows AlreadyExecuted)
  else match checkConstraints a with
       | Throw e => (a, ExecuteRejected e)
       | Ok _ => (nextRound (prepare a), ExecutePromise)
       end.

(** The state of the promise [execute] returned. *)
Definition outcome (r : Executed) (a : Architect) : option Settlement :=
  match r with
  | ExecuteThrows _ => None
  | ExecuteRejected e => Some (Rejected e)
  | ExecutePromise => promise a
  end.

(** The [then] reaction of [register] up to its call of [nextRound]: the
    timer is cleared and the service moves from [starting] to [resolved]. *)
Definition record (name : string) (value : option ServiceObject)
  (a : Architect) : Architect :=
  let service := match value with Some s => s | None => emptyObject end in
  let a := with_timers (remove string_dec name (timers a)) a in
  let a := with_starting (JsObject.delete name (starting a)) a in
  let a := with_resolved (JsObject.set name service (resolved a)) a in
  with_teardown
    (JsObject.set name
       (match shutdown_member service with
        | Some f => f
        | None => TeardownReturns
        end)
       (teardown a)) a.

(** The [then] reaction of [register]. *)
Definition register_then (name : string) (value : option ServiceObject)
  (a : Architect) : Architect :=
  nextRound (record name value a).

(** The [catch] reaction of [register].  [Some stack] is a reason whose
    [stack] reads as [stack] (as [undefined] for a reason without that
    member); [None] is the reason [null] or [undefined]: reading its [stack]
    throws inside the reaction, which then rejects nothing. *)
Definition register_catch (name : string) (reason : option string)
  (a : Architect) : Architect :=
  match reason with
  | Some stack => promise_reject (ServiceStartupError name stack) a
  | None => a
  end.

(** The callback of the start-up timer. *)
Definition startupTimer (name : string) (a : Architect) : Architect :=
  promise_reject (StartupTimeout name)
    (with_timers (remove string_dec name (timers a)) a).

(** The promise [shutdown] returns: the teardown promises it still waits
    for, and its state. *)
Record ShutdownPromise : Type := mkShutdownPromise {
  waiting : list string;
  state : Settlement
}.

(** The [for ... in this.teardown] loop: the names whose action was called,
    in call order, and the names whose action returned a pending promise, or
    the exception that ended the loop. *)
Fixpoint callTeardowns (l : JsObject.t Teardown) : list string * result (list string) :=
  match l with
  | [] => ([], Ok [])
  | (name, f) :: rest =>
      match f with
      | TeardownThrows stack => ([name], Throw stack)
      | TeardownReturns =>
          let (called, r) := callTeardowns rest in (name :: called, r)
      | TeardownPending =>
          let (called, r) := callTeardowns rest in
          (name :: called,
           match r with Ok w => Ok (name :: w) | Throw e => Throw e end)
      end
  end.

(** [shutdown()]: the teardown actions called, in order, and the promise
    returned.  [Promise.all] of values that are all plain is fulfilled before
    any timer can fire, so the promise starts fulfilled in that case. *)
Definition shutdown (a : Architect) : list string * result ShutdownPromise :=
  if negb (started a) then ([], Throw NotStarted)
  else
    let (called, r) := callTeardowns (teardown a) in
    (called,
     match r with
     | Throw e => Throw e
     | Ok w =>
         Ok {| waiting := w;
               state := match w with [] => Fulfilled | _ :: _ => Pending end |}
     end).

Definition settle_once (s cur : Settlement) : Settlement :=
  match cur with Pending => s | _ => cur end.

Inductive ShutdownEvent : Type :=
| TeardownFulfilled (name : string)
| TeardownRejected (name : string) (error : string)
| ShutdownTimer.

Definition shutdown_step (p : ShutdownPromise) (e : ShutdownEvent) : ShutdownPromise :=
  match e with
  | TeardownFulfilled name =>
      if mem name (waiting p) then
        let w := remove string_dec name (waiting p) in
        {| waiting := w;
           state := match w with [] => settle_once Fulfilled (state p) | _ :: _ => state p end |}
      else p
  | TeardownRejected name error =>
      if mem name (waiting p) then
        {| waiting := remove string_dec name (waiting p);
           state := settle_once (Rejected error) (state p) |}
      else p
  | ShutdownTimer =>
      {| waiting := waiting p;
         state := settle_once (Rejected ShutdownTimeout) (state p) |}
  end.

Definition shutdown_run (p : ShutdownPromise) (es : list ShutdownEvent) : ShutdownPromise :=
  fold_left shutdown_step es p.

(* ------------------------------------------------------------------------- *)
(** ** Runs *)

(** What can happen to an instance between two turns of the event loop. *)
Inductive Event : Type :=
| Execute                                   (* the caller calls [execute()] *)
| Call (c : AppCall)                        (* a registry call from outside a factory *)
| Job                                       (* the oldest queued reaction runs *)
| Fulfil (name : string) (value : option ServiceObject)
                                            (* a pending factory promise is fulfilled *)
| Reject (name : string) (reason : option string)
                                            (* a pending factory promise is rejected *)
| Timer (name : string).                    (* a start-up timer fires *)

Definition is_nil {A : Type} (l : list A) : bool :=
  match l with [] => true | _ :: _ => false end.

(** An event that cannot occur in the state leaves it as it is.  Timers are
    tasks: they fire only when no reaction is queued. *)
Definition step (a : Architect) (e : Event) : Architect :=
  match e with
  | Execute => fst (execute a)
  | Call c => match call c a with Ok a' => a' | Throw _ => a end
  | Job =>
      match jobs a with
      | [] => a
      | (name, value) :: rest => register_then name value (with_jobs rest a)
      end
  | Fulfil name value =>
      if mem name (deferred a)
      then register_then name value
             (with_deferred (remove string_dec name (deferred a)) a)
      else a
  | Reject name reason =>
      if mem name (deferred a)
      then register_catch name reason
             (with_deferred (remove string_dec name (deferred a)) a)
      else a
  | Timer name =>
      if mem name (timers a) && is_nil (jobs a) then startupTimer name a else a
  end.

Definition run (a : Architect) (events : list Event) : Architect :=
  fold_left step events a.

(* ------------------------------------------------------------------------- *)
(** ** Observable states and their invariant *)

Unset Implicit Arguments.

(** The states an instance goes through: the states between two events,
    and inside an event the states at which a round starts, the states
    between two iterations of its loop, and the states in which a factory is
    called (the registry calls a factory makes are [Call] events from there
    on). *)
(** Every declared dependency of [service] has an entry in [resolved]. *)
Definition ready (service : ServiceSpec) (a : Architect) : Prop :=
  forall d, In d (getDependencyNames service) -> In d (JsObject.keys (resolved a)).

(** Every declared dependency of [service] is [in this.resolved]: it has an
    entry there, or it is the name of a member of [Object.prototype]. *)
Definition eligible (service : ServiceSpec) (a : Architect) : Prop :=
  forall d, In d (getDependencyNames service) ->
            JsObject.contains d (resolved a) = true.

Inductive Reached : Architect -> Prop :=
| reached_new config_services : Reached (new config_services)
| reached_step a e : Reached a -> Reached (step a e)
| reached_prepare a :
    Reached a -> executed a = false -> Reached (prepare a)
| reached_job a name value rest :
    Reached a -> jobs a = (name, value) :: rest ->
    Reached (record name value (with_jobs rest a))
| reached_fulfil a name value :
    Reached a -> In name (deferred a) ->
    Reached (record name value
               (with_deferred (remove string_dec name (deferred a)) a))
| reached_check a name service :
    Reached a -> Reached (fst (checkDependencies name service a))
| reached_start a name service :
    Reached a -> In name (awaiting a) -> executed a = true ->
    JsObject.get name (services a) = Some service ->
    snd (checkDependencies name service a) = true ->
    Reached (startService name service a)
| reached_obtain a name service :
    Reached a -> Reached (fst (obtainModule name service a))
| reached_call a name service imports :
    Reached a -> In name (awaiting a) -> executed a = true ->
    JsObject.get name (services a) = Some service ->
    snd (checkDependencies name service a) = true ->
    Reached (beforeCall name imports a).

Definition disjoint (l1 l2 : list string) : Prop :=
  forall n, In n l1 -> ~ In n l2.

(** The factories whose value has not been recorded yet. *)
Definition pending (a : Architect) : list string :=
  map fst (jobs a) ++ deferred a.

Record Inv (a : Architect) : Prop := mkInv {
  nodup_services : NoDup (JsObject.keys (services a));
  nodup_ignored : NoDup (JsObject.keys (ignored a));
  nodup_starting : NoDup (JsObject.keys (starting a));
  nodup_resolved : NoDup (JsObject.keys (resolved a));
  nodup_awaiting : NoDup (awaiting a);
  nodup_pending : NoDup (pending a);
  declared_awaiting : incl (awaiting a) (JsObject.keys (services a));
  declared_ignored : incl (JsObject.keys (ignored a)) (JsObject.keys (services a));
  declared_starting : incl (JsObject.keys (starting a)) (JsObject.keys (services a));
  declared_resolved : incl (JsObject.keys (resolved a)) (JsObject.keys (services a));
  awaiting_starting : disjoint (awaiting a) (JsObject.keys (starting a));
  awaiting_resolved : disjoint (awaiting a) (JsObject.keys (resolved a));
  starting_resolved : disjoint (JsObject.keys (starting a)) (JsObject.keys (resolved a));
  ignored_awaiting : disjoint (JsObject.keys (ignored a)) (awaiting a);
  ignored_starting : disjoint (JsObject.keys (ignored a)) (JsObject.keys (starting a));
  ignored_resolved : disjoint (JsObject.keys (ignored a)) (JsObject.keys (resolved a));
  pending_starting : incl (pending a) (JsObject.keys (starting a));
  declared_somewhere :
    forall n, In n (JsObject.keys (services a)) ->
              In n (JsObject.keys (ignored a)) \/ In n (awaiting a) \/
              In n (JsObject.keys (starting a)) \/ In n (JsObject.keys (resolved a));
  ignored_flagged :
    forall n, In n (JsObject.keys (ignored a)) ->
              exists s, JsObject.get n (services a) = Some s /\ ignore s = true;
  starting_ready :
    forall n service, In n (JsObject.keys (starting a)) ->
                      JsObject.get n (services a) = Some service -> eligible service a;
  starting_true : forall n v, JsObject.get n (starting a) = Some v -> v = true;
  teardown_resolved : JsObject.keys (teardown a) = JsObject.keys (resolved a);
  started_done : started a = true -> awaiting a = [] /\ starting a = [];
  promise_executed : promise a = None <-> executed a = false;
  fulfilled_started : promise a = Some Fulfilled -> started a = true;
  fresh : executed a = false ->
          ignored a = [] /\ starting a = [] /\ resolved a = [] /\ started a = false
}.

(* ------------------------------------------------------------------------- *)
(** ** Configurations of the test suite *)

(** A factory that returns the string [value]. *)
Definition returning (value : string) : Factory :=
  Function [] (Returns (Some {| label := value; shutdown_member := None |})).

(** A service given by its [module]; it has no [path]. *)
Definition inline (deps : option Dependencies) (f : Factory) : ServiceSpec :=
  Service deps false (Some f) (RequireThrows TypeErrorStack).

(** 'should properly resolve dependencies' *)
Definition resolve_config : list (string * ServiceSpec) :=
  [("serviceA", inline (Some (DepArray ["serviceB"])) (returning "moduleA"));
   ("serviceB", inline None (returning "moduleB"))].

(** 'should detect circular dependency' *)
Definition circular_config : list (string * ServiceSpec) :=
  [("serviceA", inline (Some (DepArray ["serviceB"])) (returning "moduleA"));
   ("serviceB", inline (Some (DepArray ["serviceC"])) (returning "moduleB"));
   ("serviceC", inline (Some (DepArray ["serviceA"])) (returning "moduleC"))].

(** 'should throw an error if dependency was not found' *)
Definition missing_config : list (string * ServiceSpec) :=
  [("serviceA", inline (Some (DepArray ["serviceB"])) (returning "moduleA"))].

(** 'should reject promise if error occurs in service requiring' *)
Definition unloadable_config : list (string * ServiceSpec) :=
  [("serviceA", Service None false None (RequireThrows "Error: Cannot find module 'path/not/exists'"))].


(** 'should throw an error if the service has been started' *)
Definition started_config : list (string * ServiceSpec) :=
  [("serviceA", inline None (returning "moduleA"));
   ("serviceB", inline (Some (DepArray ["serviceA"])) (returning "moduleB"));
   ("serviceC", inline None (returning "moduleC"))].

(** '`require` is is forbidden service name' *)
Definition require_config : list (string * ServiceSpec) :=
  [("require", inline None (returning "service"))].

(** '`require` is is forbidden alias' *)
Definition alias_config : list (string * ServiceSpec) :=
  [("serviceA", inline None (returning "serviceA"));
   ("serviceB", inline (Some (DepObject [("require", "serviceA")])) (returning "serviceB"))].

(** The identifiers of the two module-loading functions. *)
Definition reserved (name : string) : Prop :=
  name = "require" \/ name = "requireDefault".

(* ------------------------------------------------------------------------- *)
(** ** Assumptions on factories and events used by some statements *)

(** The factory [obtainModule] finds for a declaration, if any. *)
Definition factory_of (service : ServiceSpec) : option Factory :=
  match module service with
  | Some f => Some f
  | None =>
      match requireDefault (path service) with
      | Ok serviceModule => serviceModule
      | Throw _ => None
      end
  end.

(** The factory of the declaration, if it has one, makes no registry call. *)
Definition quiet (service : ServiceSpec) : bool :=
  match factory_of service with
  | Some (Function [] _) => true
  | Some (Function (_ :: _) _) => false
  | None => true
  end.

(** The declaration has a factory, which makes no registry call and hands
    back a value or a promise. *)
Definition succeeds (service : ServiceSpec) : bool :=
  match factory_of service with
  | Some (Function [] (Returns _)) => true
  | Some (Function [] ReturnsPending) => true
  | _ => false
  end.

(** Events other than registry calls. *)
Definition not_call (e : Event) : bool :=
  match e with Call _ => false | _ => true end.

(** The events by which a factory call completes with a value. *)
Definition completion (e : Event) : bool :=
  match e with Job | Fulfil _ _ => true | _ => false end.

(** A service that waits for a dependency without an entry in [resolved]. *)
Definition blocked (a : Architect) (name : string) : Prop :=
  exists service d,
    JsObject.get name (services a) = Some service /\
    In d (getDependencyNames service) /\ ~ In d (JsObject.keys (resolved a)).

(** Scenario D: [A] has no dependencies, [B] depends on [A]. *)
Definition scenario_D (factoryA factoryB : Completion) : list (string * ServiceSpec) :=
  [("A", inline None (Function [] factoryA));
   ("B", inline (Some (DepArray ["A"])) (Function [] factoryB))].

Definition is_fulfilled (e : ShutdownEvent) : bool :=
  match e with TeardownFulfilled _ => true | _ => false end.

(** A service object with a [shutdown] function. *)
Definition stoppable (value : string) (f : Teardown) : option ServiceObject :=
  Some {| label := value; shutdown_member := Some f |}.

(** Every service that is not ignored has a factory that succeeds, and every
    dependency it names is declared, not ignored, and not the name of a
    member of [Object.prototype]. *)
Definition sound (S : JsObject.t ServiceSpec) : bool :=
  forallb
    (fun entry =>
       ignore (snd entry) ||
       (succeeds (snd entry) &&
        forallb
          (fun d =>
             negb (JsObject.inherited d) &&
             match JsObject.get d S with
             | Some sd => negb (ignore sd)
             | None => false
             end)
          (getDependencyNames (snd entry))))
    S.

(** [rank] decreases along every dependency of a service that is not
    ignored: the dependency graph has no cycle. *)
Definition ranked (rank : string -> nat) (S : JsObject.t ServiceSpec) : bool :=
  forallb
    (fun entry =>
       ignore (snd entry) ||
       forallb (fun d => Nat.ltb (rank d) (rank (fst entry)))
               (getDependencyNames (snd entry)))
    S.

(** Every service of [cycle] is declared, not ignored, and depends on a
    service of [cycle]. *)
Definition cyclic (cycle : list string) (S : JsObject.t ServiceSpec) : bool :=
  negb (is_nil cycle) &&
  forallb
    (fun m =>
       match JsObject.get m S with
       | Some s => negb (ignore s) && existsb (fun d => mem d cycle) (getDependencyNames s)
       | None => false
       end)
    cycle.

(** What holds during a run of a sound configuration [S] once [execute] has
    prepared it. *)
Record Orderly (S : JsObject.t ServiceSpec) (a : Architect) : Prop := mkOrderly {
  orderly_services : services a = S;
  orderly_inv : Inv a;
  orderly_executed : executed a = true;
  orderly_ignored :
    forall n s, JsObject.get n S = Some s -> ignore s = true ->
                In n (JsObject.keys (ignored a));
  orderly_pending : incl (JsObject.keys (starting a)) (pending a);
  orderly_resolved :
    forall n s, In n (JsObject.keys (resolved a)) ->
                JsObject.get n S = Some s -> eligible s a
}.

(** The three ways the promise of such a run can stand between two events. *)
Definition outcome_sound (a : Architect) : Prop :=
  (promise a = Some Pending /\ starting a <> []) \/
  promise a = Some Fulfilled \/
  (promise a = Some (Rejected (CircularDependency (awaiting a))) /\
   awaiting a <> [] /\ starting a = [] /\
   forall n, In n (awaiting a) -> blocked a n).

(** Two services that wait for each other, one of which also names a
    service that is not declared. *)
Definition cycle_missing_config : list (string * ServiceSpec) :=
  [("serviceA", inline (Some (DepArray ["serviceB"])) (returning "moduleA"));
   ("serviceB", inline (Some (DepArray ["serviceA"; "serviceC"])) (returning "moduleB"))].

(** 'should properly resolve async dependencies' *)
Definition async_config : list (string * ServiceSpec) :=
  [("serviceA", inline (Some (DepArray ["serviceB"; "serviceC"; "serviceD"]))
                  (Function [] ReturnsPending));
   ("serviceB", inline None (Function [] ReturnsPending));
   ("serviceC", inline None (Function [] ReturnsPending));
   ("serviceD", inline None (returning "moduleD"))].

Definition async_rank (name : string) : nat :=
  if String.eqb name "serviceA" then 1 else 0.

Definition module_value (value : string) : option ServiceObject :=
  Some {| label := value; shutdown_member := None |}.

(** The declaration [s] with [flag] as its [ignore] member. *)
Definition set_ignore (flag : bool) (s : ServiceSpec) : ServiceSpec :=
  match s with Service d _ m p => Service d flag m p end.

Definition flag_at (name : string) (flag : bool) (key : string) (s : ServiceSpec)
  : ServiceSpec :=
  if String.eqb key name then set_ignore flag s else s.

Definition reflag (name : string) (flag : bool) (o : JsObject.t ServiceSpec)
  : JsObject.t ServiceSpec :=
  map (fun entry => (fst entry, flag_at name flag (fst entry) (snd entry))) o.

(** The instance [a] with [flag] as the [ignore] member of the declaration of
    [name], and nothing else changed. *)
Definition flagged (name : string) (flag : bool) (a : Architect) : Architect :=
  with_services (reflag name flag (services a)) a.

(** A factory adds an ignored service while the instance starts. *)
Definition late_config : list (string * ServiceSpec) :=
  [("serviceA",
    inline None
      (Function
         [CallAddService "serviceB"
            (set_ignore true (inline None (returning "moduleB")))]
         (Returns (module_value "moduleA"))))].

(* ------------------------------------------------------------------------- *)
(** ** Relations between the states before and after an operation *)

(** Only the registry part of an instance is touched by a registry call. *)
Definition registry_frame (a a' : Architect) : Prop :=
  ignored a' = ignored a /\ starting a' = starting a /\ resolved a' = resolved a /\
  teardown a' = teardown a /\ promise a' = promise a /\ started a' = started a /\
  executed a' = executed a /\ jobs a' = jobs a /\ deferred a' = deferred a /\
  timers a' = timers a /\ calls a' = calls a.

(** Only the promise is touched by a settlement. *)
Definition promise_frame (a a' : Architect) : Prop :=
  exists p, a' = with_promise p a /\
            (p = promise a \/ (promise a = Some Pending /\ exists m, p = Some (Rejected m))).

(** A settled promise stays as it is. *)
Definition promise_kept (a a' : Architect) : Prop :=
  forall s, promise a = Some s -> s <> Pending -> promise a' = Some s.

(** What a round leaves alone, whatever the factories do. *)
Definition round_frame (a a' : Architect) : Prop :=
  resolved a' = resolved a /\ ignored a' = ignored a /\ teardown a' = teardown a /\
  started a' = started a.

(** Every declared service has a factory without registry calls. *)
Definition Quiet (a : Architect) : Prop :=
  forall n s, JsObject.get n (services a) = Some s -> quiet s = true.


(* ------------------------------------------------------------------------- *)
(** ** Notions and configurations used by the further properties *)

(** The elements of [l] at the even positions ([keep = true]) or at the odd
    positions ([keep = false]), the first position being 0. *)
Fixpoint alternate (keep : bool) (l : list string) : list string :=
  match l with
  | [] => []
  | x :: r => if keep then x :: alternate false r else alternate true r
  end.

(** [services[name].ignore], falsy for a name without declaration. *)
Definition ignore_of (services : JsObject.t ServiceSpec) (name : string) : bool :=
  match JsObject.get name services with
  | Some service => ignore service
  | None => false
  end.

(** The key under which [addDependency] files a dependency in an alias
    object. *)
Definition alias_key (dependency : string) (alias : option string) : string :=
  match alias with
  | Some al => if truthy alias then al else dependency
  | None => dependency
  end.

(** 'should skip ignored services' *)
Definition skip_config : list (string * ServiceSpec) :=
  [("serviceA", inline None (returning "moduleA"));
   ("serviceB", set_ignore true (inline None (returning "moduleB")))].

(** Three services without dependencies. *)
Definition independent_config : list (string * ServiceSpec) :=
  [("serviceA", inline None (returning "moduleA"));
   ("serviceB", inline None (returning "moduleB"));
   ("serviceC", inline None (returning "moduleC"))].

(** A service whose factory returns a promise. *)
Definition deferred_config : list (string * ServiceSpec) :=
  [("serviceA", inline None (Function [] ReturnsPending))].

(** [service.shutdown || function () {}] *)
Definition teardown_of (service : ServiceObject) : Teardown :=
  match shutdown_member service with
  | Some f => f
  | None => TeardownReturns
  end.

(** 'should gracefuly shutdown services' with a teardown that throws. *)
Definition throwing_teardown_config : list (string * ServiceSpec) :=
  [("serviceA",
    inline None
      (Function []
         (Returns (Some {| label := "moduleA";
                           shutdown_member := Some (TeardownThrows "Error: stop") |}))));
   ("serviceB", inline None (returning "moduleB"))].

(** A factory that throws, next to a service without dependencies. *)
Definition throwing_config : list (string * ServiceSpec) :=
  [("serviceA", inline None (Function [] (Throws "Error: boom")));
   ("serviceB", inline None (returning "moduleB"))].

(** A service whose module exports a falsy value, next to a plain one. *)
Definition falsy_config : list (string * ServiceSpec) :=
  [("serviceA", Service None false None (RequireReturns ExportsFalsy));
   ("serviceB", inline None (returning "moduleB"))].

(** A dependency that is not declared and bears the name of a member of
    [Object.prototype]. *)
Definition prototype_config : list (string * ServiceSpec) :=
  [("serviceA", inline (Some (DepArray ["constructor"])) (returning "moduleA"))].

(** A dependency on a declared service, on an ignored one and on one that is
    not declared, in this order. *)
Definition ignored_dependency_config : list (string * ServiceSpec) :=
  [("serviceA",
    inline (Some (DepArray ["serviceB"; "serviceC"; "serviceD"])) (returning "moduleA"));
   ("serviceB", inline None (returning "moduleB"));
   ("serviceC", set_ignore true (inline None (returning "moduleC")))].

(** A service whose module exports [undefined]: reading its [__esModule]
    raises the [TypeError] with this stack. *)
Definition nullish_config : list (string * ServiceSpec) :=
  [("serviceA",
    Service None false None
      (RequireReturns
         (ExportsNullish
            "TypeError: Cannot read properties of undefined (reading '__esModule')")))].

(* ------------------------------------------------------------------------- *)
(** * Properties *)

(** ** Objects *)

Ltac eqb_case x y :=
  let E := fresh "E" in
  destruct (String.eqb x y) eqn:E;
  [apply String.eqb_eq in E; try subst | apply String.eqb_neq in E].

Section ObjectFacts.
Variable V : Type.
Implicit Types (o : JsObject.t V) (k : string) (v : V).

Lemma get_in_keys o k v : JsObject.get k o = Some v -> In k (JsObject.keys o).
Proof.
    induction o as [|[k' v'] r IH]; simpl; [discriminate|].
    eqb_case k k'; auto.
Qed.

Lemma get_none_iff o k : JsObject.get k o = None <-> ~ In k (JsObject.keys o).
Proof.
    induction o as [|[k' v'] r IH]; simpl; [tauto|].
    eqb_case k k'.
    - split; [discriminate | intros H; exfalso; auto].
    - rewrite IH. split; [intros H [F|F]; congruence | tauto].
Qed.

Lemma has_true_iff o k : JsObject.has k o = true <-> In k (JsObject.keys o).
Proof.
    unfold JsObject.has. destruct (JsObject.get k o) eqn:G.
    - split; [intros _; eapply get_in_keys; eauto | reflexivity].
    - apply get_none_iff in G. split; [discriminate | tauto].
Qed.

Lemma has_false_iff o k : JsObject.has k o = false <-> ~ In k (JsObject.keys o).
Proof.
    rewrite <- has_true_iff. destruct (JsObject.has k o); split; congruence.
Qed.

Lemma in_keys_get o k : In k (JsObject.keys o) -> exists v, JsObject.get k o = Some v.
Proof.
    intros H. destruct (JsObject.get k o) eqn:G; eauto.
    apply get_none_iff in G. tauto.
Qed.

Lemma keys_replace o k v : JsObject.keys (JsObject.replace k v o) = JsObject.keys o.
Proof.
    induction o as [|[k' v'] r IH]; simpl; auto.
    eqb_case k k'; simpl; congruence.
Qed.

Lemma keys_insert_index o n k v :
    exists l1 l2, JsObject.keys o = l1 ++ l2 /\
                  JsObject.keys (JsObject.insert_index n k v o) = l1 ++ k :: l2.
Proof.
    induction o as [|[k' v'] r IH]; simpl.
    - exists [], []. auto.
    - destruct (JsObject.array_index k') as [m|].
      + destruct (m <? n)%N.
        * destruct IH as (l1 & l2 & E1 & E2). exists (k' :: l1), l2.
          simpl. rewrite E1, E2. auto.
        * exists [], (k' :: JsObject.keys r). auto.
      + exists [], (k' :: JsObject.keys r). auto.
Qed.

  (** Writing a key keeps the keys in place and puts a new key somewhere. *)
Lemma keys_set o k v :
    (In k (JsObject.keys o) /\ JsObject.keys (JsObject.set k v o) = JsObject.keys o) \/
    (~ In k (JsObject.keys o) /\
     exists l1 l2, JsObject.keys o = l1 ++ l2 /\
                   JsObject.keys (JsObject.set k v o) = l1 ++ k :: l2).
Proof.
    unfold JsObject.set. destruct (JsObject.has k o) eqn:H.
    - left. split; [apply has_true_iff; auto | apply keys_replace].
    - right. split; [apply has_false_iff; auto|].
      destruct (JsObject.array_index k).
      + apply keys_insert_index.
      + exists (JsObject.keys o), []. unfold JsObject.keys.
        rewrite map_app, app_nil_r. auto.
Qed.

Lemma in_keys_set o k v x :
    In x (JsObject.keys (JsObject.set k v o)) <-> x = k \/ In x (JsObject.keys o).
Proof.
    destruct (keys_set o k v) as [[H E]|[H (l1 & l2 & E1 & E2)]].
    - rewrite E. split; [auto | intros [->|]; auto].
    - rewrite E2, E1, !in_app_iff. simpl. intuition congruence.
Qed.

Lemma NoDup_keys_set o k v :
    NoDup (JsObject.keys o) -> NoDup (JsObject.keys (JsObject.set k v o)).
Proof.
    intros ND. destruct (keys_set o k v) as [[H E]|[H (l1 & l2 & E1 & E2)]].
    - rewrite E; auto.
    - rewrite E2. rewrite E1 in ND, H.
      apply NoDup_Add with (a := k) (l := l1 ++ l2); [apply Add_app | auto].
Qed.

Lemma get_replace_same o k v :
    In k (JsObject.keys o) -> JsObject.get k (JsObject.replace k v o) = Some v.
Proof.
    induction o as [|[k' v'] r IH]; simpl; [tauto|].
    intros H. destruct (String.eqb k k') eqn:E; simpl.
    - rewrite String.eqb_refl. auto.
    - rewrite E. apply String.eqb_neq in E. destruct H; [congruence | auto].
Qed.

Lemma get_replace_other o k v x :
    x <> k -> JsObject.get x (JsObject.replace k v o) = JsObject.get x o.
Proof.
    intros N. induction o as [|[k' v'] r IH]; simpl; auto.
    destruct (String.eqb k k') eqn:E; simpl.
    - apply String.eqb_eq in E. subst k'.
      apply String.eqb_neq in N. rewrite N. auto.
    - rewrite IH. auto.
Qed.

Lemma get_insert_index o n k v x :
    JsObject.get k o = None ->
    JsObject.get x (JsObject.insert_index n k v o) =
    if String.eqb x k then Some v else JsObject.get x o.
Proof.
    induction o as [|[k' v'] r IH]; simpl.
    - destruct (String.eqb x k); auto.
    - intros G. destruct (String.eqb k k') eqn:E0; [discriminate|].
      specialize (IH G).
      destruct (JsObject.array_index k') as [m|]; [destruct (m <? n)%N|]; simpl;
        try rewrite IH; destruct (String.eqb x k) eqn:E1;
        destruct (String.eqb x k') eqn:E2; auto.
      apply String.eqb_eq in E1, E2. subst. rewrite String.eqb_refl in E0. discriminate.
Qed.

Lemma get_app o p x :
    JsObject.get x (o ++ p) =
    match JsObject.get x o with Some w => Some w | None => JsObject.get x p end.
Proof.
    induction o as [|[k' v'] r IH]; simpl; auto.
    destruct (String.eqb x k'); auto.
Qed.

Lemma get_set_same o k v : JsObject.get k (JsObject.set k v o) = Some v.
Proof.
    unfold JsObject.set. destruct (JsObject.has k o) eqn:H.
    - apply get_replace_same, has_true_iff; auto.
    - unfold JsObject.has in H. destruct (JsObject.get k o) eqn:G; [discriminate|].
      destruct (JsObject.array_index k).
      + rewrite get_insert_index, String.eqb_refl; auto.
      + rewrite get_app, G. simpl. rewrite String.eqb_refl. auto.
Qed.

Lemma get_set_other o k v x :
    x <> k -> JsObject.get x (JsObject.set k v o) = JsObject.get x o.
Proof.
    intros N. unfold JsObject.set. destruct (JsObject.has k o) eqn:H.
    - apply get_replace_other; auto.
    - unfold JsObject.has in H. destruct (JsObject.get k o) eqn:G; [discriminate|].
      apply String.eqb_neq in N. destruct (JsObject.array_index k).
      + rewrite get_insert_index, N; auto.
      + rewrite get_app. simpl. rewrite N. destruct (JsObject.get x o); auto.
Qed.

Lemma has_set o k v x :
    JsObject.has x (JsObject.set k v o) = String.eqb x k || JsObject.has x o.
Proof.
    unfold JsObject.has. destruct (String.eqb x k) eqn:E.
    - apply String.eqb_eq in E. subst. rewrite get_set_same. auto.
    - apply String.eqb_neq in E. rewrite get_set_other; auto.
Qed.

Lemma in_keys_delete o k x :
    In x (JsObject.keys (JsObject.delete k o)) -> In x (JsObject.keys o).
Proof.
    induction o as [|[k' v'] r IH]; simpl; auto.
    destruct (String.eqb k k'); simpl; tauto.
Qed.

Lemma NoDup_keys_delete o k :
    NoDup (JsObject.keys o) -> NoDup (JsObject.keys (JsObject.delete k o)).
Proof.
    induction o as [|[k' v'] r IH]; simpl; auto.
    intros ND. inversion ND; subst.
    destruct (String.eqb k k'); simpl; auto.
    constructor; auto. intros F. apply in_keys_delete in F. auto.
Qed.

Lemma not_in_keys_delete o k :
    NoDup (JsObject.keys o) -> ~ In k (JsObject.keys (JsObject.delete k o)).
Proof.
    induction o as [|[k' v'] r IH]; simpl; auto.
    intros ND. inversion ND; subst.
    eqb_case k k'; simpl; auto.
    intros [F|F]; [congruence | apply IH; auto].
Qed.

Lemma in_keys_delete_other o k x :
    x <> k -> In x (JsObject.keys o) -> In x (JsObject.keys (JsObject.delete k o)).
Proof.
    intros N. induction o as [|[k' v'] r IH]; simpl; auto.
    eqb_case k k'; simpl; intros [F|F]; auto; congruence.
Qed.

Lemma get_delete o k x :
    NoDup (JsObject.keys o) ->
    JsObject.get x (JsObject.delete k o) =
    if String.eqb x k then None else JsObject.get x o.
Proof.
    induction o as [|[k' v'] r IH]; simpl; intros ND.
    - destruct (String.eqb x k); auto.
    - inversion ND as [|? ? N ND']; subst.
      destruct (String.eqb k k') eqn:E1; simpl.
      + apply String.eqb_eq in E1. subst k'.
        destruct (String.eqb x k) eqn:E2; auto.
        apply String.eqb_eq in E2. subst x. apply get_none_iff; auto.
      + rewrite IH; auto.
        destruct (String.eqb x k') eqn:E2; auto.
        apply String.eqb_eq in E2. subst x.
        rewrite String.eqb_sym, E1. auto.
Qed.

Lemma is_empty_true o : JsObject.is_empty o = true <-> o = [].
Proof. destruct o; simpl; split; congruence. Qed.

Lemma NoDup_keys_of_list (l : list (string * V)) :
    NoDup (JsObject.keys (JsObject.of_list l)).
Proof.
    unfold JsObject.of_list.
    assert (G : forall o, NoDup (JsObject.keys o) ->
                NoDup (JsObject.keys (fold_left (fun o kv => JsObject.set (fst kv) (snd kv) o) l o))).
    { induction l as [|kv l IH]; simpl; auto.
      intros o ND. apply IH, NoDup_keys_set; auto. }
    apply G. constructor.
Qed.

Lemma contains_true_iff o k :
    JsObject.contains k o = true <->
    In k (JsObject.keys o) \/ JsObject.inherited k = true.
Proof. unfold JsObject.contains. rewrite orb_true_iff, has_true_iff. tauto. Qed.

Lemma contains_false_iff o k :
    JsObject.contains k o = false <->
    ~ In k (JsObject.keys o) /\ JsObject.inherited k = false.
Proof. unfold JsObject.contains. rewrite orb_false_iff, has_false_iff. tauto. Qed.

Lemma assign_cases o k v :
    (k = "__proto__" /\ JsObject.has k o = false /\ JsObject.assign k v o = o) \/
    ((k <> "__proto__" \/ JsObject.has k o = true) /\
     JsObject.assign k v o = JsObject.set k v o).
Proof.
    unfold JsObject.assign. destruct (String.eqb k "__proto__") eqn:E.
    - apply String.eqb_eq in E. destruct (JsObject.has k o); simpl; auto.
    - apply String.eqb_neq in E. simpl. auto.
Qed.


Lemma contains_set o k v x :
    JsObject.contains x o = true -> JsObject.contains x (JsObject.set k v o) = true.
Proof.
    rewrite !contains_true_iff. intros [H|H]; auto. left. apply in_keys_set. auto.
Qed.
End ObjectFacts.

(** The keys after a write depend on the keys before it only. *)
Lemma keys_insert_index_congr (V W : Type) (o : JsObject.t V) (p : JsObject.t W) n k v w :
  JsObject.keys o = JsObject.keys p ->
  JsObject.keys (JsObject.insert_index n k v o) =
  JsObject.keys (JsObject.insert_index n k w p).
Proof.
  revert p. induction o as [|[k1 v1] r IH]; intros [|[k2 v2] r2] E; simpl in *;
    try discriminate; auto.
  injection E as -> E.
  destruct (JsObject.array_index k2); [destruct (_ <? _)%N|]; simpl;
    f_equal; auto; f_equal; auto.
Qed.

Lemma keys_set_congr (V W : Type) (o : JsObject.t V) (p : JsObject.t W) k v w :
  JsObject.keys o = JsObject.keys p ->
  JsObject.keys (JsObject.set k v o) = JsObject.keys (JsObject.set k w p).
Proof.
  intros E. unfold JsObject.set.
  assert (Hh : JsObject.has k o = JsObject.has k p).
  { destruct (JsObject.has k p) eqn:Hp.
    - apply has_true_iff. rewrite E. apply has_true_iff; auto.
    - apply has_false_iff. rewrite E. apply has_false_iff; auto. }
  rewrite Hh. destruct (JsObject.has k p).
  - rewrite !keys_replace. auto.
  - destruct (JsObject.array_index k) as [n|].
    + apply keys_insert_index_congr; auto.
    + unfold JsObject.keys in *. rewrite !map_app, E. auto.
Qed.

(** ** Arrays *)

Implicit Types (l : list string) (name x y : string).

Lemma mem_true_iff name l : mem name l = true <-> In name l.
Proof.
  unfold mem. rewrite existsb_exists. split.
  - intros (x & H & E). apply String.eqb_eq in E. subst. auto.
  - intros H. exists name. split; auto. apply String.eqb_refl.
Qed.

Lemma in_remove_at i l x : In x (remove_at i l) -> In x l.
Proof.
  revert i. induction l as [|y r IH]; intros [|j]; simpl; auto.
  intros [H|H]; eauto.
Qed.

Lemma NoDup_remove_at i l : NoDup l -> NoDup (remove_at i l).
Proof.
  revert i. induction l as [|y r IH]; intros [|j] ND; simpl; auto;
    inversion ND; subst; auto.
  constructor; auto. intros F. apply in_remove_at in F. auto.
Qed.

Lemma not_in_remove_at i l name :
  NoDup l -> nth_error l i = Some name -> ~ In name (remove_at i l).
Proof.
  revert i. induction l as [|y r IH]; intros [|j] ND E; simpl in *; try discriminate;
    inversion ND; subst.
  - injection E as ->. auto.
  - intros [F|F].
    + subst. apply nth_error_In in E. auto.
    + eapply IH; eauto.
Qed.

Lemma in_remove_at_other i l name x :
  nth_error l i = Some name -> x <> name -> In x l -> In x (remove_at i l).
Proof.
  revert i. induction l as [|y r IH]; intros [|j] E N H; simpl in *; try discriminate.
  - injection E as ->. destruct H; congruence.
  - destruct H; eauto.
Qed.

Lemma indexOf_nth l i name :
  NoDup l -> nth_error l i = Some name -> indexOf name l = Some i.
Proof.
  revert i. induction l as [|y r IH]; intros [|j] ND E; simpl in *; try discriminate;
    inversion ND; subst.
  - injection E as ->. rewrite String.eqb_refl. auto.
  - eqb_case name y.
    + apply nth_error_In in E. tauto.
    + rewrite (IH j); auto.
Qed.

Lemma in_nth l name : In name l -> exists i, nth_error l i = Some name.
Proof. apply In_nth_error. Qed.

Lemma splice_indexOf_nth l i name :
  NoDup l -> nth_error l i = Some name -> splice_indexOf name l = remove_at i l.
Proof.
  intros ND E. unfold splice_indexOf. rewrite (indexOf_nth _ _ _ ND E). auto.
Qed.

(** Removing a name that is there removes exactly that name. *)
Lemma in_splice l name x :
  NoDup l -> In name l -> (In x (splice_indexOf name l) <-> x <> name /\ In x l).
Proof.
  intros ND H. destruct (in_nth _ _ H) as [i E].
  rewrite (splice_indexOf_nth _ _ _ ND E). split.
  - intros F. split; [|eapply in_remove_at; eauto].
    intros ->. eapply not_in_remove_at; eauto.
  - intros [N F]. eapply in_remove_at_other; eauto.
Qed.

Lemma NoDup_splice l name : NoDup l -> In name l -> NoDup (splice_indexOf name l).
Proof.
  intros ND H. destruct (in_nth _ _ H) as [i E].
  rewrite (splice_indexOf_nth _ _ _ ND E). apply NoDup_remove_at; auto.
Qed.

Lemma in_remove_string l x y :
  In x (remove string_dec y l) <-> In x l /\ x <> y.
Proof.
  split; [apply in_remove | intros [H N]; apply in_in_remove; auto].
Qed.

Lemma NoDup_remove_string l y : NoDup l -> NoDup (remove string_dec y l).
Proof.
  induction l as [|x r IH]; simpl; auto.
  intros ND. inversion ND; subst.
  destruct (string_dec y x); auto.
  constructor; auto. rewrite in_remove_string. tauto.
Qed.

Lemma NoDup_app_disjoint (l1 l2 : list string) x : NoDup (l1 ++ l2) -> In x l1 -> ~ In x l2.
Proof.
  induction l1 as [|y r IH]; simpl; [tauto|].
  intros ND [->|H] F; inversion ND; subst; auto.
  - apply H1. apply in_app_iff. auto.
  - eapply IH; eauto.
Qed.

(** ** Frame facts: what each operation leaves alone *)

Lemma with_promise_id a : with_promise (promise a) a = a.
Proof. destruct a; reflexivity. Qed.

Lemma promise_settle_cases s a :
  promise_settle s a = a \/
  (promise a = Some Pending /\ promise_settle s a = with_promise (Some s) a).
Proof. unfold promise_settle. destruct (promise a) as [[| |]|]; auto. Qed.

Lemma promise_frame_refl a : promise_frame a a.
Proof. exists (promise a). split; [symmetry; apply with_promise_id | auto]. Qed.

Lemma promise_frame_reject m a : promise_frame a (promise_reject m a).
Proof.
  destruct (promise_settle_cases (Rejected m) a) as [E|[P E]]; unfold promise_reject; rewrite E.
  - apply promise_frame_refl.
  - exists (Some (Rejected m)). split; eauto.
Qed.

Lemma promise_frame_trans a b c : promise_frame a b -> promise_frame b c -> promise_frame a c.
Proof.
  intros (p & -> & Hp) (q & -> & Hq). exists q. split; [destruct a; reflexivity|].
  simpl in Hq. destruct Hq as [->|[-> Hq]]; auto.
  destruct Hp as [Hp|[Hp (m & F)]]; [|discriminate]. right. split; auto.
Qed.

Lemma addService_Ok name spec a a' :
  addService name spec a = Ok a' ->
  JsObject.has name (services a) = false /\ started a = false /\
  a' = with_awaiting (awaiting a ++ [name])
         (with_services (JsObject.set name spec (services a)) a).
Proof.
  unfold addService, JsObject.contains.
  destruct (JsObject.has name (services a)); [discriminate|].
  destruct (JsObject.inherited name); [discriminate|]. simpl.
  destruct (started a); [discriminate|]. intros [= <-]. auto.
Qed.

Lemma addDependency_Ok name dependency alias a a' :
  addDependency name dependency alias a = Ok a' ->
  exists service deps deps',
    JsObject.get name (services a) = Some service /\
    JsObject.get name (starting a) <> Some true /\
    dependencies service = Some deps /\
    a' = with_services
           (JsObject.set name (set_dependencies deps' service) (services a)) a.
Proof.
  unfold addDependency, isStarting.
  destruct (JsObject.get name (services a)) as [service|].
  2:{ destruct (negb _); [discriminate|].
      destruct (match _ with Some _ => _ | None => _ end); discriminate. }
  destruct (JsObject.get name (starting a)) as [[|]|] eqn:S; try discriminate;
    try (destruct (JsObject.inherited name); [discriminate|]);
    (destruct (dependencies service) as [deps|] eqn:D; [|discriminate]);
    intros [= <-]; do 3 eexists; repeat split; eauto; congruence.
Qed.

Lemma call_frame c a a' : call c a = Ok a' -> registry_frame a a'.
Proof.
  destruct c as [name spec|name dependency alias]; simpl; intros H.
  - apply addService_Ok in H. destruct H as (_ & _ & ->). repeat split.
  - apply addDependency_Ok in H. destruct H as (? & ? & ? & _ & _ & _ & ->). repeat split.
Qed.

Lemma registry_frame_refl a : registry_frame a a.
Proof. repeat split. Qed.

Lemma registry_frame_trans a b c :
  registry_frame a b -> registry_frame b c -> registry_frame a c.
Proof. unfold registry_frame. intuition congruence. Qed.

Lemma run_body_frame body a a' thrown :
  run_body body a = (a', thrown) -> registry_frame a a'.
Proof.
  revert a. induction body as [|c rest IH]; simpl; intros a H.
  - injection H as <- _. apply registry_frame_refl.
  - destruct (call c a) as [a1|m] eqn:C.
    + eapply registry_frame_trans; [eapply call_frame; eauto | eauto].
    + injection H as <- _. apply registry_frame_refl.
Qed.

Lemma checkDependency_frame name acc d :
  promise_frame (fst acc) (fst (checkDependency name acc d)).
Proof.
  destruct acc as [a r]. unfold checkDependency. simpl.
  destruct (JsObject.contains d (ignored a)).
  - eapply promise_frame_trans; [apply promise_frame_reject|].
    destruct (negb _); [apply promise_frame_reject | apply promise_frame_refl].
  - destruct (negb _); [apply promise_frame_reject | apply promise_frame_refl].
Qed.

Lemma fold_checkDependency_frame name names acc :
  promise_frame (fst acc) (fst (fold_left (checkDependency name) names acc)).
Proof.
  revert acc. induction names as [|d r IH]; simpl; intros acc.
  - apply promise_frame_refl.
  - eapply promise_frame_trans; [apply checkDependency_frame | apply IH].
Qed.

Lemma checkDependencies_frame name service a :
  promise_frame a (fst (checkDependencies name service a)).
Proof.
  unfold checkDependencies.
  destruct (dependencies service) as [[[|d r]|m]|]; simpl fst;
    try apply promise_frame_refl;
    apply (fold_checkDependency_frame name _ (a, true)).
Qed.

Lemma obtainModule_frame name service a :
  promise_frame a (fst (obtainModule name service a)).
Proof.
  unfold obtainModule. destruct (module service); simpl; [apply promise_frame_refl|].
  destruct (requireDefault (path service)); simpl;
    [apply promise_frame_refl | apply promise_frame_reject].
Qed.

(** ** The invariant is kept by every operation *)

Lemma NoDup_snoc (l : list string) x : NoDup l -> ~ In x l -> NoDup (l ++ [x]).
Proof.
  intros ND N. apply NoDup_app; auto.
  - repeat constructor. simpl. tauto.
  - intros y H [<-|[]]. auto.
Qed.

Lemma keys_set_in (V : Type) (o : JsObject.t V) k v :
  In k (JsObject.keys o) -> JsObject.keys (JsObject.set k v o) = JsObject.keys o.
Proof. intros H. destruct (keys_set V o k v) as [[_ E]|[N _]]; tauto. Qed.

Lemma executed_of_promise a : Inv a -> promise a <> None -> executed a = true.
Proof.
  intros I N. destruct (executed a) eqn:E; auto.
  apply (promise_executed a I) in E. contradiction.
Qed.

Lemma executed_of_starting a name :
  Inv a -> In name (JsObject.keys (starting a)) -> executed a = true.
Proof.
  intros I H. destruct (executed a) eqn:E; auto.
  destruct (fresh a I E) as (_ & S & _). rewrite S in H. destruct H.
Qed.

Lemma Inv_with_promise a p :
  Inv a -> executed a = true -> p <> None ->
  (p = Some Fulfilled -> started a = true) -> Inv (with_promise p a).
Proof.
  intros [] E N F. constructor; unfold eligible in *; simpl; auto.
  split; intros; congruence.
Qed.

Lemma Inv_promise_frame a a' : Inv a -> promise_frame a a' -> Inv a'.
Proof.
  intros I (p & -> & [->|[P (m & ->)]]).
  - rewrite with_promise_id. auto.
  - apply Inv_with_promise; auto; try discriminate.
    apply executed_of_promise; auto. congruence.
Qed.

Lemma Inv_promise_reject m a : Inv a -> Inv (promise_reject m a).
Proof. intros I. eapply Inv_promise_frame; eauto. apply promise_frame_reject. Qed.

Lemma promise_frame_catch name reason a : promise_frame a (register_catch name reason a).
Proof.
  destruct reason; simpl; [apply promise_frame_reject | apply promise_frame_refl].
Qed.

Lemma Inv_register_catch name reason a : Inv a -> Inv (register_catch name reason a).
Proof. intros I. eapply Inv_promise_frame; eauto. apply promise_frame_catch. Qed.

Lemma Inv_addService name spec a a' :
  Inv a -> addService name spec a = Ok a' -> Inv a'.
Proof.
  intros I H. apply addService_Ok in H. destruct H as (N & S & ->).
  apply has_false_iff in N. destruct I.
  constructor; unfold eligible in *; simpl; auto.
  - apply NoDup_keys_set; auto.
  - apply NoDup_snoc; auto.
  - intros x Hx. apply in_keys_set. apply in_app_iff in Hx. destruct Hx as [Hx|[<-|[]]]; auto.
  - intros x Hx. apply in_keys_set. auto.
  - intros x Hx. apply in_keys_set. auto.
  - intros x Hx. apply in_keys_set. auto.
  - intros x Hx. apply in_app_iff in Hx. destruct Hx as [Hx|[<-|[]]]; [apply awaiting_starting0; auto|].
    intros F. apply N. auto.
  - intros x Hx. apply in_app_iff in Hx. destruct Hx as [Hx|[<-|[]]]; [apply awaiting_resolved0; auto|].
    intros F. apply N. auto.
  - intros x Hx F. apply in_app_iff in F. destruct F as [F|[<-|[]]]; [eapply ignored_awaiting0; eauto|].
    apply N. auto.
  - intros n Hn. apply in_keys_set in Hn. destruct Hn as [->|Hn].
    + right; left. apply in_app_iff. simpl. auto.
    + destruct (declared_somewhere0 n Hn) as [H|[H|[H|H]]]; auto.
      right; left. apply in_app_iff. auto.
  - intros n Hn. destruct (ignored_flagged0 n Hn) as (s & G & F). exists s.
    rewrite get_set_other; auto. intros ->. apply N. auto.
  - intros n service Hn G. rewrite get_set_other in G; [eauto|].
    intros ->. apply N. auto.
  - intros F. congruence.
Qed.

Lemma Inv_with_services a o :
  Inv a -> JsObject.keys o = JsObject.keys (services a) ->
  (forall n, In n (JsObject.keys (starting a)) ->
             JsObject.get n o = JsObject.get n (services a)) ->
  (forall n s, JsObject.get n (services a) = Some s ->
               exists s', JsObject.get n o = Some s' /\ ignore s' = ignore s) ->
  Inv (with_services o a).
Proof.
  intros [] E S Ig. constructor; unfold eligible in *; simpl; try rewrite E; auto.
  - intros n Hn. destruct (ignored_flagged0 n Hn) as (s & G & F).
    destruct (Ig n s G) as (s' & G' & F'). exists s'. split; congruence.
  - intros n service Hn G. rewrite S in G; eauto.
Qed.

Lemma not_starting a name :
  Inv a -> JsObject.get name (starting a) <> Some true ->
  ~ In name (JsObject.keys (starting a)).
Proof.
  intros I N H. apply in_keys_get in H. destruct H as [v G].
  rewrite (starting_true a I name v G) in G. contradiction.
Qed.

Lemma Inv_addDependency name dependency alias a a' :
  Inv a -> addDependency name dependency alias a = Ok a' -> Inv a'.
Proof.
  intros I H. apply addDependency_Ok in H.
  destruct H as (service & deps & deps' & G & S & _ & ->).
  apply Inv_with_services; auto.
  - apply keys_set_in. eapply get_in_keys; eauto.
  - intros n Hn. apply get_set_other. intros ->.
    exact (not_starting a name I S Hn).
  - intros n s Gn. destruct (string_dec n name) as [->|Ne].
    + rewrite get_set_same. eexists. split; [reflexivity|].
      rewrite G in Gn. injection Gn as <-. destruct service; reflexivity.
    + rewrite get_set_other; eauto.
Qed.

Lemma Inv_call c a a' : Inv a -> call c a = Ok a' -> Inv a'.
Proof.
  destruct c; simpl; intros I H;
    [eapply Inv_addService | eapply Inv_addDependency]; eauto.
Qed.

Lemma Inv_run_body body a a' thrown :
  Inv a -> run_body body a = (a', thrown) -> Inv a'.
Proof.
  revert a. induction body as [|c rest IH]; simpl; intros a I H.
  - injection H as <- _. auto.
  - destruct (call c a) as [a1|m] eqn:C.
    + eapply IH; [eapply Inv_call; eauto | eauto].
    + injection H as <- _. auto.
Qed.

Lemma Inv_beforeCall name service imports a :
  Inv a -> In name (awaiting a) -> executed a = true ->
  JsObject.get name (services a) = Some service -> eligible service a ->
  Inv (beforeCall name imports a) /\
  In name (JsObject.keys (starting (beforeCall name imports a))) /\
  ~ In name (pending (beforeCall name imports a)).
Proof.
  intros I H E G Rd.
  assert (P : ~ In name (pending a)).
  { intros F. apply (pending_starting a I) in F.
    exact (awaiting_starting a I name H F). }
  split; [|split; [simpl; apply in_keys_set; auto | exact P]].
  destruct I. unfold beforeCall. constructor; unfold eligible in *; simpl; auto.
  - apply NoDup_keys_set; auto.
  - apply NoDup_splice; auto.
  - intros x Hx. apply in_splice in Hx; auto. apply declared_awaiting0. tauto.
  - intros x Hx. apply in_keys_set in Hx. destruct Hx as [->|Hx]; auto.
  - intros x Hx F. apply in_splice in Hx; auto. apply in_keys_set in F.
    destruct Hx as [N Hx]. destruct F as [F|F]; [auto | eapply awaiting_starting0; eauto].
  - intros x Hx F. apply in_splice in Hx; auto. destruct Hx as [N Hx].
    eapply awaiting_resolved0; eauto.
  - intros x Hx F. apply in_keys_set in Hx. destruct Hx as [->|Hx].
    + eapply awaiting_resolved0; eauto.
    + eapply starting_resolved0; eauto.
  - intros x Hx F. apply in_splice in F; auto. destruct F as [N F].
    eapply ignored_awaiting0; eauto.
  - intros x Hx F. apply in_keys_set in F. destruct F as [->|F].
    + eapply ignored_awaiting0; eauto.
    + eapply ignored_starting0; eauto.
  - intros x Hx. apply in_keys_set. auto.
  - intros n Hn. destruct (declared_somewhere0 n Hn) as [F|[F|[F|F]]]; auto.
    + destruct (string_dec n name) as [->|Ne].
      * right; right; left. apply in_keys_set. auto.
      * right; left. apply in_splice; auto.
    + right; right; left. apply in_keys_set. auto.
  - intros n s Hn Gn. apply in_keys_set in Hn. destruct Hn as [->|Hn].
    + rewrite G in Gn. injection Gn as <-. exact Rd.
    + eauto.
  - intros n v Gn. destruct (string_dec n name) as [->|N].
    + rewrite get_set_same in Gn. congruence.
    + rewrite get_set_other in Gn; eauto.
  - intros S. destruct (started_done0 S) as [A _]. rewrite A in H. destruct H.
  - intros F. congruence.
Qed.

Lemma Inv_afterCall name thrown completion a :
  Inv a -> In name (JsObject.keys (starting a)) -> ~ In name (pending a) ->
  Inv (afterCall name thrown completion a).
Proof.
  intros I H P. unfold afterCall.
  destruct thrown as [stack|]; [apply Inv_promise_reject; auto|].
  destruct completion as [value| |stack]; [| |apply Inv_promise_reject; auto].
  - destruct I. constructor; unfold pending, eligible in *; simpl; auto.
    + rewrite map_app. simpl. rewrite <- app_assoc. simpl.
      apply NoDup_Add with (a := name) (l := map fst (jobs a) ++ deferred a); auto.
      apply Add_app.
    + rewrite map_app. simpl. intros x Hx. rewrite <- app_assoc in Hx. simpl in Hx.
      apply in_app_iff in Hx. destruct Hx as [Hx|[<-|Hx]]; auto;
        apply pending_starting0; apply in_app_iff; auto.
  - destruct I. constructor; unfold pending, eligible in *; simpl; auto.
    + apply NoDup_Add with (a := name) (l := map fst (jobs a) ++ deferred a); auto.
      apply Add_app.
    + intros x Hx. apply in_app_iff in Hx. destruct Hx as [Hx|[<-|Hx]]; auto;
        apply pending_starting0; apply in_app_iff; auto.
Qed.

Lemma promise_frame_fields a a' :
  promise_frame a a' ->
  services a' = services a /\ awaiting a' = awaiting a /\ registry_frame (with_promise (promise a') a) a'.
Proof.
  intros (p & -> & _). simpl. repeat split.
Qed.

Lemma promise_frame_executed a a' : promise_frame a a' -> executed a' = executed a.
Proof. intros (p & -> & _). reflexivity. Qed.

Lemma promise_frame_awaiting a a' : promise_frame a a' -> awaiting a' = awaiting a.
Proof. intros (p & -> & _). reflexivity. Qed.

Lemma promise_frame_services a a' : promise_frame a a' -> services a' = services a.
Proof. intros (p & -> & _). reflexivity. Qed.

Lemma executed_afterCall name thrown completion a :
  executed (afterCall name thrown completion a) = executed a.
Proof.
  unfold afterCall. destruct thrown; [apply promise_frame_executed, promise_frame_reject|].
  destruct completion; try reflexivity. apply promise_frame_executed, promise_frame_reject.
Qed.

Lemma resolved_checkDependency name acc d :
  resolved (fst (checkDependency name acc d)) = resolved (fst acc).
Proof.
  destruct (checkDependency_frame name acc d) as (p & -> & _). reflexivity.
Qed.

Lemma snd_fold_checkDependency name names : forall a r,
  snd (fold_left (checkDependency name) names (a, r)) = true ->
  r = true /\ forall d, In d names -> JsObject.contains d (resolved a) = true.
Proof.
  induction names as [|d rest IH]; intros a r H; cbn [fold_left] in H.
  - simpl in H. split; [auto | intros ? []].
  - pose proof (resolved_checkDependency name (a, r) d) as Er.
    assert (Es : snd (checkDependency name (a, r) d) = r && JsObject.contains d (resolved a))
      by reflexivity.
    destruct (checkDependency name (a, r) d) as [a1 r1]. simpl in Er, Es.
    apply IH in H. destruct H as [-> H].
    symmetry in Es. apply andb_true_iff in Es. destruct Es as [-> Hd].
    split; auto. intros x [<-|Hx].
    + auto.
    + rewrite <- Er. auto.
Qed.

(** A service is started only when all its dependencies are resolved. *)
Lemma checkDependencies_eligible name service a :
  snd (checkDependencies name service a) = true -> eligible service a.
Proof.
  unfold checkDependencies, eligible, getDependencyNames.
  destruct (dependencies service) as [[[|x r]|m]|];
    try (intros _ d []; fail);
    intros Hs; apply snd_fold_checkDependency in Hs; apply Hs.
Qed.

Lemma eligible_frame service a a' :
  resolved a' = resolved a -> eligible service a -> eligible service a'.
Proof. unfold eligible. intros ->. auto. Qed.

Lemma ready_eligible service a : ready service a -> eligible service a.
Proof.
  intros R d Hd. unfold JsObject.contains.
  apply orb_true_iff. left. apply has_true_iff. auto.
Qed.

Lemma eligible_ready service a :
  (forall d, In d (getDependencyNames service) -> JsObject.inherited d = false) ->
  eligible service a -> ready service a.
Proof.
  intros N E d Hd. specialize (E d Hd). unfold JsObject.contains in E.
  rewrite (N d Hd), orb_false_r in E. apply has_true_iff. exact E.
Qed.

Lemma promise_frame_resolved a a' : promise_frame a a' -> resolved a' = resolved a.
Proof. intros (p & -> & _). reflexivity. Qed.

Lemma Inv_startService name service a :
  Inv a -> In name (awaiting a) -> executed a = true ->
  JsObject.get name (services a) = Some service -> eligible service a ->
  Inv (startService name service a) /\ executed (startService name service a) = true.
Proof.
  intros I H E G Rd. unfold startService.
  pose proof (obtainModule_frame name service a) as PF.
  destruct (obtainModule name service a) as [a0 m]. simpl in PF.
  assert (I0 : Inv a0) by (eapply Inv_promise_frame; eauto).
  assert (E0 : executed a0 = true) by (rewrite (promise_frame_executed _ _ PF); auto).
  assert (H0 : In name (awaiting a0)) by (rewrite (promise_frame_awaiting _ _ PF); auto).
  assert (G0 : JsObject.get name (services a0) = Some service)
    by (rewrite (promise_frame_services _ _ PF); auto).
  assert (R0 : eligible service a0)
    by (eapply eligible_frame; [apply (promise_frame_resolved _ _ PF) | auto]).
  destruct m as [[body completion]|]; [|auto].
  destruct (Inv_beforeCall name service (obtainDepenedcies service a) a0 I0 H0 E0 G0 R0)
    as (I1 & S1 & P1).
  destruct (run_body body (beforeCall name (obtainDepenedcies service a) a0)) as [a2 thrown] eqn:R.
  pose proof (Inv_run_body _ _ _ _ I1 R) as I2.
  pose proof (run_body_frame _ _ _ _ R) as (_ & F1 & _ & _ & _ & _ & F2 & F3 & F4 & _).
  split.
  - apply Inv_afterCall; auto.
    + rewrite F1. auto.
    + unfold pending in *. rewrite F3, F4. auto.
  - rewrite executed_afterCall, F2. exact E0.
Qed.

Lemma Inv_round fuel : forall i n a a' k,
  Inv a -> executed a = true -> round fuel i n a = Some (a', k) ->
  Inv a' /\ executed a' = true.
Proof.
  induction fuel as [|fuel IH]; intros i n a a' k I E R; simpl in R;
    destruct (nth_error (awaiting a) i) as [name|] eqn:N;
    try discriminate; try (injection R as <- <-; auto; fail).
  destruct (JsObject.get name (services a)) as [service|] eqn:G; [|discriminate].
  pose proof (checkDependencies_frame name service a) as PF.
  pose proof (checkDependencies_eligible name service a) as Rd.
  destruct (checkDependencies name service a) as [a1 ok]. simpl in PF, Rd.
  assert (I1 : Inv a1) by (eapply Inv_promise_frame; eauto).
  assert (E1 : executed a1 = true) by (rewrite (promise_frame_executed _ _ PF); auto).
  destruct ok; [|eapply IH; eauto].
  assert (H1 : In name (awaiting a1)).
  { rewrite (promise_frame_awaiting _ _ PF). eapply nth_error_In; eauto. }
  destruct (Inv_startService name service a1 I1 H1 E1).
  - rewrite (promise_frame_services _ _ PF). auto.
  - eapply eligible_frame; [apply (promise_frame_resolved _ _ PF) | auto].
  - eapply IH; eauto.
Qed.

Lemma executed_round_end k a : executed (round_end k a) = executed a.
Proof.
  unfold round_end, promise_resolve, promise_reject, promise_settle.
  destruct (_ && _); [|destruct (Nat.eqb k 0); [destruct (JsObject.is_empty _)|]];
    simpl; destruct (promise a) as [[]|]; reflexivity.
Qed.

Lemma Inv_round_end k a : Inv a -> executed a = true -> Inv (round_end k a).
Proof.
  intros I E. unfold round_end.
  destruct (Nat.eqb (List.length (awaiting a)) 0 && JsObject.is_empty (starting a)) eqn:C.
  - apply andb_true_iff in C. destruct C as [C1 C2].
    apply Nat.eqb_eq, length_zero_iff_nil in C1. apply is_empty_true in C2.
    assert (I1 : Inv (with_started true a)).
    { destruct I. constructor; unfold eligible in *; simpl; auto. intros F. congruence. }
    unfold promise_resolve.
    destruct (promise_settle_cases Fulfilled (with_started true a)) as [->|[_ ->]]; auto.
    apply Inv_with_promise; auto. discriminate.
  - destruct (Nat.eqb k 0); auto.
    destruct (JsObject.is_empty (starting a)); auto.
    apply Inv_promise_reject; auto.
Qed.

Lemma Inv_nextRound a :
  Inv a -> executed a = true -> Inv (nextRound a) /\ executed (nextRound a) = true.
Proof.
  intros I E. unfold nextRound.
  destruct (round (round_fuel a) 0 0 a) as [[a' k]|] eqn:R; auto.
  destruct (Inv_round _ _ _ _ _ _ I E R) as [I' E'].
  split; [apply Inv_round_end; auto | rewrite executed_round_end; auto].
Qed.

Lemma Inv_record name value a :
  Inv a -> In name (JsObject.keys (starting a)) -> ~ In name (pending a) ->
  Inv (record name value a) /\ executed (record name value a) = true.
Proof.
  intros I H P. unfold record.
  pose proof (executed_of_starting a name I H) as E.
  split; [|exact E].
  destruct I. constructor; unfold eligible in *; simpl; auto.
  - apply NoDup_keys_delete; auto.
  - apply NoDup_keys_set; auto.
  - intros x Hx. apply in_keys_delete in Hx. auto.
  - intros x Hx. apply in_keys_set in Hx. destruct Hx as [->|Hx]; auto.
  - intros x Hx F. apply in_keys_delete in F. eapply awaiting_starting0; eauto.
  - intros x Hx F. apply in_keys_set in F. destruct F as [->|F].
    + eapply awaiting_starting0; eauto.
    + eapply awaiting_resolved0; eauto.
  - intros x Hx F. apply in_keys_set in F. destruct F as [->|F].
    + exact (not_in_keys_delete _ _ _ nodup_starting0 Hx).
    + apply in_keys_delete in Hx. eapply starting_resolved0; eauto.
  - intros x Hx F. apply in_keys_delete in F. eapply ignored_starting0; eauto.
  - intros x Hx F. apply in_keys_set in F. destruct F as [->|F].
    + eapply ignored_starting0; eauto.
    + eapply ignored_resolved0; eauto.
  - intros x Hx. apply in_keys_delete_other; auto. intros ->. auto.
  - intros n Hn. destruct (declared_somewhere0 n Hn) as [F|[F|[F|F]]]; auto.
    + destruct (string_dec n name) as [->|Ne].
      * right; right; right. apply in_keys_set. auto.
      * right; right; left. apply in_keys_delete_other; auto.
    + right; right; right. apply in_keys_set. auto.
  - intros n s Hn G d Hd. apply in_keys_delete in Hn. apply contains_set. eauto.
  - intros n v G. rewrite get_delete in G; auto.
    destruct (String.eqb n name); [discriminate | eauto].
  - apply keys_set_congr; auto.
  - intros S. destruct (started_done0 S) as [_ S']. rewrite S' in H. destruct H.
  - intros F. congruence.
Qed.

Lemma Inv_register_then name value a :
  Inv a -> In name (JsObject.keys (starting a)) -> ~ In name (pending a) ->
  Inv (register_then name value a).
Proof.
  intros I H P. destruct (Inv_record name value a I H P) as [I' E'].
  apply Inv_nextRound; auto.
Qed.

Lemma Inv_new config_services : Inv (new config_services).
Proof.
  constructor; simpl;
    auto using NoDup_nil, NoDup_keys_of_list, incl_refl;
    try (intros ? []); try easy.
Qed.

(** The names [fillIgnored] collects. *)
Lemma fillIgnored_keys svcs aw : forall ig x,
  In x (JsObject.keys
          (fold_left
             (fun ignored name =>
                match JsObject.get name svcs with
                | Some service =>
                    if ignore service then JsObject.set name 1 ignored else ignored
                | None => ignored
                end) aw ig)) <->
  In x (JsObject.keys ig) \/
  (In x aw /\ exists s, JsObject.get x svcs = Some s /\ ignore s = true).
Proof.
  induction aw as [|n r IH]; intros ig x; simpl.
  - split; [auto | intros [H|[[] _]]; auto].
  - rewrite IH. destruct (JsObject.get n svcs) as [s|] eqn:G.
    + destruct (ignore s) eqn:Ig.
      * rewrite in_keys_set. split.
        -- intros [[->|H]|(H & s' & G' & I')]; eauto 8.
        -- intros [H|([<-|H] & s' & G' & I')]; eauto 8.
      * split.
        -- intros [H|(H & s' & G' & I')]; eauto 8.
        -- intros [H|([<-|H] & s' & G' & I')]; eauto 8. congruence.
    + split.
      * intros [H|(H & s' & G' & I')]; eauto 8.
      * intros [H|([<-|H] & s' & G' & I')]; eauto 8. congruence.
Qed.

Lemma fillIgnored_nodup svcs aw : forall ig,
  NoDup (JsObject.keys ig) ->
  NoDup (JsObject.keys
          (fold_left
             (fun ignored name =>
                match JsObject.get name svcs with
                | Some service =>
                    if ignore service then JsObject.set name 1 ignored else ignored
                | None => ignored
                end) aw ig)).
Proof.
  induction aw as [|n r IH]; intros ig ND; simpl; auto.
  apply IH. destruct (JsObject.get n svcs) as [s|]; auto.
  destruct (ignore s); auto. apply NoDup_keys_set; auto.
Qed.

(** What [cleanAwaiting] leaves. *)
Lemma cleanAwaiting_spec ks : forall aw,
  NoDup aw -> NoDup ks -> incl ks aw ->
  let r := fold_left (fun awaiting name => splice_indexOf name awaiting) ks aw in
  NoDup r /\ forall x, In x r <-> In x aw /\ ~ In x ks.
Proof.
  induction ks as [|k ks IH]; intros aw ND NK Inc; simpl.
  - split; auto. intros x. tauto.
  - inversion NK as [|? ? Nk NK']; subst.
    assert (Hk : In k aw) by (apply Inc; simpl; auto).
    destruct (IH (splice_indexOf k aw)) as [ND' Hr]; auto.
    + apply NoDup_splice; auto.
    + intros x Hx. apply in_splice; auto. split.
      * intros ->. auto.
      * apply Inc. simpl. auto.
    + split; auto. intros x. rewrite Hr, in_splice; auto. intuition congruence.
Qed.

Lemma keys_nil (V : Type) (o : JsObject.t V) : JsObject.keys o = [] -> o = [].
Proof. destruct o; simpl; congruence. Qed.

Lemma fresh_pending a : Inv a -> executed a = false -> jobs a = [] /\ deferred a = [].
Proof.
  intros I E. destruct (fresh a I E) as (_ & S & _).
  pose proof (pending_starting a I) as P. rewrite S in P. unfold pending in P.
  destruct (jobs a) as [|j js]; [|exfalso; apply (P (fst j)); simpl; auto].
  destruct (deferred a) as [|d ds]; [auto | exfalso; apply (P d); simpl; auto].
Qed.

Lemma Inv_prepare a : Inv a -> executed a = false -> Inv (prepare a).
Proof.
  intros I E.
  destruct (fresh a I E) as (Ig & St & Re & Sd).
  destruct (fresh_pending a I E) as (J & D).
  pose proof (teardown_resolved a I) as T. rewrite Re in T.
  unfold prepare, cleanAwaiting, fillIgnored. simpl.
  set (ig := fold_left _ (awaiting a) (ignored a)).
  assert (Hig : forall x, In x (JsObject.keys ig) -> In x (awaiting a)).
  { intros x Hx. apply fillIgnored_keys in Hx. rewrite Ig in Hx.
    destruct Hx as [[]|[Hx _]]. auto. }
  assert (NDig : NoDup (JsObject.keys ig)).
  { apply fillIgnored_nodup. rewrite Ig. constructor. }
  destruct (cleanAwaiting_spec (JsObject.keys ig) (awaiting a)) as [NDr Hr]; auto.
  { apply (nodup_awaiting a I). }
  destruct I. constructor; simpl; auto; unfold pending, eligible; simpl;
    try rewrite St; try rewrite Re; try rewrite J; try rewrite D; simpl;
    auto using NoDup_nil; try (intros ? []); try easy.
  - intros x Hx. apply Hr in Hx. apply declared_awaiting0. tauto.
  - intros x Hx. apply declared_awaiting0. auto.
  - intros x Hx F. apply Hr in F. tauto.
  - intros n Hn. destruct (declared_somewhere0 n Hn) as [F|[F|[F|F]]].
    + rewrite Ig in F. destruct F.
    + destruct (in_dec string_dec n (JsObject.keys ig)) as [Hi|Hi]; auto.
      right; left. apply Hr. auto.
    + rewrite St in F. destruct F.
    + rewrite Re in F. destruct F.
  - intros n Hn. apply fillIgnored_keys in Hn. rewrite Ig in Hn.
    destruct Hn as [[]|[_ Hn]]. exact Hn.
  - intros F. congruence.
Qed.

Lemma Inv_execute a : Inv a -> Inv (fst (execute a)).
Proof.
  intros I. unfold execute. destruct (executed a) eqn:E; [auto|].
  destruct (checkConstraints a); [|auto]. simpl.
  apply Inv_nextRound; [|reflexivity].
  apply Inv_prepare; auto.
Qed.

Lemma Inv_drop_job a name value rest :
  Inv a -> jobs a = (name, value) :: rest ->
  Inv (with_jobs rest a) /\ In name (JsObject.keys (starting a)) /\
  ~ In name (pending (with_jobs rest a)).
Proof.
  intros I J.
  pose proof (nodup_pending a I) as ND. pose proof (pending_starting a I) as P.
  unfold pending in *. rewrite J in *. simpl in *. inversion ND; subst.
  split; [|split; auto].
  - destruct I. constructor; unfold pending, eligible in *; simpl; auto.
    intros x Hx. apply P. right. exact Hx.
  - apply P. left. reflexivity.
Qed.

Lemma Inv_drop_deferred a name :
  Inv a -> In name (deferred a) ->
  Inv (with_deferred (remove string_dec name (deferred a)) a) /\
  In name (JsObject.keys (starting a)) /\
  ~ In name (pending (with_deferred (remove string_dec name (deferred a)) a)).
Proof.
  intros I H.
  pose proof (nodup_pending a I) as ND. pose proof (pending_starting a I) as P.
  unfold pending in *. split; [|split].
  - destruct I. constructor; unfold pending, eligible in *; simpl; auto.
    + apply NoDup_app_remove_l in ND as ND2.
      apply NoDup_app; [eapply NoDup_app_remove_r; eauto | apply NoDup_remove_string; auto|].
      intros x H1 H2. apply in_remove_string in H2.
      eapply NoDup_app_disjoint; eauto. tauto.
    + intros x Hx. apply P. apply in_app_iff in Hx. apply in_app_iff.
      destruct Hx as [Hx|Hx]; auto. apply in_remove_string in Hx. tauto.
  - apply P. apply in_app_iff. auto.
  - simpl. intros F. apply in_app_iff in F. destruct F as [F|F].
    + eapply NoDup_app_disjoint; eauto.
    + apply in_remove_string in F. tauto.
Qed.

Lemma Inv_with_timers a t : Inv a -> Inv (with_timers t a).
Proof. intros []. constructor; unfold eligible in *; simpl; auto. Qed.

Lemma Inv_step a e : Inv a -> Inv (step a e).
Proof.
  intros I. destruct e as [|c| |name value|name stack|name]; simpl.
  - apply Inv_execute; auto.
  - destruct (call c a) eqn:C; auto. eapply Inv_call; eauto.
  - destruct (jobs a) as [|[name value] rest] eqn:J; auto.
    destruct (Inv_drop_job a name value rest I J) as (I' & S & P).
    apply Inv_register_then; auto.
  - destruct (mem name (deferred a)) eqn:M; auto.
    apply mem_true_iff in M.
    destruct (Inv_drop_deferred a name I M) as (I' & S & P).
    apply Inv_register_then; auto.
  - destruct (mem name (deferred a)) eqn:M; auto.
    apply mem_true_iff in M.
    destruct (Inv_drop_deferred a name I M) as (I' & S & P).
    apply Inv_register_catch; auto.
  - destruct (_ && _); auto. apply Inv_promise_reject, Inv_with_timers; auto.
Qed.

Lemma Inv_run events : forall a, Inv a -> Inv (run a events).
Proof.
  induction events as [|e r IH]; simpl; auto using Inv_step.
Qed.

Lemma Reached_Inv a : Reached a -> Inv a.
Proof.
  induction 1.
  - apply Inv_new.
  - apply Inv_step; auto.
  - apply Inv_prepare; auto.
  - destruct (Inv_drop_job a name value rest IHReached H0) as (I' & S & P).
    apply Inv_record; auto.
  - destruct (Inv_drop_deferred a name IHReached H0) as (I' & S & P).
    apply Inv_record; auto.
  - eapply Inv_promise_frame; eauto. apply checkDependencies_frame.
  - apply Inv_startService; auto. apply checkDependencies_eligible with (name := name); auto.
  - eapply Inv_promise_frame; eauto. apply obtainModule_frame.
  - eapply Inv_beforeCall; eauto. apply checkDependencies_eligible with (name := name); auto.
Qed.

(** ** The loop of [nextRound] always completes *)

Lemma skipn_nth (l : list string) i x :
  nth_error l i = Some x -> skipn i l = x :: skipn (S i) l.
Proof.
  revert i. induction l as [|y r IH]; intros [|i] E; simpl nth_error in E;
    try discriminate.
  - injection E as ->. reflexivity.
  - rewrite !skipn_cons. apply IH. exact E.
Qed.

Lemma skipn_remove_at (l : list string) i :
  skipn (S i) (remove_at i l) = skipn (S (S i)) l.
Proof.
  revert i. induction l as [|y r IH]; intros [|i]; simpl remove_at.
  - rewrite !skipn_nil. reflexivity.
  - rewrite !skipn_nil. reflexivity.
  - rewrite (skipn_cons 1). reflexivity.
  - rewrite !skipn_cons. apply IH.
Qed.

Lemma sum_skipn_S (f : string -> nat) (l : list string) k :
  list_sum (map f (skipn (S k) l)) <= list_sum (map f (skipn k l)).
Proof.
  revert k. induction l as [|y r IH]; intros k.
  - rewrite !skipn_nil. auto.
  - rewrite skipn_cons. destruct k as [|k].
    + simpl. lia.
    + rewrite skipn_cons. apply IH.
Qed.

Lemma in_skipn (l : list string) k x : In x (skipn k l) -> In x l.
Proof.
  intros H. rewrite <- (firstn_skipn k l). apply in_app_iff. auto.
Qed.

Lemma sum_skipn_le (f : string -> nat) (l : list string) k :
  list_sum (map f (skipn k l)) <= list_sum (map f l).
Proof.
  induction k as [|k IH]; simpl; auto.
  etransitivity; [apply sum_skipn_S | exact IH].
Qed.

Lemma sum_skipn_app (f : string -> nat) (l m : list string) k :
  list_sum (map f (skipn k (l ++ m))) <=
  list_sum (map f (skipn k l)) + list_sum (map f m).
Proof.
  rewrite skipn_app, map_app, list_sum_app.
  pose proof (sum_skipn_le f m (k - List.length l)). lia.
Qed.

Lemma factory_weight_body body completion :
  factory_weight (Function body completion) = body_weight body.
Proof.
  unfold body_weight. simpl. induction body as [|c r IH]; simpl; auto.
Qed.

Lemma spec_weight_set_dependencies d s :
  spec_weight (set_dependencies d s) = spec_weight s.
Proof. destruct s; reflexivity. Qed.

Lemma weight_of_declared svcs name :
  In name (JsObject.keys svcs) -> 1 <= weight_of svcs name.
Proof.
  intros H. apply in_keys_get in H. destruct H as [s G].
  unfold weight_of. rewrite G. destruct s; simpl; lia.
Qed.

(** The services a factory body adds weigh no more than the body. *)
Lemma run_body_weight body : forall a a' thrown,
  run_body body a = (a', thrown) ->
  exists added,
    awaiting a' = awaiting a ++ added /\
    (forall n, In n (JsObject.keys (services a)) ->
               weight_of (services a') n = weight_of (services a) n) /\
    incl (JsObject.keys (services a)) (JsObject.keys (services a')) /\
    list_sum (map (weight_of (services a')) added) <= body_weight body.
Proof.
  induction body as [|c rest IH]; simpl; intros a a' thrown R.
  - injection R as <- _. exists []. rewrite app_nil_r.
    repeat split; auto using incl_refl.
  - destruct (call c a) as [a1|m] eqn:C.
    + destruct (IH _ _ _ R) as (added & A & W & Inc & Sw).
      destruct c as [name spec|name dependency alias]; simpl in C.
      * apply addService_Ok in C. destruct C as (N & _ & ->). simpl in *.
        apply has_false_iff in N.
        exists (name :: added). rewrite A, <- app_assoc. split; [reflexivity|].
        split; [|split].
        -- intros n Hn. rewrite W by (apply in_keys_set; auto).
           unfold weight_of. rewrite get_set_other; auto. intros ->. auto.
        -- intros n Hn. apply Inc. apply in_keys_set. auto.
        -- unfold body_weight in *. simpl. rewrite W by (apply in_keys_set; auto).
           unfold weight_of at 1. rewrite get_set_same. lia.
      * apply addDependency_Ok in C.
        destruct C as (service & deps & deps' & G & _ & _ & ->). simpl in *.
        pose proof (get_in_keys _ _ _ _ G) as K.
        rewrite (keys_set_in _ _ _ _ K) in *.
        exists added. split; [auto|]. split; [|split; auto].
        intros n Hn. rewrite W by auto. unfold weight_of.
        destruct (string_dec n name) as [->|Ne].
        -- rewrite get_set_same, G. apply spec_weight_set_dependencies.
        -- rewrite get_set_other; auto.
    + injection R as <- _. exists []. rewrite app_nil_r.
      repeat split; auto using incl_refl. simpl. lia.
Qed.

Lemma obtainModule_weight name service a a' f :
  obtainModule name service a = (a', Some f) ->
  S (factory_weight f) <= spec_weight service.
Proof.
  unfold obtainModule. destruct service as [d i m p]. simpl.
  destruct m as [g|].
  - intros [= _ <-]. lia.
  - destruct p as [stack|[stack| |g|g|stack]]; simpl; try discriminate;
      intros [= _ <-]; simpl; lia.
Qed.

Lemma remaining_weight_frame a a' i :
  services a' = services a -> awaiting a' = awaiting a ->
  remaining_weight a' i = remaining_weight a i.
Proof. unfold remaining_weight. intros -> ->. reflexivity. Qed.

Lemma remaining_weight_nth a i name :
  nth_error (awaiting a) i = Some name ->
  remaining_weight a i = weight_of (services a) name + remaining_weight a (S i).
Proof.
  intros E. unfold remaining_weight. rewrite (skipn_nth _ _ _ E). reflexivity.
Qed.

Lemma startService_weight name service a i :
  Inv a -> nth_error (awaiting a) i = Some name ->
  JsObject.get name (services a) = Some service ->
  S (remaining_weight (startService name service a) (S i)) <= remaining_weight a i.
Proof.
  intros I N G. rewrite (remaining_weight_nth _ _ _ N).
  unfold weight_of at 1. rewrite G.
  unfold startService.
  pose proof (obtainModule_frame name service a) as PF.
  destruct (obtainModule name service a) as [a0 m] eqn:O. simpl in PF.
  pose proof (promise_frame_services _ _ PF) as Es.
  pose proof (promise_frame_awaiting _ _ PF) as Ea.
  destruct m as [[body completion]|].
  2:{ rewrite (remaining_weight_frame a a0) by auto. destruct service; simpl; lia. }
  apply obtainModule_weight in O. rewrite factory_weight_body in O.
  destruct (run_body body (beforeCall name (obtainDepenedcies service a) a0))
    as [a2 thrown] eqn:R.
  destruct (run_body_weight _ _ _ _ R) as (added & A & W & _ & Sw).
  simpl in A, W. rewrite Ea, Es in *.
  rewrite (splice_indexOf_nth _ _ _ (nodup_awaiting a I) N) in A.
  assert (E3 : remaining_weight (afterCall name thrown completion a2) (S i) =
               remaining_weight a2 (S i)).
  { apply remaining_weight_frame; unfold afterCall;
      destruct thrown; try destruct completion; try reflexivity;
      try apply promise_frame_services, promise_frame_reject;
      apply promise_frame_awaiting, promise_frame_reject. }
  rewrite E3. unfold remaining_weight at 1. rewrite A.
  pose proof (sum_skipn_app (weight_of (services a2)) (remove_at i (awaiting a)) added (S i)) as B.
  rewrite skipn_remove_at in B.
  assert (E4 : map (weight_of (services a2)) (skipn (S (S i)) (awaiting a)) =
               map (weight_of (services a)) (skipn (S (S i)) (awaiting a))).
  { apply map_ext_in. intros n Hn. apply W. apply (declared_awaiting a I).
    eapply in_skipn; eauto. }
  rewrite E4 in B.
  pose proof (sum_skipn_S (weight_of (services a)) (awaiting a) (S i)) as B2.
  unfold remaining_weight. lia.
Qed.

Lemma round_completes fuel : forall i n a,
  Inv a -> executed a = true -> remaining_weight a i <= fuel ->
  exists a' k, round fuel i n a = Some (a', k).
Proof.
  induction fuel as [|fuel IH]; intros i n a I E B; simpl;
    destruct (nth_error (awaiting a) i) as [name|] eqn:N; eauto.
  - exfalso. rewrite (remaining_weight_nth _ _ _ N) in B.
    pose proof (weight_of_declared (services a) name) as W.
    assert (1 <= weight_of (services a) name);
      [apply W, (declared_awaiting a I); eapply nth_error_In; eauto | lia].
  - assert (D : In name (JsObject.keys (services a)))
      by (apply (declared_awaiting a I); eapply nth_error_In; eauto).
    destruct (in_keys_get _ _ _ D) as [service G]. rewrite G.
    pose proof (checkDependencies_frame name service a) as PF.
    destruct (checkDependencies name service a) as [a1 ok] eqn:Eck. simpl in PF.
    pose proof (promise_frame_services _ _ PF) as Es.
    pose proof (promise_frame_awaiting _ _ PF) as Ea.
    assert (I1 : Inv a1) by (eapply Inv_promise_frame; eauto).
    assert (E1 : executed a1 = true) by (rewrite (promise_frame_executed _ _ PF); auto).
    assert (B1 : remaining_weight a1 i <= S fuel)
      by (rewrite (remaining_weight_frame a a1); auto).
    assert (N1 : nth_error (awaiting a1) i = Some name) by (rewrite Ea; auto).
    assert (G1 : JsObject.get name (services a1) = Some service) by (rewrite Es; auto).
    destruct ok.
    + destruct (Inv_startService name service a1) as [I2 E2]; auto.
      { eapply nth_error_In; eauto. }
      { eapply eligible_frame; [apply (promise_frame_resolved _ _ PF)|].
        apply checkDependencies_eligible with (name := name). rewrite Eck. reflexivity. }
      apply IH; auto.
      pose proof (startService_weight name service a1 i I1 N1 G1). lia.
    + apply IH; auto.
      rewrite (remaining_weight_nth _ _ _ N1) in B1.
      pose proof (weight_of_declared (services a1) name) as W.
      rewrite Es in W. specialize (W D). rewrite Es in B1. rewrite <- Es in B1 at 1.
      rewrite Es in B1. lia.
Qed.

(** In every state after [execute], the loop of [nextRound] runs to its end
    within the bound, and every name it reads from [awaiting] is declared. *)
Lemma nextRound_completes a :
  Inv a -> executed a = true ->
  exists a' k, round (round_fuel a) 0 0 a = Some (a', k) /\
               nextRound a = round_end k a'.
Proof.
  intros I E. destruct (round_completes (round_fuel a) 0 0 a I E) as (a' & k & R).
  - unfold round_fuel. auto.
  - exists a', k. split; auto. unfold nextRound. rewrite R. reflexivity.
Qed.

(* ------------------------------------------------------------------------- *)
(** ** The three sets of a run never overlap *)

(** C9. At every observable point of a run (between two events, that is at
    every suspension; at every round boundary and between the iterations of
    a round; where a factory is called and between its registry calls) no
    name is in two of [awaiting], [starting] and [resolved]. *)
Theorem awaiting_starting_resolved_disjoint a :
  Reached a ->
  disjoint (awaiting a) (JsObject.keys (starting a)) /\
  disjoint (awaiting a) (JsObject.keys (resolved a)) /\
  disjoint (JsObject.keys (starting a)) (JsObject.keys (resolved a)).
Proof.
  intros R. apply Reached_Inv in R. destruct R. auto.
Qed.

(** The state in which the factory of [serviceB] is called in the first
    round of [resolve_config], after that factory has added a service. *)
Lemma awaiting_starting_resolved_disjoint_witness :
  let a := step (beforeCall "serviceB" [("__app__", ImportApp)]
                   (prepare (new resolve_config)))
                (Call (CallAddService "serviceC" (inline None (returning "moduleC")))) in
  disjoint (awaiting a) (JsObject.keys (starting a)) /\
  disjoint (awaiting a) (JsObject.keys (resolved a)) /\
  disjoint (JsObject.keys (starting a)) (JsObject.keys (resolved a)).
Proof.
  apply awaiting_starting_resolved_disjoint.
  apply reached_step.
  apply reached_call with (service := inline None (returning "moduleB")).
  - apply reached_prepare; [apply reached_new | reflexivity].
  - vm_compute. auto.
  - reflexivity.
  - reflexivity.
  - reflexivity.
Defined.

(* ------------------------------------------------------------------------- *)
(** ** The outcome of a run is settled once *)

Lemma promise_kept_refl a : promise_kept a a.
Proof. intros s H _. exact H. Qed.

Lemma promise_kept_trans a b c :
  promise_kept a b -> promise_kept b c -> promise_kept a c.
Proof. intros H1 H2 s P N. apply H2; auto. Qed.

Lemma promise_kept_frame a a' : promise_frame a a' -> promise_kept a a'.
Proof.
  intros (p & -> & [->|[P _]]) s H N; simpl; auto. congruence.
Qed.

Lemma promise_kept_registry a a' : registry_frame a a' -> promise_kept a a'.
Proof. intros (_ & _ & _ & _ & P & _) s H N. congruence. Qed.

Lemma promise_settle_settled s a :
  promise a <> Some Pending -> promise_settle s a = a.
Proof. unfold promise_settle. destruct (promise a) as [[]|]; congruence. Qed.

Lemma promise_kept_startService name service a :
  promise_kept a (startService name service a).
Proof.
  unfold startService.
  pose proof (obtainModule_frame name service a) as PF.
  destruct (obtainModule name service a) as [a0 m]. simpl in PF.
  eapply promise_kept_trans; [apply promise_kept_frame; eauto|].
  destruct m as [[body completion]|]; [|apply promise_kept_refl].
  destruct (run_body body _) as [a2 thrown] eqn:R.
  apply run_body_frame in R.
  eapply promise_kept_trans;
    [|eapply promise_kept_trans; [apply promise_kept_registry; exact R|]].
  - intros s H N. exact H.
  - unfold afterCall. destruct thrown; [apply promise_kept_frame, promise_frame_reject|].
    destruct completion; try (intros s H N; exact H).
    apply promise_kept_frame, promise_frame_reject.
Qed.

Lemma promise_kept_round fuel : forall i n a a' k,
  round fuel i n a = Some (a', k) -> promise_kept a a'.
Proof.
  induction fuel as [|fuel IH]; intros i n a a' k R; simpl in R;
    destruct (nth_error (awaiting a) i) as [name|];
    try discriminate; try (injection R as <- <-; apply promise_kept_refl).
  destruct (JsObject.get name (services a)) as [service|]; [|discriminate].
  pose proof (checkDependencies_frame name service a) as PF.
  destruct (checkDependencies name service a) as [a1 ok]. simpl in PF.
  eapply promise_kept_trans; [apply promise_kept_frame; eauto|].
  destruct ok; [|eapply IH; eauto].
  eapply promise_kept_trans; [apply promise_kept_startService | eapply IH; eauto].
Qed.

Lemma promise_kept_round_end k a : promise_kept a (round_end k a).
Proof.
  unfold round_end. destruct (_ && _).
  - intros s H N. unfold promise_resolve. rewrite promise_settle_settled; simpl; auto.
    congruence.
  - destruct (Nat.eqb k 0); [|apply promise_kept_refl].
    destruct (JsObject.is_empty _); [|apply promise_kept_refl].
    apply promise_kept_frame, promise_frame_reject.
Qed.

Lemma promise_kept_nextRound a : promise_kept a (nextRound a).
Proof.
  unfold nextRound. destruct (round (round_fuel a) 0 0 a) as [[a' k]|] eqn:R.
  - eapply promise_kept_trans; [eapply promise_kept_round; eauto|].
    apply promise_kept_round_end.
  - apply promise_kept_refl.
Qed.

Lemma promise_kept_register_then name value a :
  promise_kept a (register_then name value a).
Proof.
  unfold register_then. eapply promise_kept_trans; [|apply promise_kept_nextRound].
  intros s H N. exact H.
Qed.

Lemma promise_kept_step a e : Inv a -> promise_kept a (step a e).
Proof.
  intros I. destruct e as [|c| |name value|name stack|name]; simpl.
  - intros s H N. unfold execute.
    rewrite (executed_of_promise a I) by congruence. exact H.
  - destruct (call c a) eqn:C; [|apply promise_kept_refl].
    apply promise_kept_registry. eapply call_frame; eauto.
  - destruct (jobs a) as [|[name value] rest]; [apply promise_kept_refl|].
    eapply promise_kept_trans; [|apply promise_kept_register_then].
    intros s H N. exact H.
  - destruct (mem name (deferred a)); [|apply promise_kept_refl].
    eapply promise_kept_trans; [|apply promise_kept_register_then].
    intros s H N. exact H.
  - destruct (mem name (deferred a)); [|apply promise_kept_refl].
    eapply promise_kept_trans; [|apply promise_kept_frame, promise_frame_catch].
    intros s H N. exact H.
  - destruct (_ && _); [|apply promise_kept_refl].
    eapply promise_kept_trans; [|apply promise_kept_frame, promise_frame_reject].
    intros s H N. exact H.
Qed.

(** Once the run has succeeded nothing is in flight, so no event touches
    [resolved], the object the promise was fulfilled with. *)
Lemma resolved_frozen a e :
  Inv a -> promise a = Some Fulfilled -> resolved (step a e) = resolved a.
Proof.
  intros I F.
  pose proof (fulfilled_started a I F) as S.
  destruct (started_done a I S) as [A St].
  pose proof (pending_starting a I) as P. rewrite St in P. unfold pending in P.
  assert (J : jobs a = []).
  { destruct (jobs a) as [|j js]; auto. exfalso. apply (P (fst j)). simpl. auto. }
  assert (D : deferred a = []).
  { destruct (deferred a) as [|d ds]; auto. exfalso. apply (P d).
    apply in_app_iff. simpl. auto. }
  destruct e as [|c| |name value|name stack|name]; simpl.
  - unfold execute. rewrite (executed_of_promise a I) by congruence. reflexivity.
  - destruct (call c a) eqn:C; auto.
    apply call_frame in C. destruct C as (_ & _ & C & _). exact C.
  - rewrite J. reflexivity.
  - rewrite D. reflexivity.
  - rewrite D. reflexivity.
  - destruct (_ && _); auto.
    unfold startupTimer, promise_reject. rewrite promise_settle_settled; simpl; auto.
    congruence.
Qed.

(** C4. Once the promise of a run is settled, with success or with a
    failure, no later event changes it: every later [reject] or [resolve] is
    dropped (a second missing dependency in the same round, a start-up timer
    that fires late, the late completion of an abandoned factory), and after
    a success the object it was fulfilled with is not modified either. *)
Theorem outcome_settled_once a s events :
  Reached a -> promise a = Some s -> s <> Pending ->
  promise (run a events) = Some s /\
  (s = Fulfilled -> resolved (run a events) = resolved a) /\
  (forall message, promise_reject message a = a) /\
  promise_resolve a = a.
Proof.
  intros R H N. apply Reached_Inv in R.
  assert (G : promise (run a events) = Some s /\
              (s = Fulfilled -> resolved (run a events) = resolved a)).
  { revert a R H. induction events as [|e r IH]; intros a I H; simpl; auto.
    pose proof (promise_kept_step a e I s H N) as H'.
    destruct (IH (step a e) (Inv_step a e I) H') as [G1 G2].
    split; auto. intros ->. rewrite G2 by reflexivity.
    apply resolved_frozen; auto. }
  destruct G as [G1 G2]. repeat split; auto.
  - intros message. apply promise_settle_settled. congruence.
  - apply promise_settle_settled. congruence.
Qed.

(** The run of [missing_config] fails in its first round; neither a second
    [execute], nor a registry call, nor a timer changes the failure. *)
Lemma outcome_settled_once_witness :
  promise (run (run (new missing_config) [Execute])
               [Timer "serviceA"; Call (CallAddService "serviceB" (inline None (returning "moduleB")));
                Job; Execute]) =
  Some (Rejected (UnknownDependency "serviceB" "serviceA")).
Proof.
  apply (outcome_settled_once (run (new missing_config) [Execute])
           (Rejected (UnknownDependency "serviceB" "serviceA"))).
  - apply reached_step, reached_new.
  - reflexivity.
  - discriminate.
Defined.
(* ------------------------------------------------------------------------- *)
(** ** Missing and ignored dependencies *)

Lemma promise_reject_not_pending message a :
  promise (promise_reject message a) <> Some Pending.
Proof.
  unfold promise_reject, promise_settle.
  destruct (promise a) as [[]|] eqn:P; simpl; congruence.
Qed.

Lemma checkDependency_clean name a r d :
  JsObject.contains d (ignored a) = false -> JsObject.contains d (services a) = true ->
  fst (checkDependency name (a, r) d) = a.
Proof. intros H1 H2. unfold checkDependency. rewrite H1, H2. reflexivity. Qed.

Lemma checkDependency_settled name a r d :
  promise a <> Some Pending -> fst (checkDependency name (a, r) d) = a.
Proof.
  intros P. unfold checkDependency, promise_reject.
  destruct (JsObject.contains d (ignored a));
    repeat (rewrite promise_settle_settled by exact P);
    destruct (negb (JsObject.contains d (services a))); simpl;
    repeat (rewrite promise_settle_settled by exact P); reflexivity.
Qed.

Lemma fold_checkDependency_clean name names : forall a r,
  (forall d, In d names ->
             JsObject.contains d (ignored a) = false /\
             JsObject.contains d (services a) = true) ->
  fst (fold_left (checkDependency name) names (a, r)) = a.
Proof.
  induction names as [|d rest IH]; intros a r H; cbn [fold_left]; auto.
  destruct (H d) as [H1 H2]; [simpl; auto|].
  pose proof (checkDependency_clean name a r d H1 H2) as E.
  destruct (checkDependency name (a, r) d) as [a1 r1]. simpl in E. subst a1.
  apply IH. intros d' Hd'. apply H. simpl. auto.
Qed.

Lemma fold_checkDependency_settled name names : forall a r,
  promise a <> Some Pending ->
  fst (fold_left (checkDependency name) names (a, r)) = a.
Proof.
  induction names as [|d rest IH]; intros a r P; cbn [fold_left]; auto.
  pose proof (checkDependency_settled name a r d P) as E.
  destruct (checkDependency name (a, r) d) as [a1 r1]. simpl in E. subst a1.
  apply IH. exact P.
Qed.

(** An evaluation goes through every dependency: there is no early exit. *)
Lemma checkDependencies_fold name service a d rest :
  getDependencyNames service = d :: rest ->
  checkDependencies name service a =
  fold_left (checkDependency name) (d :: rest) (a, true).
Proof.
  unfold checkDependencies, getDependencyNames.
  destruct (dependencies service) as [[[|x r]|m]|]; intros E; try discriminate;
    rewrite <- E; reflexivity.
Qed.

(** X16. Evaluating a service goes through all its dependency names (array
    entries, or values of the alias object) and rejects the promise of the
    run for each one that is [in this.ignored] ([IgnoredDependency]) or not
    [in this.services] ([UnknownDependency]), with a message naming the
    dependency and the service.  The first settlement wins: the evaluation
    as a whole acts as the single [reject] of the first such dependency, and
    leaves an outcome that is already settled as it is.  The two tests are
    those of the operator [in]: besides the ignored and the declared
    services they hold for the names of the members of [Object.prototype]. *)
Theorem checkDependencies_first_rejection name service a before dependency after :
  getDependencyNames service = before ++ dependency :: after ->
  (forall d, In d before ->
             JsObject.contains d (ignored a) = false /\
             JsObject.contains d (services a) = true) ->
  let a' := fst (checkDependencies name service a) in
  (JsObject.contains dependency (ignored a) = true ->
     a' = promise_reject (IgnoredDependency dependency name) a /\
     (promise a = Some Pending ->
      promise a' = Some (Rejected (IgnoredDependency dependency name)))) /\
  (JsObject.contains dependency (ignored a) = false ->
   JsObject.contains dependency (services a) = false ->
     a' = promise_reject (UnknownDependency dependency name) a /\
     (promise a = Some Pending ->
      promise a' = Some (Rejected (UnknownDependency dependency name)))) /\
  (promise a <> Some Pending -> a' = a).
Proof.
  intros E Clean a'.
  assert (F : checkDependencies name service a =
              fold_left (checkDependency name) (before ++ dependency :: after) (a, true)).
  { destruct (before ++ dependency :: after) as [|d rest] eqn:L.
    - destruct before; discriminate.
    - apply checkDependencies_fold. auto. }
  assert (Settled : promise a <> Some Pending -> a' = a).
  { intros P. unfold a'. rewrite F. apply fold_checkDependency_settled. exact P. }
  assert (Step : forall message,
             (forall r, fst (checkDependency name (a, r) dependency)
                        = promise_reject message a) ->
             a' = promise_reject message a).
  { intros message Hm. unfold a'. rewrite F, fold_left_app. cbn [fold_left].
    assert (B : exists r, fold_left (checkDependency name) before (a, true) = (a, r)).
    { pose proof (fold_checkDependency_clean name before a true Clean) as B.
      destruct (fold_left (checkDependency name) before (a, true)) as [b r].
      simpl in B. subst b. eauto. }
    destruct B as [r ->]. specialize (Hm r).
    destruct (checkDependency name (a, r) dependency) as [b r'] eqn:C. simpl in Hm. subst b.
    apply fold_checkDependency_settled, promise_reject_not_pending. }
  split; [|split; auto].
  - intros Hi. assert (Ha : a' = promise_reject (IgnoredDependency dependency name) a).
    { apply Step. intros r. unfold checkDependency. simpl. rewrite Hi.
      destruct (negb (JsObject.contains dependency (services _))); simpl; auto.
      unfold promise_reject at 1. apply promise_settle_settled, promise_reject_not_pending. }
    split; auto. intros P. rewrite Ha. unfold promise_reject, promise_settle. rewrite P.
    reflexivity.
  - intros Hi Hs. assert (Ha : a' = promise_reject (UnknownDependency dependency name) a).
    { apply Step. intros r. unfold checkDependency. simpl. rewrite Hi, Hs. reflexivity. }
    split; auto. intros P. rewrite Ha. unfold promise_reject, promise_settle. rewrite P.
    reflexivity.
Qed.

(** 'should throw an error if dependency was not found': the evaluation of
    [serviceA] in the first round; and the evaluation of a service whose
    second dependency is ignored and whose third is not declared. *)
Lemma checkDependencies_first_rejection_witness :
  promise (fst (checkDependencies "serviceA"
                  (inline (Some (DepArray ["serviceB"])) (returning "moduleA"))
                  (prepare (new missing_config)))) =
  Some (Rejected "Dependency `serviceB` on `serviceA` was not found") /\
  promise (fst (checkDependencies "serviceA"
                  (inline (Some (DepArray ["serviceB"; "serviceC"; "serviceD"]))
                     (returning "moduleA"))
                  (prepare (new ignored_dependency_config)))) =
  Some (Rejected "Dependency `serviceC` on `serviceA` is ignored").
Proof.
  split.
  - destruct (checkDependencies_first_rejection "serviceA"
                (inline (Some (DepArray ["serviceB"])) (returning "moduleA"))
                (prepare (new missing_config)) [] "serviceB" [])
      as (_ & H & _).
    + reflexivity.
    + intros d [].
    + apply H; reflexivity.
  - destruct (checkDependencies_first_rejection "serviceA"
                (inline (Some (DepArray ["serviceB"; "serviceC"; "serviceD"]))
                   (returning "moduleA"))
                (prepare (new ignored_dependency_config))
                ["serviceB"] "serviceC" ["serviceD"])
      as (H & _ & _).
    + reflexivity.
    + intros d [<-|[]]. split; reflexivity.
    + apply H; reflexivity.
Defined.

(** C3 (defect in the code).  A dependency that is not declared and bears
    the name of a member of [Object.prototype] is not reported as unknown,
    because [checkDependencies] tests with the operator [in].  With the
    single service [serviceA] depending on [constructor], which is neither
    declared nor ignored, the evaluation of [serviceA] in the first round
    rejects the pending promise of the run with the [IgnoredDependency]
    message instead of the [UnknownDependency] one, and answers that all
    dependencies are resolved, so that the factory of [serviceA] is called,
    with the inherited member as its import. *)
Theorem checkDependencies_inherited_name :
  let service := inline (Some (DepArray ["constructor"])) (returning "moduleA") in
  let a := prepare (new prototype_config) in
  JsObject.get "serviceA" (services a) = Some service /\
  JsObject.keys (services a) = ["serviceA"] /\
  JsObject.keys (ignored a) = [] /\
  promise a = Some Pending /\
  checkDependencies "serviceA" service a =
    (promise_reject (IgnoredDependency "constructor" "serviceA") a, true) /\
  promise (fst (checkDependencies "serviceA" service a)) =
    Some (Rejected "Dependency `constructor` on `serviceA` is ignored") /\
  promise (fst (checkDependencies "serviceA" service a)) <>
    Some (Rejected (UnknownDependency "constructor" "serviceA")) /\
  promise (run (new prototype_config) [Execute]) =
    Some (Rejected "Dependency `constructor` on `serviceA` is ignored") /\
  calls (run (new prototype_config) [Execute]) =
    [("serviceA",
      [("__app__", ImportApp); ("constructor", ImportInherited "constructor")])].
Proof.
  repeat split; try reflexivity. discriminate.
Qed.

(* ------------------------------------------------------------------------- *)
(** ** Services that cannot be loaded *)

(** C7, as amended.  When a service has no [module] and loading its [path]
    throws an error, be it in [require] or in [requireDefault], where reading
    [__esModule] of an export that is [undefined] or [null] raises a
    [TypeError], starting the service does nothing but reject the promise of
    the run with a [ModuleLoadError] that names the service and carries the
    stack of that error; this settles a pending run.  When the path loads a
    module that exports another falsy value, starting the service does
    nothing at all. *)
Theorem startService_load_error name service a :
  module service = None ->
  (forall cause,
     path service = RequireThrows cause \/
     path service = RequireReturns (ExportsNullish cause) ->
     startService name service a = promise_reject (ModuleLoadError name cause) a /\
     (promise a = Some Pending ->
      promise (startService name service a) =
      Some (Rejected (ModuleLoadError name cause)))) /\
  (path service = RequireReturns ExportsFalsy -> startService name service a = a).
Proof.
  intros M. split.
  - intros cause P.
    assert (E : startService name service a = promise_reject (ModuleLoadError name cause) a).
    { unfold startService, obtainModule. rewrite M.
      destruct P as [->| ->]; reflexivity. }
    split; auto. intros Pe. rewrite E. unfold promise_reject, promise_settle.
    rewrite Pe. reflexivity.
  - intros P. unfold startService, obtainModule. rewrite M, P. reflexivity.
Qed.

(** 'should reject promise if error occurs in service requiring'; a module
    that exports [undefined]; a module that exports a falsy value. *)
Lemma startService_load_error_witness :
  promise (startService "serviceA"
             (Service None false None
                (RequireThrows "Error: Cannot find module 'path/not/exists'"))
             (prepare (new unloadable_config))) =
  Some (Rejected (ModuleLoadError "serviceA"
                    "Error: Cannot find module 'path/not/exists'")) /\
  promise (startService "serviceA"
             (Service None false None
                (RequireReturns
                   (ExportsNullish
                      "TypeError: Cannot read properties of undefined (reading '__esModule')")))
             (prepare (new nullish_config))) =
  Some (Rejected (ModuleLoadError "serviceA"
                    "TypeError: Cannot read properties of undefined (reading '__esModule')")) /\
  startService "serviceA"
    (Service None false None (RequireReturns ExportsFalsy))
    (prepare (new falsy_config)) =
  prepare (new falsy_config).
Proof.
  split; [|split].
  - apply (startService_load_error "serviceA"
             (Service None false None
                (RequireThrows "Error: Cannot find module 'path/not/exists'"))
             (prepare (new unloadable_config))).
    + reflexivity.
    + left. reflexivity.
    + reflexivity.
  - apply (startService_load_error "serviceA"
             (Service None false None
                (RequireReturns
                   (ExportsNullish
                      "TypeError: Cannot read properties of undefined (reading '__esModule')")))
             (prepare (new nullish_config))).
    + reflexivity.
    + right. reflexivity.
    + reflexivity.
  - apply (startService_load_error "serviceA"
             (Service None false None (RequireReturns ExportsFalsy))
             (prepare (new falsy_config))).
    + reflexivity.
    + reflexivity.
Defined.

(** C7 as stated fails for a module that exports [false], [0] or the empty
    string: it is loaded without an exception and yields nothing to call, no
    [ModuleLoadError] is raised, the promise of the run stays pending and the
    service stays in [awaiting] while the other service is started. *)
Lemma startService_load_error_counterexample :
  let service := Service None false None (RequireReturns ExportsFalsy) in
  let a := prepare (new falsy_config) in
  JsObject.get "serviceA" (services a) = Some service /\
  module service = None /\
  requireDefault (path service) = Ok None /\
  promise a = Some Pending /\
  startService "serviceA" service a = a /\
  promise (startService "serviceA" service a) = Some Pending /\
  promise (run (new falsy_config) [Execute; Job]) = Some Pending /\
  awaiting (run (new falsy_config) [Execute; Job]) = ["serviceA"] /\
  calls (run (new falsy_config) [Execute; Job]) = [("serviceB", [("__app__", ImportApp)])].
Proof.
  repeat split; reflexivity.
Qed.

(* ------------------------------------------------------------------------- *)
(** ** Guards of [addDependency] *)

(** What [addDependency] refuses: a target that is not [in this.services],
    a target for which [this.starting[name]] is truthy, a target declared
    without [dependencies].  For a name that no member of [Object.prototype]
    bears, the first is an undeclared target and the second a target that is
    in [starting]. *)
Lemma addDependency_guards name dependency alias a :
  (JsObject.contains name (services a) = false ->
   addDependency name dependency alias a = Throw (UnknownService name)) /\
  (JsObject.contains name (services a) = true ->
   isStarting name a = true ->
   addDependency name dependency alias a = Throw (AlreadyStarting name)) /\
  (forall service,
     JsObject.get name (services a) = Some service ->
     isStarting name a = false ->
     dependencies service = None ->
     addDependency name dependency alias a = Throw (NotDependent name)).
Proof.
  unfold addDependency, JsObject.contains, JsObject.has. repeat split.
  - destruct (JsObject.get name (services a)); [discriminate|].
    simpl. intros ->. reflexivity.
  - destruct (JsObject.get name (services a)).
    + intros _ ->. reflexivity.
    + simpl. intros -> ->. reflexivity.
  - intros service -> -> ->. reflexivity.
Qed.

(** C8 (defect in the code).  The configuration of the test 'should throw an
    error if the service has been started', at the point where the timer of
    that test fires: all three services are resolved, [started] is set, and
    [addDependency('serviceB', 'serviceC')] returns normally and extends the
    dependencies of the resolved service, because its entry in [starting]
    was deleted when it resolved.  The test expects the call to throw. *)
Theorem addDependency_after_resolution :
  let a := run (new started_config) [Execute; Job; Job; Job] in
  JsObject.keys (resolved a) = ["serviceA"; "serviceC"; "serviceB"] /\
  promise a = Some Fulfilled /\
  exists a',
    addDependency "serviceB" "serviceC" None a = Ok a' /\
    option_map getDependencyNames (JsObject.get "serviceB" (services a')) =
    Some ["serviceA"; "serviceC"].
Proof.
  vm_compute. repeat split. eexists. split; reflexivity.
Qed.

(* ------------------------------------------------------------------------- *)
(** ** Reserved names *)

Lemma checkNameConstraints_reserved names :
  (exists name, In name names /\ reserved name) ->
  exists r, reserved r /\ checkNameConstraints names = Throw (ReservedName r).
Proof.
  induction names as [|x rest IH]; intros (name & H & R); [destruct H|]. simpl.
  destruct (String.eqb x "require") eqn:E1.
  { exists "require". split; [left|]; reflexivity. }
  destruct (String.eqb x "requireDefault") eqn:E2.
  { exists "requireDefault". split; [right|]; reflexivity. }
  apply IH. exists name. split; auto. destruct H as [<-|H]; auto.
  apply String.eqb_neq in E1, E2. destruct R; contradiction.
Qed.

Lemma checkNameConstraints_cases names :
  checkNameConstraints names = Ok tt \/
  exists r, reserved r /\ checkNameConstraints names = Throw (ReservedName r).
Proof.
  induction names as [|x rest IH]; simpl; auto.
  destruct (String.eqb x "require").
  { right. exists "require". split; [left|]; reflexivity. }
  destruct (String.eqb x "requireDefault").
  { right. exists "requireDefault". split; [right|]; reflexivity. }
  exact IH.
Qed.

Lemma checkServicesConstraints_reserved svcs names :
  incl names (JsObject.keys svcs) ->
  (exists name service d,
      In name names /\ JsObject.get name svcs = Some service /\
      In d (getDependencyNames service) /\ reserved d) ->
  exists r, reserved r /\ checkServicesConstraints svcs names = Throw (ReservedName r).
Proof.
  induction names as [|x rest IH]; intros Inc (name & service & d & H & G & Hd & R);
    [destruct H|]. simpl.
  assert (Hx : In x (JsObject.keys svcs)) by (apply Inc; simpl; auto).
  destruct (in_keys_get _ _ _ Hx) as [sx Gx]. rewrite Gx.
  destruct (checkNameConstraints_cases (getDependencyNames sx)) as [E|(r & Rr & E)];
    rewrite E; [|eauto].
  apply IH.
  - intros y Hy. apply Inc. simpl. auto.
  - destruct H as [<-|H]; [|eauto 8].
    exfalso. rewrite G in Gx. injection Gx as <-.
    destruct (checkNameConstraints_reserved (getDependencyNames service)) as (r & _ & E');
      [eauto | congruence].
Qed.

Lemma ReservedName_distinct name r :
  DuplicateService name <> ReservedName r /\ AlreadyStarted name <> ReservedName r /\
  UnknownService name <> ReservedName r /\ AlreadyStarting name <> ReservedName r /\
  NotDependent name <> ReservedName r.
Proof. repeat split; discriminate. Qed.

(** C6, as amended.  The names are checked once, by [execute], on the graph
    as it stands at that call: if a service then awaiting has a reserved
    name, or names a reserved dependency (an entry of its array, or a value
    of its alias object), [execute] hands back a promise rejected with the
    reserved-name error and leaves the instance untouched: nothing is
    ignored, no round runs.  [addService] and [addDependency] never raise
    that error, whenever they are called. *)
Theorem execute_reserved_name a :
  Reached a -> executed a = false ->
  (exists name, In name (awaiting a) /\ reserved name) \/
  (exists name service d,
      In name (awaiting a) /\ JsObject.get name (services a) = Some service /\
      In d (getDependencyNames service) /\ reserved d) ->
  (exists r, reserved r /\ execute a = (a, ExecuteRejected (ReservedName r))) /\
  (forall b name spec r, addService name spec b <> Throw (ReservedName r)) /\
  (forall b name dependency alias r,
      addDependency name dependency alias b <> Throw (ReservedName r)).
Proof.
  intros R E H. apply Reached_Inv in R. split; [|split].
  - unfold execute, checkConstraints. rewrite E.
    destruct (checkNameConstraints_cases (awaiting a)) as [C|(r & Rr & C)]; rewrite C.
    + destruct H as [H|H].
      * destruct (checkNameConstraints_reserved _ H) as (r & _ & C'). congruence.
      * destruct (checkServicesConstraints_reserved (services a) (awaiting a))
          as (r & Rr & C'); [apply (declared_awaiting a R) | exact H |].
        rewrite C'. eauto.
    + eauto.
  - intros b name spec r. unfold addService.
    destruct (ReservedName_distinct name r) as (D1 & D2 & _).
    destruct (JsObject.contains name (services b)); [congruence|].
    destruct (started b); [congruence | discriminate].
  - intros b name dependency alias r. unfold addDependency.
    destruct (ReservedName_distinct name r) as (_ & _ & D3 & D4 & D5).
    destruct (JsObject.get name (services b)) as [service|].
    + destruct (isStarting name b); [congruence|].
      destruct (dependencies service); [discriminate | congruence].
    + destruct (negb _); [congruence|]. destruct (isStarting name b); congruence.
Qed.

(** '`require` is is forbidden service name' *)
Lemma execute_reserved_name_witness :
  exists r, reserved r /\
            execute (new require_config) =
            (new require_config, ExecuteRejected (ReservedName r)).
Proof.
  apply (execute_reserved_name (new require_config)).
  - apply reached_new.
  - reflexivity.
  - left. exists "require". split; [simpl; auto | left; reflexivity].
Defined.

(** C6 as stated fails for names introduced after [execute]: in the first
    round of [resolve_config], [addService('require', ..)] is accepted and
    the service is started like any other; the run succeeds with [require]
    among the resolved services. *)
Lemma reserved_name_unchecked_counterexample :
  let a := run (new resolve_config)
             [Execute;
              Call (CallAddService "require" (inline None (returning "service")));
              Job; Job; Job] in
  promise a = Some Fulfilled /\
  JsObject.keys (resolved a) = ["serviceB"; "serviceA"; "require"].
Proof. vm_compute. split; reflexivity. Qed.

(** The alias of a dependency is not looked at: the configuration of the
    test '`require` is is forbidden alias' passes the check and the run
    succeeds, [serviceB] being handed [serviceA] under the key [require]. *)
Lemma reserved_alias_accepted :
  let a := run (new alias_config) [Execute; Job; Job] in
  checkConstraints (new alias_config) = Ok tt /\
  promise a = Some Fulfilled /\
  map (fun c => (fst c, JsObject.keys (snd c))) (calls a) =
  [("serviceA", ["__app__"]); ("serviceB", ["__app__"; "require"])].
Proof. vm_compute. repeat split. Qed.

(* ------------------------------------------------------------------------- *)
(** ** Runs in which the graph is not modified *)

Lemma obtainModule_factory_of name service a :
  snd (obtainModule name service a) = factory_of service.
Proof.
  unfold obtainModule, factory_of. destruct (module service); auto.
  destruct (requireDefault (path service)); auto.
Qed.

Lemma round_frame_refl a : round_frame a a.
Proof. repeat split. Qed.

Lemma round_frame_trans a b c : round_frame a b -> round_frame b c -> round_frame a c.
Proof. unfold round_frame. intuition congruence. Qed.

Lemma round_frame_promise a a' : promise_frame a a' -> round_frame a a'.
Proof. intros (p & -> & _). repeat split. Qed.

Lemma round_frame_registry a a' : registry_frame a a' -> round_frame a a'.
Proof. unfold registry_frame, round_frame. intuition. Qed.

Lemma round_frame_afterCall name thrown completion a :
  round_frame a (afterCall name thrown completion a).
Proof.
  unfold afterCall. destruct thrown; [apply round_frame_promise, promise_frame_reject|].
  destruct completion; try (repeat split; fail).
  apply round_frame_promise, promise_frame_reject.
Qed.

Lemma round_frame_startService name service a :
  round_frame a (startService name service a).
Proof.
  unfold startService.
  pose proof (obtainModule_frame name service a) as PF.
  destruct (obtainModule name service a) as [a0 m]. simpl in PF.
  eapply round_frame_trans; [apply round_frame_promise; eauto|].
  destruct m as [[body completion]|]; [|apply round_frame_refl].
  destruct (run_body body _) as [a2 thrown] eqn:R.
  apply run_body_frame, round_frame_registry in R.
  eapply round_frame_trans; [|apply round_frame_afterCall].
  eapply round_frame_trans; [|exact R]. repeat split.
Qed.

Lemma round_frame_round fuel : forall i n a a' k,
  round fuel i n a = Some (a', k) -> round_frame a a'.
Proof.
  induction fuel as [|fuel IH]; intros i n a a' k R; simpl in R;
    destruct (nth_error (awaiting a) i) as [name|];
    try discriminate; try (injection R as <- <-; apply round_frame_refl).
  destruct (JsObject.get name (services a)) as [service|]; [|discriminate].
  pose proof (checkDependencies_frame name service a) as PF.
  destruct (checkDependencies name service a) as [a1 ok]. simpl in PF.
  eapply round_frame_trans; [apply round_frame_promise; eauto|].
  destruct ok; [|eapply IH; eauto].
  eapply round_frame_trans; [apply round_frame_startService | eapply IH; eauto].
Qed.

Lemma resolved_round_end k a : resolved (round_end k a) = resolved a.
Proof.
  unfold round_end, promise_resolve, promise_reject, promise_settle.
  destruct (_ && _); [|destruct (Nat.eqb k 0); [destruct (JsObject.is_empty _)|]];
    simpl; destruct (promise a) as [[]|]; reflexivity.
Qed.

Lemma services_round_end k a : services (round_end k a) = services a.
Proof.
  unfold round_end, promise_resolve, promise_reject, promise_settle.
  destruct (_ && _); [|destruct (Nat.eqb k 0); [destruct (JsObject.is_empty _)|]];
    simpl; destruct (promise a) as [[]|]; reflexivity.
Qed.

Lemma teardown_round_end k a : teardown (round_end k a) = teardown a.
Proof.
  unfold round_end, promise_resolve, promise_reject, promise_settle.
  destruct (_ && _); [|destruct (Nat.eqb k 0); [destruct (JsObject.is_empty _)|]];
    simpl; destruct (promise a) as [[]|]; reflexivity.
Qed.

Lemma resolved_nextRound a : resolved (nextRound a) = resolved a.
Proof.
  unfold nextRound. destruct (round (round_fuel a) 0 0 a) as [[a' k]|] eqn:R; auto.
  rewrite resolved_round_end. apply (round_frame_round _ _ _ _ _ _ R).
Qed.

Lemma services_startService_quiet name service a :
  quiet service = true -> services (startService name service a) = services a.
Proof.
  intros Q. unfold startService.
  pose proof (obtainModule_frame name service a) as PF.
  pose proof (obtainModule_factory_of name service a) as F.
  destruct (obtainModule name service a) as [a0 m]. simpl in PF, F. subst m.
  rewrite <- (promise_frame_services _ _ PF).
  unfold quiet in Q. destruct (factory_of service) as [[[|c body] completion]|];
    try discriminate; auto.
  simpl. unfold afterCall. destruct completion; try reflexivity.
  rewrite (promise_frame_services _ _ (promise_frame_reject _ _)). reflexivity.
Qed.

Lemma services_round_quiet fuel : forall i n a a' k,
  Quiet a -> round fuel i n a = Some (a', k) -> services a' = services a.
Proof.
  induction fuel as [|fuel IH]; intros i n a a' k Q R; simpl in R;
    destruct (nth_error (awaiting a) i) as [name|];
    try discriminate; try (injection R as <- <-; reflexivity).
  destruct (JsObject.get name (services a)) as [service|] eqn:G; [|discriminate].
  pose proof (checkDependencies_frame name service a) as PF.
  destruct (checkDependencies name service a) as [a1 ok]. simpl in PF.
  pose proof (promise_frame_services _ _ PF) as E1.
  assert (Q1 : Quiet a1) by (unfold Quiet; rewrite E1; auto).
  destruct ok.
  - pose proof (services_startService_quiet name service a1 (Q _ _ G)) as E2.
    rewrite (IH _ _ _ _ _ (ltac:(unfold Quiet; rewrite E2; auto)) R). congruence.
  - rewrite (IH _ _ _ _ _ Q1 R). auto.
Qed.

Lemma services_nextRound_quiet a : Quiet a -> services (nextRound a) = services a.
Proof.
  intros Q. unfold nextRound.
  destruct (round (round_fuel a) 0 0 a) as [[a' k]|] eqn:R; auto.
  rewrite services_round_end. eapply services_round_quiet; eauto.
Qed.

Lemma services_step_quiet a e :
  Quiet a -> not_call e = true -> services (step a e) = services a.
Proof.
  intros Q N. destruct e as [|c| |name value|name stack|name]; simpl; try discriminate.
  - unfold execute. destruct (executed a); auto.
    destruct (checkConstraints a); auto. simpl.
    apply (services_nextRound_quiet (prepare a)). exact Q.
  - destruct (jobs a) as [|[name value] rest]; auto.
    apply (services_nextRound_quiet (record name value (with_jobs rest a))). exact Q.
  - destruct (mem name (deferred a)); auto.
    apply (services_nextRound_quiet
             (record name value (with_deferred (remove string_dec name (deferred a)) a))).
    exact Q.
  - destruct (mem name (deferred a)); auto.
    rewrite (promise_frame_services _ _ (promise_frame_catch _ _ _)). reflexivity.
  - destruct (_ && _); auto.
    unfold startupTimer. rewrite (promise_frame_services _ _ (promise_frame_reject _ _)).
    reflexivity.
Qed.

Lemma services_run_quiet events : forall a,
  Quiet a -> forallb not_call events = true -> services (run a events) = services a.
Proof.
  induction events as [|e r IH]; intros a Q N; simpl in *; auto.
  apply andb_true_iff in N. destruct N as [N1 N2].
  pose proof (services_step_quiet a e Q N1) as E.
  rewrite IH; auto. unfold Quiet. rewrite E. exact Q.
Qed.

(** An event either leaves [resolved] alone or records the value of one
    service that was starting. *)
Lemma resolved_step a e :
  Inv a ->
  resolved (step a e) = resolved a \/
  exists name service,
    In name (JsObject.keys (starting a)) /\
    resolved (step a e) = JsObject.set name service (resolved a) /\
    teardown (step a e) =
    JsObject.set name
      (match shutdown_member service with Some f => f | None => TeardownReturns end)
      (teardown a).
Proof.
  intros I. destruct e as [|c| |name value|name stack|name]; simpl.
  - left. unfold execute. destruct (executed a); auto.
    destruct (checkConstraints a); auto. simpl. rewrite resolved_nextRound. reflexivity.
  - left. destruct (call c a) eqn:C; auto.
    apply call_frame in C. destruct C as (_ & _ & C & _). exact C.
  - destruct (jobs a) as [|[name value] rest] eqn:J; auto. right.
    destruct (Inv_drop_job a name value rest I J) as (_ & S & _).
    exists name, (match value with Some s => s | None => emptyObject end).
    split; [exact S|]. unfold register_then, nextRound.
    destruct (round _ 0 0 _) as [[a' k]|] eqn:R; [|split; reflexivity].
    rewrite resolved_round_end, teardown_round_end.
    destruct (round_frame_round _ _ _ _ _ _ R) as (-> & _ & -> & _). split; reflexivity.
  - destruct (mem name (deferred a)) eqn:M; auto. right.
    apply mem_true_iff in M.
    destruct (Inv_drop_deferred a name I M) as (_ & S & _).
    exists name, (match value with Some s => s | None => emptyObject end).
    split; [exact S|]. unfold register_then, nextRound.
    destruct (round _ 0 0 _) as [[a' k]|] eqn:R; [|split; reflexivity].
    rewrite resolved_round_end, teardown_round_end.
    destruct (round_frame_round _ _ _ _ _ _ R) as (-> & _ & -> & _). split; reflexivity.
  - left. destruct (mem name (deferred a)); auto.
    rewrite (promise_frame_resolved _ _ (promise_frame_catch _ _ _)). reflexivity.
  - left. destruct (_ && _); auto.
    unfold startupTimer. rewrite (promise_frame_resolved _ _ (promise_frame_reject _ _)).
    reflexivity.
Qed.

(* ------------------------------------------------------------------------- *)
(** ** Shutdown *)

(** The teardown actions are called in enumeration order of [teardown]; if
    none throws, all are called. *)
Lemma callTeardowns_order (td : JsObject.t Teardown) :
  (exists rest, JsObject.keys td = fst (callTeardowns td) ++ rest) /\
  (forall w, snd (callTeardowns td) = Ok w ->
             fst (callTeardowns td) = JsObject.keys td).
Proof.
  induction td as [|[name f] r [(rest & E) IH]]; simpl.
  - split; [exists []; reflexivity | reflexivity].
  - destruct f; simpl.
    + destruct (callTeardowns r) as [called res]; simpl in *. split.
      * exists rest. rewrite E. reflexivity.
      * intros w Hw. rewrite (IH w Hw). reflexivity.
    + destruct (callTeardowns r) as [called res]; simpl in *. split.
      * exists rest. rewrite E. reflexivity.
      * intros w Hw. destruct res as [w'|]; [|discriminate].
        rewrite (IH w' eq_refl). reflexivity.
    + split; [exists (JsObject.keys r); reflexivity | discriminate].
Qed.

Lemma shutdown_settled later : forall p,
  state p = Fulfilled -> state (shutdown_run p later) = Fulfilled.
Proof.
  induction later as [|e r IH]; intros p H; simpl; auto.
  apply IH. destruct e as [name|name error|]; simpl.
  - destruct (mem name (waiting p)); simpl; auto.
    destruct (remove string_dec name (waiting p)); auto. rewrite H. reflexivity.
  - destruct (mem name (waiting p)); simpl; auto. rewrite H. reflexivity.
  - rewrite H. reflexivity.
Qed.

(** Once every teardown promise is fulfilled, the shutdown is. *)
Lemma shutdown_fulfilled es : forall p,
  forallb is_fulfilled es = true ->
  (waiting p = [] -> state p = Fulfilled) ->
  state p = Pending \/ state p = Fulfilled ->
  (forall n, In n (waiting p) -> In (TeardownFulfilled n) es) ->
  state (shutdown_run p es) = Fulfilled.
Proof.
  induction es as [|e r IH]; intros p F W S C; simpl.
  - apply W. destruct (waiting p) as [|n w]; auto. destruct (C n). simpl. auto.
  - simpl in F. apply andb_true_iff in F. destruct F as [F1 F2].
    destruct e as [name|name error|]; try discriminate. simpl.
    destruct (mem name (waiting p)) eqn:M.
    + apply IH; simpl; auto.
      * intros E. rewrite E. destruct S as [->| ->]; reflexivity.
      * destruct (remove string_dec name (waiting p)); auto.
        destruct S as [->| ->]; simpl; auto.
      * intros n Hn. apply in_remove_string in Hn. destruct Hn as [Hn Ne].
        destruct (C n Hn) as [E|H]; auto. congruence.
    + apply IH; auto. intros n Hn. destruct (C n Hn) as [E|H]; auto.
      injection E as ->. apply mem_true_iff in Hn. congruence.
Qed.

Lemma scenario_D_services factoryA factoryB name service :
  JsObject.get name (services (new (scenario_D factoryA factoryB))) = Some service ->
  (name = "A" /\ service = inline None (Function [] factoryA)) \/
  (name = "B" /\ service = inline (Some (DepArray ["A"])) (Function [] factoryB)).
Proof.
  simpl. destruct (String.eqb name "A") eqn:EA.
  - apply String.eqb_eq in EA. intros [= <-]. auto.
  - destruct (String.eqb name "B") eqn:EB; [|discriminate].
    apply String.eqb_eq in EB. intros [= <-]. auto.
Qed.

Lemma scenario_D_quiet factoryA factoryB : Quiet (new (scenario_D factoryA factoryB)).
Proof.
  intros n s G. apply scenario_D_services in G.
  destruct G as [[_ ->]|[_ ->]]; reflexivity.
Qed.

(** In scenario D, [A] is recorded before [B]. *)
Lemma scenario_D_resolved factoryA factoryB events :
  forallb not_call events = true ->
  let a := run (new (scenario_D factoryA factoryB)) events in
  services a = services (new (scenario_D factoryA factoryB)) /\ Inv a /\
  (JsObject.keys (resolved a) = [] \/ JsObject.keys (resolved a) = ["A"] \/
   JsObject.keys (resolved a) = ["A"; "B"]).
Proof.
  intros N. rewrite <- (rev_involutive events) in *.
  induction (rev events) as [|e r IH]; simpl in *.
  - split; [reflexivity|]. split; [apply Inv_new|]. left. reflexivity.
  - unfold run in *. rewrite forallb_app in N. apply andb_true_iff in N.
    destruct N as [N1 N2]. simpl in N2. apply andb_true_iff in N2. destruct N2 as [N2 _].
    rewrite fold_left_app. simpl.
    destruct (IH N1) as (ES & I & K). clear IH.
    set (a := fold_left step (rev r) (new (scenario_D factoryA factoryB))) in *.
    assert (Q : Quiet a).
    { unfold Quiet. rewrite ES. apply scenario_D_quiet. }
    split; [rewrite (services_step_quiet a e Q N2); exact ES|].
    split; [apply Inv_step; exact I|].
    destruct (resolved_step a e I) as [->|(name & service & S & -> & _)]; auto.
    pose proof (declared_starting a I name S) as D.
    apply in_keys_get in D. destruct D as [s G]. pose proof G as G'.
    rewrite ES in G'. apply scenario_D_services in G'.
    pose proof (starting_resolved a I name S) as NR.
    destruct G' as [[-> ->]|[-> ->]].
    + destruct K as [K|[K|K]]; try (exfalso; apply NR; rewrite K; simpl; auto; fail).
      apply keys_nil in K. rewrite K. auto.
    + assert (RA : In "A" (JsObject.keys (resolved a))).
      { pose proof (starting_ready a I "B" _ S G "A" (or_introl eq_refl)) as RA.
        apply contains_true_iff in RA.
        destruct RA as [RA|RA]; [exact RA | vm_compute in RA; discriminate RA]. }
      destruct K as [K|[K|K]].
      * rewrite K in RA. destruct RA.
      * right; right. destruct (resolved a) as [|[k x] [|]]; try discriminate.
        injection K as ->. reflexivity.
      * exfalso. apply NR. rewrite K. simpl. auto.
Qed.

(** C5, as amended.  In scenario D the run can only succeed with [A]
    recorded before [B], so after a successful start [shutdown] calls the
    teardown action of [A] before that of [B] (never the other way round,
    also when an action throws and ends the loop), and unless an action
    throws its promise is fulfilled as soon as every teardown promise is
    fulfilled, if the shutdown timer has not fired before. *)
Theorem shutdown_order factoryA factoryB events :
  forallb not_call events = true ->
  let a := run (new (scenario_D factoryA factoryB)) events in
  promise a = Some Fulfilled ->
  JsObject.keys (teardown a) = ["A"; "B"] /\
  (exists rest, ["A"; "B"] = fst (shutdown a) ++ rest) /\
  (forall p, snd (shutdown a) = Ok p ->
     fst (shutdown a) = ["A"; "B"] /\
     forall es later,
       forallb is_fulfilled es = true ->
       (forall n, In n (waiting p) -> In (TeardownFulfilled n) es) ->
       state (shutdown_run p (es ++ later)) = Fulfilled).
Proof.
  intros N a F.
  destruct (scenario_D_resolved factoryA factoryB events N) as (ES & I & K).
  fold a in ES, I, K.
  pose proof (fulfilled_started a I F) as S.
  destruct (started_done a I S) as [Aw St].
  assert (KT : JsObject.keys (teardown a) = ["A"; "B"]).
  { rewrite (teardown_resolved a I).
    assert (HB : In "B" (JsObject.keys (resolved a))).
    { destruct (declared_somewhere a I "B") as [H|[H|[H|H]]]; auto.
      - rewrite ES. simpl. auto.
      - destruct (ignored_flagged a I "B" H) as (s & G & Fl).
        rewrite ES in G. apply scenario_D_services in G.
        destruct G as [[? ->]|[_ ->]]; discriminate.
      - rewrite Aw in H. destruct H.
      - rewrite St in H. destruct H. }
    destruct K as [K|[K|K]]; auto; rewrite K in HB; simpl in HB;
      intuition discriminate. }
  unfold shutdown. rewrite S. simpl.
  destruct (callTeardowns_order (teardown a)) as [(rest & E) C].
  destruct (callTeardowns (teardown a)) as [called res]. simpl in *.
  split; [exact KT|]. split; [exists rest; rewrite <- KT; exact E|].
  intros p Hp. destruct res as [w|]; [|discriminate]. injection Hp as <-.
  split; [rewrite (C w eq_refl); exact KT|].
  intros es later Fe Cover. unfold shutdown_run. rewrite fold_left_app.
  apply shutdown_settled. apply shutdown_fulfilled; simpl; auto.
  - intros ->. reflexivity.
  - destruct w; auto.
Qed.

(** The test 'should gracefuly shutdown services' with the names of the
    scenario: both factories return an object with a [shutdown] function,
    that of [B] returning a promise. *)
Lemma shutdown_order_witness :
  let a := run (new (scenario_D (Returns (stoppable "moduleA" TeardownReturns))
                                (Returns (stoppable "moduleB" TeardownPending))))
               [Execute; Job; Job] in
  fst (shutdown a) = ["A"; "B"] /\
  exists p, snd (shutdown a) = Ok p /\
            state (shutdown_run p [TeardownFulfilled "B"; ShutdownTimer]) = Fulfilled.
Proof.
  pose proof (shutdown_order (Returns (stoppable "moduleA" TeardownReturns))
                (Returns (stoppable "moduleB" TeardownPending))
                [Execute; Job; Job] eq_refl eq_refl) as (_ & _ & H).
  destruct (H {| waiting := ["B"]; state := Pending |} eq_refl) as [H1 H2].
  split; [exact H1|].
  exists {| waiting := ["B"]; state := Pending |}. split; [reflexivity|].
  apply (H2 [TeardownFulfilled "B"] [ShutdownTimer]).
  - reflexivity.
  - intros n [<-|[]]. simpl. auto.
Defined.

(** C5 as stated fails: in the scenario, with factories that return at once,
    [shutdown] calls the teardown action of [A] first and that of [B]
    second. *)
Lemma shutdown_order_counterexample :
  let a := run (new (scenario_D (Returns (stoppable "moduleA" TeardownReturns))
                                (Returns (stoppable "moduleB" TeardownReturns))))
               [Execute; Job; Job] in
  promise a = Some Fulfilled /\
  fst (shutdown a) = ["A"; "B"] /\
  indexOf "A" (fst (shutdown a)) = Some 0 /\
  indexOf "B" (fst (shutdown a)) = Some 1 /\
  snd (shutdown a) = Ok {| waiting := []; state := Fulfilled |}.
Proof. vm_compute. repeat split. Qed.

(* ------------------------------------------------------------------------- *)
(** ** Runs of sound configurations *)

Lemma get_in_entries (V : Type) (o : JsObject.t V) k v :
  JsObject.get k o = Some v -> In (k, v) o.
Proof.
  induction o as [|[k' v'] r IH]; simpl; [discriminate|].
  destruct (String.eqb k k') eqn:E.
  - apply String.eqb_eq in E. intros [= ->]. subst. auto.
  - auto.
Qed.

Lemma sound_spec D n s :
  sound D = true -> JsObject.get n D = Some s -> ignore s = false ->
  succeeds s = true /\
  forall d, In d (getDependencyNames s) ->
            JsObject.inherited d = false /\
            exists sd, JsObject.get d D = Some sd /\ ignore sd = false.
Proof.
  intros H G Ig. apply get_in_entries in G.
  unfold sound in H. rewrite forallb_forall in H. specialize (H _ G). simpl in H.
  rewrite Ig in H. simpl in H. apply andb_true_iff in H. destruct H as [H1 H2].
  split; auto. intros d Hd. rewrite forallb_forall in H2. specialize (H2 d Hd).
  apply andb_true_iff in H2. destruct H2 as [H2 H3].
  split; [destruct (JsObject.inherited d); [discriminate | reflexivity]|].
  destruct (JsObject.get d D) as [sd|]; [|discriminate].
  exists sd. split; auto. destruct (ignore sd); [discriminate | reflexivity].
Qed.

Lemma ranked_spec rank D n s d :
  ranked rank D = true -> JsObject.get n D = Some s -> ignore s = false ->
  In d (getDependencyNames s) -> rank d < rank n.
Proof.
  intros H G Ig Hd. apply get_in_entries in G.
  unfold ranked in H. rewrite forallb_forall in H. specialize (H _ G). simpl in H.
  rewrite Ig in H. simpl in H. rewrite forallb_forall in H.
  apply Nat.ltb_lt. auto.
Qed.

Lemma forallb_false (A : Type) (f : A -> bool) (xs : list A) :
  forallb f xs = false -> exists z, In z xs /\ f z = false.
Proof.
  induction xs as [|z r IH]; simpl; [discriminate|].
  destruct (f z) eqn:E; simpl.
  - intros H. destruct (IH H) as (w & Hw & Fw). eauto.
  - eauto.
Qed.

Lemma snd_fold_checkDependency_eq name names : forall a r,
  snd (fold_left (checkDependency name) names (a, r)) =
  r && forallb (fun d => JsObject.contains d (resolved a)) names.
Proof.
  induction names as [|d rest IH]; intros a r; cbn [fold_left forallb].
  - simpl. rewrite andb_true_r. reflexivity.
  - pose proof (resolved_checkDependency name (a, r) d) as Er.
    assert (Es : snd (checkDependency name (a, r) d) = r && JsObject.contains d (resolved a))
      by reflexivity.
    destruct (checkDependency name (a, r) d) as [a1 r1]. simpl in Er, Es.
    rewrite IH, Es, Er, andb_assoc. reflexivity.
Qed.

(** A service that is not started in a round is blocked. *)
Lemma checkDependencies_blocked name service a :
  JsObject.get name (services a) = Some service ->
  snd (checkDependencies name service a) = false -> blocked a name.
Proof.
  intros G H. exists service.
  assert (F : forallb (fun d => JsObject.contains d (resolved a))
                (getDependencyNames service) = false).
  { revert H. unfold checkDependencies, getDependencyNames.
    destruct (dependencies service) as [[[|x r]|m]|]; try discriminate;
      rewrite snd_fold_checkDependency_eq; auto. }
  apply forallb_false in F. destruct F as (d & Hd & Fd).
  exists d. repeat split; auto. apply contains_false_iff in Fd. tauto.
Qed.

Lemma not_ignored_awaiting D a name service :
  Orderly D a -> In name (awaiting a) -> JsObject.get name D = Some service ->
  ignore service = false.
Proof.
  intros O H G. destruct (ignore service) eqn:Ig; auto. exfalso.
  apply (ignored_awaiting a (orderly_inv D a O) name); auto.
  eapply orderly_ignored; eauto.
Qed.

Lemma not_ignored_key D a d sd :
  Orderly D a -> JsObject.get d D = Some sd -> ignore sd = false ->
  JsObject.has d (ignored a) = false.
Proof.
  intros O G Ig. apply has_false_iff. intros H.
  destruct (ignored_flagged a (orderly_inv D a O) d H) as (s & G' & F).
  rewrite (orderly_services D a O) in G'. congruence.
Qed.

(** In a sound configuration an evaluation rejects nothing. *)
Lemma checkDependencies_sound D name service a :
  sound D = true -> Orderly D a -> In name (awaiting a) ->
  JsObject.get name D = Some service ->
  fst (checkDependencies name service a) = a.
Proof.
  intros Sd O H G.
  pose proof (not_ignored_awaiting D a name service O H G) as Ig.
  destruct (sound_spec D name service Sd G Ig) as [_ Refs].
  assert (Clean : forall d, In d (getDependencyNames service) ->
            JsObject.contains d (ignored a) = false /\
            JsObject.contains d (services a) = true).
  { intros d Hd. destruct (Refs d Hd) as (Nd & sd & Gd & Id). split.
    - apply contains_false_iff. split; [|exact Nd].
      apply has_false_iff. eapply not_ignored_key; eauto.
    - apply contains_true_iff. left. rewrite (orderly_services D a O).
      eapply get_in_keys; eauto. }
  revert Clean. unfold checkDependencies, getDependencyNames.
  destruct (dependencies service) as [[[|x r]|m]|]; auto; intros Clean;
    apply fold_checkDependency_clean; auto.
Qed.

(** In a sound configuration a service that is started ends in [starting]
    with its value on the way. *)
Lemma startService_sound D name service a :
  Orderly D a -> promise a = Some Pending -> In name (awaiting a) ->
  JsObject.get name D = Some service -> succeeds service = true ->
  eligible service a ->
  Orderly D (startService name service a) /\
  promise (startService name service a) = Some Pending /\
  In name (JsObject.keys (starting (startService name service a))).
Proof.
  intros O P H G Su Rd.
  pose proof (orderly_inv D a O) as I. pose proof (orderly_executed D a O) as E.
  pose proof (orderly_services D a O) as ES.
  destruct (Inv_startService name service a I H E) as [I' E']; auto.
  { rewrite ES. exact G. }
  assert (Shape : exists completion,
             (completion = ReturnsPending \/ exists v, completion = Returns v) /\
             startService name service a =
             afterCall name None completion
               (beforeCall name (obtainDepenedcies service a) a)).
  { unfold startService, obtainModule. unfold succeeds, factory_of in Su.
    destruct (module service) as [f|].
    - destruct f as [[|c body] [v| |stack]]; try discriminate;
        eexists; (split; [|reflexivity]); eauto.
    - destruct (requireDefault (path service)) as [[f|]|]; try discriminate.
      destruct f as [[|c body] [v| |stack]]; try discriminate;
        eexists; (split; [|reflexivity]); eauto. }
  destruct Shape as (completion & Hc & Eq).
  revert I' E'. rewrite Eq. intros I' E'.
  assert (Facts : services (afterCall name None completion
                              (beforeCall name (obtainDepenedcies service a) a)) = D /\
                  promise (afterCall name None completion
                              (beforeCall name (obtainDepenedcies service a) a)) = Some Pending).
  { destruct Hc as [->|[v ->]]; simpl; auto. }
  destruct Facts as [F1 F2].
  split; [|split; auto].
  - constructor; auto.
    + destruct Hc as [->|[v ->]]; simpl; eapply orderly_ignored; eauto.
    + pose proof (orderly_pending D a O) as Pe. unfold pending in *.
      destruct Hc as [->|[v ->]]; simpl; intros x Hx; apply in_keys_set in Hx.
      * apply in_app_iff. destruct Hx as [->|Hx]; [right; simpl; auto|].
        apply Pe, in_app_iff in Hx. simpl. tauto.
      * rewrite map_app. simpl. rewrite !in_app_iff. simpl.
        destruct Hx as [->|Hx]; [tauto|]. apply Pe, in_app_iff in Hx. tauto.
    + pose proof (orderly_resolved D a O) as Re. unfold eligible in *.
      destruct Hc as [->|[v ->]]; simpl; exact Re.
  - destruct Hc as [->|[v ->]]; simpl; apply in_keys_set; auto.
Qed.

Lemma skipn_none (xs : list string) i : nth_error xs i = None -> skipn i xs = [].
Proof. intros H. apply skipn_all2. apply nth_error_None. exact H. Qed.

(** A round of a sound configuration: it rejects nothing; if it starts
    nothing it changes nothing and every service it looked at is blocked; if
    it starts something, [starting] is not empty at its end. *)
Lemma round_sound D fuel : sound D = true -> forall i n a a' k,
  Orderly D a -> promise a = Some Pending -> round fuel i n a = Some (a', k) ->
  Orderly D a' /\ promise a' = Some Pending /\ resolved a' = resolved a /\ n <= k /\
  (k = n -> a' = a /\ forall x, In x (skipn i (awaiting a)) -> blocked a x) /\
  (n < k -> starting a' <> []).
Proof.
  intros Sd. induction fuel as [|fuel IH]; intros i n a a' k O P R; simpl in R;
    destruct (nth_error (awaiting a) i) as [name|] eqn:N; try discriminate.
  1,3: injection R as <- <-;
       (split; [exact O|]); (split; [exact P|]); (split; [reflexivity|]);
       (split; [lia|]);
       (split; [intros _; split; [reflexivity|];
                rewrite (skipn_none _ _ N); intros x [] | lia]).
  pose proof (orderly_services D a O) as ES.
  destruct (JsObject.get name (services a)) as [service|] eqn:G; [|discriminate].
  assert (H : In name (awaiting a)) by (eapply nth_error_In; eauto).
  assert (G' : JsObject.get name D = Some service) by (rewrite <- ES; exact G).
  pose proof (checkDependencies_sound D name service a Sd O H G') as C1.
  pose proof (checkDependencies_eligible name service a) as C2.
  pose proof (checkDependencies_blocked name service a G) as C3.
  destruct (checkDependencies name service a) as [a1 ok]. simpl in C1, C2, C3. subst a1.
  destruct ok.
  - pose proof (not_ignored_awaiting D a name service O H G') as Ig.
    destruct (sound_spec D name service Sd G' Ig) as [Su _].
    destruct (startService_sound D name service a O P H G' Su (C2 eq_refl))
      as (O2 & P2 & S2).
    destruct (IH _ _ _ _ _ O2 P2 R) as (O' & P' & Re & Le & Eqk & Ltk).
    split; [exact O'|]. split; [exact P'|]. split.
    { rewrite Re. apply (round_frame_startService name service a). }
    split; [lia|]. split; [intros ->; lia|].
    intros _. destruct (Nat.eq_dec k (S n)) as [->|Ne].
    + destruct (Eqk eq_refl) as [-> _]. intros F. rewrite F in S2. destruct S2.
    + apply Ltk. lia.
  - destruct (IH _ _ _ _ _ O P R) as (O' & P' & Re & Le & Eqk & Ltk).
    split; [exact O'|]. split; [exact P'|]. split; [exact Re|]. split; [exact Le|].
    split; [|exact Ltk].
    intros Ek. destruct (Eqk Ek) as [Ea Bl]. split; [exact Ea|].
    intros x Hx. rewrite (skipn_nth _ _ _ N) in Hx. destruct Hx as [<-|Hx].
    + apply C3. reflexivity.
    + apply Bl. exact Hx.
Qed.

Lemma promise_settle_shape s a :
  promise_settle s a = with_promise (promise (promise_settle s a)) a.
Proof.
  destruct (promise_settle_cases s a) as [->|[_ ->]].
  - symmetry. apply with_promise_id.
  - reflexivity.
Qed.

Lemma with_started_id a : with_started (started a) a = a.
Proof. destruct a; reflexivity. Qed.

Lemma round_end_fields k a :
  exists p st, round_end k a = with_promise p (with_started st a).
Proof.
  unfold round_end, promise_resolve, promise_reject.
  destruct (_ && _).
  - eexists. exists true. apply promise_settle_shape.
  - exists (promise (if Nat.eqb k 0
                     then if JsObject.is_empty (starting a)
                          then promise_settle (Rejected (CircularDependency (awaiting a))) a
                          else a
                     else a)), (started a).
    rewrite with_started_id.
    destruct (Nat.eqb k 0); [destruct (JsObject.is_empty _)|];
      try (symmetry; apply with_promise_id).
    apply promise_settle_shape.
Qed.

Lemma blocked_frame a a' n :
  services a' = services a -> resolved a' = resolved a -> blocked a n -> blocked a' n.
Proof. unfold blocked. intros -> ->. auto. Qed.

Lemma orderly_fields D a a' p st :
  Orderly D a -> Inv a' -> a' = with_promise p (with_started st a) -> Orderly D a'.
Proof.
  intros [] I ->. constructor; unfold eligible, pending in *; simpl; auto.
Qed.

(** A round of a sound configuration leaves the promise pending with a
    factory in flight, or succeeds, or fails with [CircularDependency]. *)
Lemma nextRound_sound D b :
  sound D = true -> Orderly D b -> promise b = Some Pending ->
  Orderly D (nextRound b) /\ outcome_sound (nextRound b) /\
  resolved (nextRound b) = resolved b.
Proof.
  intros Sd O P.
  pose proof (orderly_inv D b O) as I. pose proof (orderly_executed D b O) as E.
  destruct (nextRound_completes b I E) as (a' & k & R & ->).
  destruct (round_sound D _ Sd _ _ _ _ _ O P R) as (O' & P' & Re & _ & Eqk & Ltk).
  destruct (Inv_round _ _ _ _ _ _ I E R) as [I' E'].
  pose proof (Inv_round_end k a' I' E') as Ie.
  destruct (round_end_fields k a') as (p & st & Ef).
  split; [eapply orderly_fields; eauto|].
  split; [|rewrite resolved_round_end; exact Re].
  unfold outcome_sound, round_end in *.
  destruct (Nat.eqb (List.length (awaiting a')) 0 && JsObject.is_empty (starting a')) eqn:C1.
  { right; left. unfold promise_resolve, promise_settle. simpl. rewrite P'. reflexivity. }
  destruct (Nat.eqb k 0) eqn:C2.
  - apply Nat.eqb_eq in C2. subst k. destruct (Eqk eq_refl) as [-> Bl].
    destruct (JsObject.is_empty (starting b)) eqn:C3.
    + right; right. unfold promise_reject, promise_settle. rewrite P. simpl.
      apply is_empty_true in C3. rewrite andb_true_r in C1.
      split; [reflexivity|]. split; [|split; [exact C3 | exact Bl]].
      intros F. rewrite F in C1. discriminate.
    + left. split; auto. intros F. rewrite F in C3. discriminate.
  - left. split; auto. apply Ltk. apply Nat.eqb_neq in C2. lia.
Qed.

Lemma orderly_prepare config_services :
  Orderly (services (new config_services)) (prepare (new config_services)) /\
  promise (prepare (new config_services)) = Some Pending.
Proof.
  split; [|reflexivity]. constructor.
  - reflexivity.
  - apply Inv_prepare; [apply Inv_new | reflexivity].
  - reflexivity.
  - intros n s G Ig. unfold prepare, cleanAwaiting, fillIgnored. simpl.
    apply fillIgnored_keys. right. split; [eapply get_in_keys; eauto | eauto].
  - intros x [].
  - intros n s [].
Qed.

Lemma eligible_grows service a a' :
  incl (JsObject.keys (resolved a)) (JsObject.keys (resolved a')) ->
  eligible service a -> eligible service a'.
Proof.
  unfold eligible. intros Inc E d Hd. specialize (E d Hd).
  apply contains_true_iff in E. apply contains_true_iff.
  destruct E as [E|E]; auto.
Qed.

(** Recording the value of a factory in flight. *)
Lemma orderly_record D a a1 name value :
  Orderly D a -> Inv a1 ->
  In name (JsObject.keys (starting a)) -> ~ In name (pending a1) ->
  incl (pending a) (name :: pending a1) ->
  services a1 = services a -> ignored a1 = ignored a -> starting a1 = starting a ->
  resolved a1 = resolved a -> teardown a1 = teardown a -> timers a1 = timers a ->
  Orderly D (record name value a1).
Proof.
  intros O I1 S P Inc Es Ei Est Er Et Eti.
  pose proof (orderly_inv D a O) as I.
  assert (S1 : In name (JsObject.keys (starting a1))) by (rewrite Est; exact S).
  destruct (Inv_record name value a1 I1 S1 P) as [Ir Eex].
  constructor; auto.
  - simpl. rewrite Es. apply (orderly_services D a O).
  - simpl. rewrite Ei. apply (orderly_ignored D a O).
  - simpl. rewrite Est. intros x Hx.
    assert (Nx : x <> name).
    { intros ->. exact (not_in_keys_delete _ _ _ (nodup_starting a I) Hx). }
    apply in_keys_delete in Hx. apply (orderly_pending D a O), Inc in Hx.
    destruct Hx as [Hx|Hx]; [congruence | exact Hx].
  - intros n s Hn G. simpl in Hn. rewrite Er in Hn. apply in_keys_set in Hn.
    apply eligible_grows with (a := a).
    + simpl. rewrite Er. intros x Hx. apply in_keys_set. auto.
    + destruct Hn as [->|Hn].
      * apply (starting_ready a I name s S). rewrite (orderly_services D a O). exact G.
      * eapply orderly_resolved; eauto.
Qed.

Lemma outcome_sound_pending D a :
  Orderly D a -> outcome_sound a -> pending a <> [] -> promise a = Some Pending.
Proof.
  intros O [[P _]|[F|(_ & _ & St & _)]] Ne; auto; exfalso; apply Ne.
  - pose proof (orderly_inv D a O) as I.
    destruct (started_done a I (fulfilled_started a I F)) as [_ St].
    pose proof (pending_starting a I) as Pe. rewrite St in Pe.
    destruct (pending a) as [|x r]; auto. destruct (Pe x). simpl. auto.
  - pose proof (pending_starting a (orderly_inv D a O)) as Pe. rewrite St in Pe.
    destruct (pending a) as [|x r]; auto. destruct (Pe x). simpl. auto.
Qed.

(** A completion keeps a run of a sound configuration orderly. *)
Lemma step_sound D a e :
  sound D = true -> Orderly D a -> outcome_sound a -> completion e = true ->
  Orderly D (step a e) /\ outcome_sound (step a e).
Proof.
  intros Sd O Out C. pose proof (orderly_inv D a O) as I.
  destruct e as [|c| |name value|name stack|name]; try discriminate; simpl.
  - destruct (jobs a) as [|[name value] rest] eqn:J; auto.
    assert (P : promise a = Some Pending).
    { eapply outcome_sound_pending; eauto. unfold pending. rewrite J. discriminate. }
    destruct (Inv_drop_job a name value rest I J) as (I1 & S1 & P1).
    assert (O1 : Orderly D (record name value (with_jobs rest a))).
    { eapply orderly_record; eauto. unfold pending. rewrite J. simpl.
      intros x Hx. exact Hx. }
    destruct (nextRound_sound D _ Sd O1 P) as (On & Outn & _). auto.
  - destruct (mem name (deferred a)) eqn:M; auto. apply mem_true_iff in M.
    assert (P : promise a = Some Pending).
    { eapply outcome_sound_pending; eauto. unfold pending. intros F.
      apply app_eq_nil in F. destruct F as [_ F]. rewrite F in M. destruct M. }
    destruct (Inv_drop_deferred a name I M) as (I1 & S1 & P1).
    assert (O1 : Orderly D (record name value
                              (with_deferred (remove string_dec name (deferred a)) a))).
    { eapply orderly_record; eauto. unfold pending. simpl.
      intros x Hx. apply in_app_iff in Hx.
      destruct (string_dec x name) as [->|Ne]; [left; reflexivity|].
      right. apply in_app_iff. destruct Hx as [Hx|Hx]; auto.
      right. apply in_remove_string. auto. }
    destruct (nextRound_sound D _ Sd O1 P) as (On & Outn & _). auto.
Qed.

Lemma run_sound D events : forall a,
  sound D = true -> Orderly D a -> outcome_sound a ->
  forallb completion events = true ->
  Orderly D (run a events) /\ outcome_sound (run a events).
Proof.
  induction events as [|e r IH]; intros a Sd O Out C; simpl in *; auto.
  apply andb_true_iff in C. destruct C as [C1 C2].
  destruct (step_sound D a e Sd O Out C1) as [O' Out'].
  apply IH; auto.
Qed.

Lemma execute_sound config_services :
  checkConstraints (new config_services) = Ok tt ->
  sound (services (new config_services)) = true ->
  Orderly (services (new config_services)) (step (new config_services) Execute) /\
  outcome_sound (step (new config_services) Execute).
Proof.
  intros C Sd. cbn [step]. unfold execute.
  change (executed (new config_services)) with false. cbv iota. rewrite C.
  destruct (orderly_prepare config_services) as [O P].
  destruct (nextRound_sound _ _ Sd O P) as (On & Outn & _). auto.
Qed.

(** Every declared service that is not ignored is awaiting, starting or
    resolved, and no other name is. *)
Lemma orderly_resolved_all D a :
  Orderly D a -> awaiting a = [] -> starting a = [] ->
  NoDup (JsObject.keys (resolved a)) /\
  forall n, In n (JsObject.keys (resolved a)) <->
            exists s, JsObject.get n D = Some s /\ ignore s = false.
Proof.
  intros O Aw St. pose proof (orderly_inv D a O) as I.
  pose proof (orderly_services D a O) as ES.
  split; [apply (nodup_resolved a I)|]. intros n. split.
  - intros H. pose proof (declared_resolved a I n H) as Dn.
    apply in_keys_get in Dn. destruct Dn as [s G]. rewrite ES in G.
    exists s. split; auto. destruct (ignore s) eqn:Ig; auto. exfalso.
    apply (ignored_resolved a I n); auto. eapply orderly_ignored; eauto.
  - intros (s & G & Ig).
    destruct (declared_somewhere a I n) as [H|[H|[H|H]]]; auto.
    + rewrite ES. eapply get_in_keys; eauto.
    + destruct (ignored_flagged a I n H) as (s' & G' & F). rewrite ES in G'. congruence.
    + rewrite Aw in H. destruct H.
    + rewrite St in H. destruct H.
Qed.

Lemma starting_nil_of_pending D a : Orderly D a -> pending a = [] -> starting a = [].
Proof.
  intros O P. pose proof (orderly_pending D a O) as Inc. rewrite P in Inc.
  destruct (starting a) as [|[k v] r]; auto. destruct (Inc k). simpl. auto.
Qed.

Lemma min_rank (rank : string -> nat) (xs : list string) :
  xs <> [] -> exists m, In m xs /\ forall y, In y xs -> rank m <= rank y.
Proof.
  induction xs as [|z r IH]; [congruence|]. intros _.
  destruct r as [|z' r'].
  - exists z. split; [simpl; auto|]. intros y [<-|[]]. lia.
  - destruct IH as (m & Hm & Min); [discriminate|].
    destruct (le_lt_dec (rank z) (rank m)) as [L|L].
    + exists z. split; [simpl; auto|]. intros y [<-|Hy]; [lia|].
      specialize (Min y Hy). lia.
    + exists m. split; [right; exact Hm|]. intros y [<-|Hy]; [lia | auto].
Qed.

(** Without a cycle the third outcome does not occur. *)
Lemma acyclic_not_rejected D rank a :
  sound D = true -> ranked rank D = true -> Orderly D a -> outcome_sound a ->
  (promise a = Some Pending /\ starting a <> []) \/ promise a = Some Fulfilled.
Proof.
  intros Sd Rk O [H|[H|(P & Ne & St & Bl)]]; auto. exfalso.
  pose proof (orderly_inv D a O) as I. pose proof (orderly_services D a O) as ES.
  destruct (min_rank rank (awaiting a) Ne) as (m & Hm & Min).
  destruct (Bl m Hm) as (s & d & G & Hd & Nr). rewrite ES in G.
  pose proof (not_ignored_awaiting D a m s O Hm G) as Ig.
  pose proof (ranked_spec rank D m s d Rk G Ig Hd) as Lt.
  destruct (sound_spec D m s Sd G Ig) as [_ Refs].
  destruct (Refs d Hd) as (_ & sd & Gd & Id).
  destruct (declared_somewhere a I d) as [H|[H|[H|H]]].
  - rewrite ES. eapply get_in_keys; eauto.
  - destruct (ignored_flagged a I d H) as (s' & G' & F). rewrite ES in G'. congruence.
  - specialize (Min d H). lia.
  - rewrite St in H. destruct H.
  - contradiction.
Qed.

Lemma length_keys_set_new (V : Type) (o : JsObject.t V) k v :
  ~ In k (JsObject.keys o) ->
  List.length (JsObject.keys (JsObject.set k v o)) = S (List.length (JsObject.keys o)).
Proof.
  intros N. destruct (keys_set V o k v) as [[H _]|[_ (l1 & l2 & E1 & E2)]]; [tauto|].
  rewrite E2, E1, !length_app. simpl. lia.
Qed.

(** A completion that can happen adds one entry to [resolved]. *)
Lemma resolved_completion a :
  Inv a -> pending a <> [] ->
  exists e, completion e = true /\
            List.length (JsObject.keys (resolved (step a e))) =
            S (List.length (JsObject.keys (resolved a))).
Proof.
  intros I Ne.
  assert (Grow : forall e name service,
            In name (JsObject.keys (starting a)) ->
            resolved (step a e) = JsObject.set name service (resolved a) ->
            List.length (JsObject.keys (resolved (step a e))) =
            S (List.length (JsObject.keys (resolved a)))).
  { intros e name service S E. rewrite E. apply length_keys_set_new.
    apply (starting_resolved a I name S). }
  unfold pending in Ne. destruct (jobs a) as [|[name value] rest] eqn:J.
  - destruct (deferred a) as [|d ds] eqn:Df; [contradiction|].
    exists (Fulfil d None). split; [reflexivity|].
    destruct (resolved_step a (Fulfil d None) I) as [E|(name & service & S & E & _)];
      [|eapply Grow; eauto].
    exfalso. revert E. simpl. rewrite Df. simpl.
    destruct (string_dec d d) as [_|F]; [|contradiction].
    rewrite String.eqb_refl. simpl. unfold register_then. rewrite resolved_nextRound.
    simpl. intros E.
    assert (Hd : In d (JsObject.keys (starting a))).
    { apply (pending_starting a I). unfold pending. rewrite Df.
      apply in_app_iff. simpl. auto. }
    pose proof (length_keys_set_new _ (resolved a) d emptyObject
                  (starting_resolved a I d Hd)) as L.
    rewrite E in L. lia.
  - exists Job. split; [reflexivity|].
    destruct (resolved_step a Job I) as [E|(name' & service & S & E & _)];
      [|eapply Grow; eauto].
    exfalso. revert E. simpl. rewrite J. unfold register_then.
    rewrite resolved_nextRound. simpl. intros E.
    destruct (Inv_drop_job a name value rest I J) as (_ & Hn & _).
    pose proof (length_keys_set_new _ (resolved a) name
                  (match value with Some s => s | None => emptyObject end)
                  (starting_resolved a I name Hn)) as L.
    rewrite E in L. lia.
Qed.

(** From every state of a run of a sound configuration, completing the
    factories in flight settles the promise. *)
Lemma sound_settles D budget : forall a,
  sound D = true -> Orderly D a -> outcome_sound a ->
  List.length (JsObject.keys D) <= List.length (JsObject.keys (resolved a)) + budget ->
  exists more, forallb completion more = true /\
               Orderly D (run a more) /\ outcome_sound (run a more) /\
               promise (run a more) <> Some Pending.
Proof.
  induction budget as [|budget IH]; intros a Sd O Out B;
    (destruct (promise a) as [[| |message]|] eqn:P;
      [|exists []; simpl; (split; [reflexivity|]); (split; [exact O|]);
        (split; [exact Out|]); rewrite P; discriminate ..]);
    (assert (Ne : starting a <> [])
       by (destruct Out as [[_ Ne]|[F|[F _]]]; auto; congruence));
    pose proof (orderly_inv D a O) as I;
    (assert (Np : pending a <> [])
       by (intros E; apply Ne; eapply starting_nil_of_pending; eauto));
    destruct (resolved_completion a I Np) as (e & C & L);
    destruct (step_sound D a e Sd O Out C) as [O' Out'].
  - exfalso. pose proof (orderly_inv D _ O') as I'.
    pose proof (NoDup_incl_length (nodup_resolved _ I') (declared_resolved _ I')) as Le.
    rewrite (orderly_services D _ O') in Le. lia.
  - destruct (IH (step a e) Sd O' Out') as (more & Cm & Fm); [lia|].
    exists (e :: more). split; [simpl; rewrite C; exact Cm | exact Fm].
Qed.

(* ------------------------------------------------------------------------- *)
(** ** Acyclic graphs start completely *)

(** C1, as amended.  Take a configuration without reserved names in which
    every service that is not ignored has a factory that loads, makes no
    registry call and hands back a value or a promise, and names only
    dependencies that are declared, not ignored and not named like a member
    of [Object.prototype]; let the dependencies
    decrease along some rank (no cycle); and let every factory call be
    completed by a value before its timer fires.  Then the run is never
    rejected; it is fulfilled as soon as no factory is in flight, and
    [resolved] then has exactly one entry per declared service that is not
    ignored; at every moment each service in [starting] or [resolved] has
    all its dependencies in [resolved]; and completing the factories in
    flight always leads to the success. *)
Theorem execute_acyclic config_services rank events :
  checkConstraints (new config_services) = Ok tt ->
  sound (services (new config_services)) = true ->
  ranked rank (services (new config_services)) = true ->
  forallb completion events = true ->
  let a := run (new config_services) (Execute :: events) in
  (promise a = Some Pending \/ promise a = Some Fulfilled) /\
  (pending a = [] ->
     promise a = Some Fulfilled /\
     NoDup (JsObject.keys (resolved a)) /\
     forall n, In n (JsObject.keys (resolved a)) <->
               exists s, JsObject.get n (services (new config_services)) = Some s /\
                         ignore s = false) /\
  (forall n s, In n (JsObject.keys (starting a)) \/ In n (JsObject.keys (resolved a)) ->
               JsObject.get n (services (new config_services)) = Some s -> ready s a) /\
  (exists more, forallb completion more = true /\
                promise (run a more) = Some Fulfilled).
Proof.
  intros C Sd Rk Ev a.
  destruct (execute_sound config_services C Sd) as [O0 Out0].
  destruct (run_sound _ events _ Sd O0 Out0 Ev) as [O Out]. fold a in O, Out.
  change (run (step (new config_services) Execute) events) with a in O, Out.
  pose proof (orderly_inv _ a O) as I.
  pose proof (acyclic_not_rejected _ rank a Sd Rk O Out) as Acy.
  split; [|split; [|split]].
  - destruct Acy as [[P _]|F]; auto.
  - intros Pe. pose proof (starting_nil_of_pending _ a O Pe) as St.
    destruct Acy as [[_ Ne]|F]; [contradiction|].
    split; [exact F|].
    destruct (started_done a I (fulfilled_started a I F)) as [Aw _].
    apply orderly_resolved_all; auto.
  - intros n s Hn G.
    assert (Ig : ignore s = false).
    { destruct (ignore s) eqn:Ig; auto. exfalso.
      pose proof (orderly_ignored _ a O n s G Ig) as Hi.
      destruct Hn as [H|H];
        [exact (ignored_starting a I n Hi H) | exact (ignored_resolved a I n Hi H)]. }
    destruct (sound_spec _ n s Sd G Ig) as [_ Refs].
    apply eligible_ready; [intros d Hd; apply (Refs d Hd)|].
    destruct Hn as [H|H].
    + apply (starting_ready a I n s H). rewrite (orderly_services _ a O). exact G.
    + eapply orderly_resolved; eauto.
  - destruct (sound_settles (services (new config_services))
                (List.length (JsObject.keys (services (new config_services))))
                a Sd O Out) as (more & Cm & Om & Outm & Pm); [lia|].
    exists more. split; [exact Cm|].
    destruct (acyclic_not_rejected _ rank _ Sd Rk Om Outm) as [[P _]|F]; tauto.
Qed.

(** 'should properly resolve async dependencies', the promises being
    fulfilled in the order of the test: A cannot start before B and C. *)
Lemma execute_acyclic_witness :
  let a := run (new async_config)
             [Execute; Job; Fulfil "serviceB" (module_value "moduleB");
              Fulfil "serviceC" (module_value "moduleC");
              Fulfil "serviceA" (module_value "moduleA")] in
  promise a = Some Fulfilled /\
  NoDup (JsObject.keys (resolved a)) /\
  forall n, In n (JsObject.keys (resolved a)) <->
            exists s, JsObject.get n (services (new async_config)) = Some s /\
                      ignore s = false.
Proof.
  intros a.
  assert (C : checkConstraints (new async_config) = Ok tt)
    by (vm_compute; reflexivity).
  assert (Sd : sound (services (new async_config)) = true)
    by (vm_compute; reflexivity).
  assert (Rk : ranked async_rank (services (new async_config)) = true)
    by (vm_compute; reflexivity).
  assert (P : pending a = []) by (vm_compute; reflexivity).
  exact (proj1 (proj2 (execute_acyclic async_config async_rank
           [Job; Fulfil "serviceB" (module_value "moduleB");
            Fulfil "serviceC" (module_value "moduleC");
            Fulfil "serviceA" (module_value "moduleA")] C Sd Rk eq_refl)) P).
Defined.

(** C1 as stated fails: the graph of [require_config] has one service and
    no edge, and [execute] is rejected with the reserved-name error; the
    graph of [unloadable_config] has one service and no edge, and the run is
    rejected because the service cannot be loaded. *)
Lemma execute_acyclic_counterexample :
  snd (execute (new require_config)) = ExecuteRejected (ReservedName "require") /\
  promise (run (new unloadable_config) [Execute]) =
  Some (Rejected (ModuleLoadError "serviceA"
                    "Error: Cannot find module 'path/not/exists'")).
Proof. split; vm_compute; reflexivity. Qed.

(* ------------------------------------------------------------------------- *)
(** ** Deadlocked rounds *)

Lemma cyclic_spec cycle D m :
  cyclic cycle D = true -> In m cycle ->
  exists s d, JsObject.get m D = Some s /\ ignore s = false /\
              In d (getDependencyNames s) /\ In d cycle.
Proof.
  unfold cyclic. intros H Hm. apply andb_true_iff in H. destruct H as [_ H].
  rewrite forallb_forall in H. specialize (H m Hm).
  destruct (JsObject.get m D) as [s|]; [|discriminate].
  apply andb_true_iff in H. destruct H as [Ig Ex].
  apply existsb_exists in Ex. destruct Ex as (d & Hd & Md).
  apply mem_true_iff in Md. apply negb_true_iff in Ig. eauto 6.
Qed.

(** While no service of a cycle has an entry in [resolved], none of them
    has left [awaiting]. *)
Lemma cycle_awaiting D cycle a :
  sound D = true -> cyclic cycle D = true -> Orderly D a ->
  (forall m, In m cycle -> ~ In m (JsObject.keys (resolved a))) ->
  (forall m, In m cycle -> ~ In m (JsObject.keys (starting a))) /\
  incl cycle (awaiting a).
Proof.
  intros Sd Cy O Un. pose proof (orderly_inv D a O) as I.
  pose proof (orderly_services D a O) as ES.
  assert (St : forall m, In m cycle -> ~ In m (JsObject.keys (starting a))).
  { intros m Hm H. destruct (cyclic_spec cycle D m Cy Hm) as (s & d & G & Ig & Hd & Hc).
    destruct (sound_spec D m s Sd G Ig) as [_ Refs].
    destruct (Refs d Hd) as [Nd _].
    rewrite <- ES in G. apply (Un d Hc).
    pose proof (starting_ready a I m s H G d Hd) as Rd.
    apply contains_true_iff in Rd. destruct Rd as [Rd|Rd]; [exact Rd | congruence]. }
  split; [exact St|]. intros m Hm.
  destruct (cyclic_spec cycle D m Cy Hm) as (s & d & G & Ig & _).
  destruct (declared_somewhere a I m) as [H|[H|[H|H]]]; auto.
  - rewrite ES. eapply get_in_keys; eauto.
  - destruct (ignored_flagged a I m H) as (s' & G' & F). rewrite ES in G'. congruence.
  - destruct (St m Hm H).
  - destruct (Un m Hm H).
Qed.

Lemma cycle_step D cycle a e :
  sound D = true -> cyclic cycle D = true -> Orderly D a ->
  (forall m, In m cycle -> ~ In m (JsObject.keys (resolved a))) ->
  forall m, In m cycle -> ~ In m (JsObject.keys (resolved (step a e))).
Proof.
  intros Sd Cy O Un m Hm. pose proof (orderly_inv D a O) as I.
  destruct (cycle_awaiting D cycle a Sd Cy O Un) as [St _].
  destruct (resolved_step a e I) as [->|(name & service & Hn & -> & _)]; auto.
  intros H. apply in_keys_set in H. destruct H as [->|H].
  - exact (St name Hm Hn).
  - exact (Un m Hm H).
Qed.

Lemma cycle_run D cycle events : forall a,
  sound D = true -> cyclic cycle D = true -> Orderly D a -> outcome_sound a ->
  forallb completion events = true ->
  (forall m, In m cycle -> ~ In m (JsObject.keys (resolved a))) ->
  forall m, In m cycle -> ~ In m (JsObject.keys (resolved (run a events))).
Proof.
  induction events as [|e r IH]; intros a Sd Cy O Out C Un; simpl in *; auto.
  apply andb_true_iff in C. destruct C as [C1 C2].
  destruct (step_sound D a e Sd O Out C1) as [O' Out'].
  apply IH; auto. apply (cycle_step D cycle a e Sd Cy O Un).
Qed.

(** The promise of a run with a cycle is pending while a factory is in
    flight, and rejected with the names left in [awaiting] afterwards. *)
Lemma cyclic_not_fulfilled D cycle a :
  sound D = true -> cyclic cycle D = true -> Orderly D a -> outcome_sound a ->
  (forall m, In m cycle -> ~ In m (JsObject.keys (resolved a))) ->
  (promise a = Some Pending /\ starting a <> []) \/
  (promise a = Some (Rejected (CircularDependency (awaiting a))) /\ starting a = []).
Proof.
  intros Sd Cy O Out Un. pose proof (orderly_inv D a O) as I.
  destruct Out as [H|[F|(P & _ & St & _)]]; auto. exfalso.
  destruct (started_done a I (fulfilled_started a I F)) as [Aw _].
  destruct (cycle_awaiting D cycle a Sd Cy O Un) as [_ Inc].
  unfold cyclic in Cy. apply andb_true_iff in Cy. destruct Cy as [Ne _].
  destruct cycle as [|m r]; [discriminate|].
  specialize (Inc m (or_introl eq_refl)). rewrite Aw in Inc. destruct Inc.
Qed.

(** C2, as amended.  (i) After [execute], when a round has started nothing
    while [starting] is empty and [awaiting] is not, the round rejects the
    promise of the run with the circular-dependency error that lists
    [awaiting]; this is the outcome of the run when the promise was still
    pending, and is dropped when the promise had been settled before.
    (ii) In a configuration without reserved names in which the services
    that are not ignored have factories that succeed and name only declared,
    not ignored dependencies, none named like a member of
    [Object.prototype], and whose factory calls are completed by a
    value, the services of a dependency cycle never leave [awaiting], the run
    never succeeds, it is rejected with the circular-dependency error listing
    [awaiting] as soon as no factory is in flight, and completing the
    factories in flight always leads there. *)
Theorem circular_dependency :
  (forall a, Reached a -> executed a = true ->
     exists a' k,
       round (round_fuel a) 0 0 a = Some (a', k) /\
       (k = 0 -> starting a' = [] -> awaiting a' <> [] ->
        nextRound a = promise_reject (CircularDependency (awaiting a')) a' /\
        awaiting (nextRound a) = awaiting a' /\
        (promise a' = Some Pending ->
         promise (nextRound a) = Some (Rejected (CircularDependency (awaiting a')))) /\
        (promise a' <> Some Pending -> nextRound a = a'))) /\
  (forall config_services cycle events,
     checkConstraints (new config_services) = Ok tt ->
     sound (services (new config_services)) = true ->
     cyclic cycle (services (new config_services)) = true ->
     forallb completion events = true ->
     let a := run (new config_services) (Execute :: events) in
     incl cycle (awaiting a) /\
     promise a <> Some Fulfilled /\
     (pending a = [] ->
      promise a = Some (Rejected (CircularDependency (awaiting a)))) /\
     (exists more,
        forallb completion more = true /\
        incl cycle (awaiting (run a more)) /\
        promise (run a more) =
        Some (Rejected (CircularDependency (awaiting (run a more)))))).
Proof.
  split.
  - intros a R E. pose proof (Reached_Inv a R) as I.
    destruct (nextRound_completes a I E) as (a' & k & Rd & En).
    exists a', k. split; [exact Rd|]. intros -> St Aw. rewrite En.
    unfold round_end. rewrite St. simpl JsObject.is_empty. rewrite andb_true_r.
    destruct (awaiting a') as [|x r] eqn:A; [congruence|]. simpl.
    unfold promise_reject, promise_settle.
    split; [reflexivity|].
    destruct (promise a') as [[| |message]|]; simpl;
      (split; [exact A|]); split; congruence.
  - intros config_services cycle events C Sd Cy Ev a.
    destruct (execute_sound config_services C Sd) as [O0 Out0].
    assert (Un0 : forall m, In m cycle ->
              ~ In m (JsObject.keys (resolved (step (new config_services) Execute)))).
    { intros m _. destruct (resolved_step (new config_services) Execute
                              (Inv_new config_services))
        as [->|(name & _ & [] & _)]. simpl. auto. }
    destruct (run_sound _ events _ Sd O0 Out0 Ev) as [O Out].
    pose proof (cycle_run _ cycle events _ Sd Cy O0 Out0 Ev Un0) as Un.
    change (run (step (new config_services) Execute) events) with a in O, Out, Un.
    destruct (cycle_awaiting _ cycle a Sd Cy O Un) as [_ Inc].
    pose proof (cyclic_not_fulfilled _ cycle a Sd Cy O Out Un) as Nf.
    split; [exact Inc|]. split; [|split].
    + destruct Nf as [[P _]|[P _]]; rewrite P; discriminate.
    + intros Pe. pose proof (starting_nil_of_pending _ a O Pe) as St.
      destruct Nf as [[_ Ne]|[P _]]; [contradiction | exact P].
    + destruct (sound_settles (services (new config_services))
                  (List.length (JsObject.keys (services (new config_services))))
                  a Sd O Out) as (more & Cm & Om & Outm & Pm); [lia|].
      exists more. split; [exact Cm|].
      pose proof (cycle_run _ cycle more a Sd Cy O Out Cm Un) as Unm.
      split; [apply (cycle_awaiting _ cycle _ Sd Cy Om Unm)|].
      destruct (cyclic_not_fulfilled _ cycle _ Sd Cy Om Outm Unm) as [[P _]|[P _]];
        [contradiction | exact P].
Qed.

(** 'should detect circular dependencies' *)
Lemma circular_dependency_witness :
  promise (run (new circular_config) [Execute]) =
  Some (Rejected (CircularDependency ["serviceA"; "serviceB"; "serviceC"])).
Proof.
  destruct (proj2 circular_dependency circular_config
              ["serviceC"; "serviceB"; "serviceA"] []
              eq_refl eq_refl eq_refl eq_refl) as (_ & _ & H & _).
  exact (H eq_refl).
Defined.

(** C2 as stated fails.  In 'should throw an error if dependency was not
    found' the only round starts nothing, [starting] is empty and [awaiting]
    is not, and the outcome is the unknown-dependency error; the same
    happens when two services wait for each other and one of them names an
    undeclared service. *)
Lemma circular_dependency_counterexample :
  (let a := prepare (new missing_config) in
   (exists a', round (round_fuel a) 0 0 a = Some (a', 0) /\
               starting a' = [] /\ awaiting a' = ["serviceA"]) /\
   promise (nextRound a) =
   Some (Rejected (UnknownDependency "serviceB" "serviceA"))) /\
  (cyclic ["serviceA"; "serviceB"] (services (new cycle_missing_config)) = true /\
   promise (run (new cycle_missing_config) [Execute]) =
   Some (Rejected (UnknownDependency "serviceC" "serviceB"))).
Proof.
  split; [split; [eexists; split; [reflexivity | split; reflexivity] | reflexivity]
         | split; reflexivity].
Qed.

(* ------------------------------------------------------------------------- *)
(** ** The [ignore] flag after [execute] *)

Section Flag.
Variable flagged_name : string.
Variable flag : bool.

Let F := flagged flagged_name flag.
Let G := reflag flagged_name flag.
Let fl := flag_at flagged_name flag.

Lemma keys_reflag o : JsObject.keys (G o) = JsObject.keys o.
Proof.
  unfold G, reflag, JsObject.keys. rewrite map_map. reflexivity.
Qed.

Lemma get_reflag k o : JsObject.get k (G o) = option_map (fl k) (JsObject.get k o).
Proof.
  induction o as [|[k' v] r IH]; simpl; auto.
  destruct (String.eqb k k') eqn:E; auto.
  apply String.eqb_eq in E. subst. reflexivity.
Qed.

Lemma has_reflag k o : JsObject.has k (G o) = JsObject.has k o.
Proof.
  unfold JsObject.has. rewrite get_reflag. destruct (JsObject.get k o); reflexivity.
Qed.

Lemma contains_reflag k o : JsObject.contains k (G o) = JsObject.contains k o.
Proof. unfold JsObject.contains. rewrite has_reflag. reflexivity. Qed.

Lemma replace_reflag k v o :
  JsObject.replace k (fl k v) (G o) = G (JsObject.replace k v o).
Proof.
  induction o as [|[k' v'] r IH]; simpl; auto.
  destruct (String.eqb k k'); simpl; [reflexivity|]. rewrite IH. reflexivity.
Qed.

Lemma insert_index_reflag n k v o :
  JsObject.insert_index n k (fl k v) (G o) = G (JsObject.insert_index n k v o).
Proof.
  induction o as [|[k' v'] r IH]; simpl; auto.
  destruct (JsObject.array_index k') as [m|]; [|reflexivity].
  destruct (m <? n)%N; simpl; [|reflexivity]. rewrite IH. reflexivity.
Qed.

Lemma set_reflag k v o : JsObject.set k (fl k v) (G o) = G (JsObject.set k v o).
Proof.
  unfold JsObject.set. rewrite has_reflag. destruct (JsObject.has k o).
  - apply replace_reflag.
  - destruct (JsObject.array_index k); [apply insert_index_reflag|].
    unfold G, reflag. rewrite map_app. reflexivity.
Qed.

Lemma flag_at_other k v : k <> flagged_name -> fl k v = v.
Proof.
  intros N. unfold fl, flag_at. apply String.eqb_neq in N. rewrite N. reflexivity.
Qed.

Lemma dependencies_flag_at k s : dependencies (fl k s) = dependencies s.
Proof. unfold fl, flag_at. destruct (String.eqb _ _), s; reflexivity. Qed.

Lemma set_dependencies_flag_at d k s :
  set_dependencies d (fl k s) = fl k (set_dependencies d s).
Proof. unfold fl, flag_at. destruct (String.eqb _ _), s; reflexivity. Qed.

Lemma weight_of_reflag o n : weight_of (G o) n = weight_of o n.
Proof.
  unfold weight_of. rewrite get_reflag. destruct (JsObject.get n o) as [s|]; simpl; auto.
  unfold fl, flag_at. destruct (String.eqb _ _), s; reflexivity.
Qed.

Lemma promise_settle_flagged s a : promise_settle s (F a) = F (promise_settle s a).
Proof.
  unfold promise_settle. simpl. destruct (promise a) as [[| |m]|]; reflexivity.
Qed.

Lemma addService_flagged n spec a :
  In flagged_name (JsObject.keys (services a)) ->
  addService n spec (F a) =
  match addService n spec a with Ok a' => Ok (F a') | Throw m => Throw m end.
Proof.
  intros D. unfold addService. simpl. fold G. rewrite contains_reflag.
  destruct (JsObject.contains n (services a)) eqn:H; [reflexivity|].
  destruct (started a); [reflexivity|].
  assert (N : n <> flagged_name).
  { intros ->. apply contains_false_iff in H. tauto. }
  unfold F, flagged. simpl. fold G. rewrite <- set_reflag, (flag_at_other _ _ N).
  reflexivity.
Qed.

Lemma addDependency_flagged n dependency alias a :
  addDependency n dependency alias (F a) =
  match addDependency n dependency alias a with
  | Ok a' => Ok (F a')
  | Throw m => Throw m
  end.
Proof.
  unfold addDependency.
  change (isStarting n (F a)) with (isStarting n a).
  change (services (F a)) with (G (services a)).
  rewrite get_reflag.
  destruct (JsObject.get n (services a)) as [service|]; cbn [option_map].
  - rewrite dependencies_flag_at. destruct (isStarting n a); [reflexivity|].
    destruct (dependencies service) as [deps|]; [|reflexivity].
    unfold F, flagged; simpl; fold G.
    rewrite set_dependencies_flag_at, set_reflag; reflexivity.
  - destruct (negb _); [reflexivity|]. destruct (isStarting n a); reflexivity.
Qed.

Lemma call_flagged c a :
  In flagged_name (JsObject.keys (services a)) ->
  call c (F a) = match call c a with Ok a' => Ok (F a') | Throw m => Throw m end.
Proof.
  intros D. destruct c; simpl; [apply addService_flagged; auto|].
  apply addDependency_flagged.
Qed.

Lemma call_declared c a a' n :
  call c a = Ok a' -> In n (JsObject.keys (services a)) ->
  In n (JsObject.keys (services a')).
Proof.
  intros C H. destruct c as [name spec|name dependency alias]; simpl in C.
  - apply addService_Ok in C. destruct C as (_ & _ & ->). simpl.
    apply in_keys_set. auto.
  - apply addDependency_Ok in C. destruct C as (? & ? & ? & _ & _ & _ & ->). simpl.
    apply in_keys_set. auto.
Qed.

Lemma run_body_declared body n : forall a,
  In n (JsObject.keys (services a)) ->
  In n (JsObject.keys (services (fst (run_body body a)))).
Proof.
  induction body as [|c rest IH]; simpl; intros a H; auto.
  destruct (call c a) as [a1|m] eqn:C; simpl; auto.
  apply IH. eapply call_declared; eauto.
Qed.

Lemma run_body_flagged body : forall a,
  In flagged_name (JsObject.keys (services a)) ->
  run_body body (F a) = (F (fst (run_body body a)), snd (run_body body a)).
Proof.
  induction body as [|c rest IH]; simpl; intros a D; auto.
  rewrite call_flagged by auto.
  destruct (call c a) as [a1|m] eqn:C; simpl; auto.
  apply IH. eapply call_declared; eauto.
Qed.

Lemma promise_reject_flagged m a : promise_reject m (F a) = F (promise_reject m a).
Proof. apply promise_settle_flagged. Qed.

Lemma services_promise_reject m a : services (promise_reject m a) = services a.
Proof.
  unfold promise_reject, promise_settle. destruct (promise a) as [[| |m']|]; reflexivity.
Qed.

Lemma checkDependency_flagged n a r d :
  checkDependency n (F a, r) d =
  (F (fst (checkDependency n (a, r) d)), snd (checkDependency n (a, r) d)).
Proof.
  unfold checkDependency.
  change (resolved (F a)) with (resolved a).
  change (ignored (F a)) with (ignored a).
  destruct (JsObject.contains d (ignored a)); cbn [fst snd];
    rewrite ?promise_reject_flagged;
    match goal with
    | |- context [services (F ?b)] =>
        change (services (F b)) with (G (services b)); rewrite contains_reflag;
        destruct (JsObject.contains d (services b)); cbn [negb];
        rewrite ?promise_reject_flagged; reflexivity
    end.
Qed.

Lemma fold_checkDependency_flagged n names : forall a r,
  fold_left (checkDependency n) names (F a, r) =
  (F (fst (fold_left (checkDependency n) names (a, r))),
   snd (fold_left (checkDependency n) names (a, r))).
Proof.
  induction names as [|d rest IH]; intros a r; cbn [fold_left]; [reflexivity|].
  rewrite checkDependency_flagged.
  destruct (checkDependency n (a, r) d) as [a1 r1]. apply IH.
Qed.

Lemma checkDependencies_flagged n k service a :
  checkDependencies n (fl k service) (F a) =
  (F (fst (checkDependencies n service a)), snd (checkDependencies n service a)).
Proof.
  unfold checkDependencies, getDependencyNames. rewrite dependencies_flag_at.
  destruct (dependencies service) as [[[|d r]|m]|]; try reflexivity;
    apply fold_checkDependency_flagged.
Qed.

Lemma obtainModule_flagged n k service a :
  obtainModule n (fl k service) (F a) =
  (F (fst (obtainModule n service a)), snd (obtainModule n service a)).
Proof.
  assert (M : module (fl k service) = module service)
    by (unfold fl, flag_at; destruct (String.eqb _ _), service; reflexivity).
  assert (P : path (fl k service) = path service)
    by (unfold fl, flag_at; destruct (String.eqb _ _), service; reflexivity).
  unfold obtainModule. rewrite M, P. destruct (module service); [reflexivity|].
  destruct (requireDefault (path service)); [reflexivity|]. simpl.
  unfold promise_reject. rewrite promise_settle_flagged. reflexivity.
Qed.

Lemma obtainDepenedcies_flagged k service a :
  obtainDepenedcies (fl k service) (F a) = obtainDepenedcies service a.
Proof.
  unfold obtainDepenedcies. rewrite dependencies_flag_at. reflexivity.
Qed.

Lemma afterCall_flagged n thrown completion a :
  afterCall n thrown completion (F a) = F (afterCall n thrown completion a).
Proof.
  unfold afterCall, promise_reject.
  destruct thrown; [apply promise_settle_flagged|].
  destruct completion; try reflexivity. apply promise_settle_flagged.
Qed.

Lemma startService_flagged n k service a :
  In flagged_name (JsObject.keys (services a)) ->
  startService n (fl k service) (F a) = F (startService n service a).
Proof.
  intros D. unfold startService.
  rewrite obtainDepenedcies_flagged, obtainModule_flagged.
  pose proof (obtainModule_frame n service a) as PF.
  destruct (obtainModule n service a) as [a0 m]. simpl in *.
  destruct m as [[body completion]|]; [|reflexivity].
  change (beforeCall n (obtainDepenedcies service a) (F a0))
    with (F (beforeCall n (obtainDepenedcies service a) a0)).
  rewrite run_body_flagged
    by (simpl; rewrite (promise_frame_services _ _ PF); exact D).
  destruct (run_body body (beforeCall n (obtainDepenedcies service a) a0))
    as [a2 thrown]. simpl. apply afterCall_flagged.
Qed.

Lemma startService_declared n service a x :
  In x (JsObject.keys (services a)) ->
  In x (JsObject.keys (services (startService n service a))).
Proof.
  intros D. unfold startService.
  pose proof (obtainModule_frame n service a) as PF.
  destruct (obtainModule n service a) as [a0 m]. simpl in PF.
  rewrite <- (promise_frame_services _ _ PF) in D.
  destruct m as [[body completion]|]; [|exact D].
  pose proof (run_body_declared body x
                (beforeCall n (obtainDepenedcies service a) a0) D) as R.
  destruct (run_body body (beforeCall n (obtainDepenedcies service a) a0))
    as [a2 thrown]. simpl in R.
  unfold afterCall, promise_reject, promise_settle.
  destruct thrown; [destruct (promise a2) as [[| |m]|]; exact R|].
  destruct completion; try exact R. destruct (promise a2) as [[| |m]|]; exact R.
Qed.

Lemma round_flagged fuel : forall i k a,
  In flagged_name (JsObject.keys (services a)) ->
  round fuel i k (F a) =
  option_map (fun p => (F (fst p), snd p)) (round fuel i k a).
Proof.
  induction fuel as [|fuel IH]; intros i k a D; simpl;
    destruct (nth_error (awaiting a) i) as [n|]; try reflexivity.
  fold G. rewrite get_reflag.
  destruct (JsObject.get n (services a)) as [service|]; simpl; [|reflexivity].
  rewrite checkDependencies_flagged.
  pose proof (checkDependencies_frame n service a) as PF.
  destruct (checkDependencies n service a) as [a1 ok]. simpl in *.
  assert (D1 : In flagged_name (JsObject.keys (services a1)))
    by (rewrite (promise_frame_services _ _ PF); exact D).
  destruct ok; [|apply IH; exact D1].
  rewrite startService_flagged by exact D1.
  apply IH. apply startService_declared. exact D1.
Qed.

Lemma round_declared fuel x : forall i k a a' k',
  round fuel i k a = Some (a', k') ->
  In x (JsObject.keys (services a)) -> In x (JsObject.keys (services a')).
Proof.
  induction fuel as [|fuel IH]; intros i k a a' k' R D; simpl in R;
    destruct (nth_error (awaiting a) i) as [n|];
    try discriminate; try (injection R as <- _; exact D).
  destruct (JsObject.get n (services a)) as [service|]; [|discriminate].
  pose proof (checkDependencies_frame n service a) as PF.
  destruct (checkDependencies n service a) as [a1 ok]. simpl in PF.
  rewrite <- (promise_frame_services _ _ PF) in D.
  destruct ok; eapply IH; eauto using startService_declared.
Qed.

Lemma round_fuel_flagged a : round_fuel (F a) = round_fuel a.
Proof.
  unfold round_fuel, remaining_weight. simpl. fold G. f_equal.
  apply map_ext. intros n. apply weight_of_reflag.
Qed.

Lemma round_end_flagged k a : round_end k (F a) = F (round_end k a).
Proof.
  unfold round_end, promise_resolve, promise_reject. simpl.
  destruct (Nat.eqb (List.length (awaiting a)) 0 && JsObject.is_empty (starting a)).
  - apply (promise_settle_flagged Fulfilled (with_started true a)).
  - destruct (Nat.eqb k 0); [|reflexivity].
    destruct (JsObject.is_empty (starting a)); [|reflexivity].
    apply promise_settle_flagged.
Qed.

Lemma nextRound_flagged a :
  In flagged_name (JsObject.keys (services a)) ->
  nextRound (F a) = F (nextRound a).
Proof.
  intros D. unfold nextRound. rewrite round_fuel_flagged, round_flagged by exact D.
  destruct (round (round_fuel a) 0 0 a) as [[a' k]|]; simpl; [|reflexivity].
  apply round_end_flagged.
Qed.

Lemma nextRound_declared a x :
  In x (JsObject.keys (services a)) -> In x (JsObject.keys (services (nextRound a))).
Proof.
  intros D. unfold nextRound.
  destruct (round (round_fuel a) 0 0 a) as [[a' k]|] eqn:R; [|exact D].
  rewrite services_round_end. eapply round_declared; eauto.
Qed.

(** Once [execute] has been called, an event does the same whatever the
    flag of a declared service is. *)
Lemma step_flagged a e :
  executed a = true -> In flagged_name (JsObject.keys (services a)) ->
  step (F a) e = F (step a e).
Proof.
  intros E D. destruct e as [|c| |n value|n stack|n]; simpl.
  - unfold execute. simpl. rewrite E. reflexivity.
  - rewrite call_flagged by exact D. destruct (call c a); reflexivity.
  - destruct (jobs a) as [|[n value] rest]; [reflexivity|].
    unfold register_then. apply (nextRound_flagged (record n value (with_jobs rest a))).
    exact D.
  - destruct (mem n (deferred a)); [|reflexivity].
    unfold register_then.
    apply (nextRound_flagged
             (record n value (with_deferred (remove string_dec n (deferred a)) a))).
    exact D.
  - destruct (mem n (deferred a)); [|reflexivity].
    destruct stack as [stack|]; [|reflexivity].
    unfold register_catch, promise_reject.
    apply (promise_settle_flagged _
             (with_deferred (remove string_dec n (deferred a)) a)).
  - destruct (mem n (timers a) && is_nil (jobs a)); [|reflexivity].
    unfold startupTimer, promise_reject.
    apply (promise_settle_flagged _ (with_timers (remove string_dec n (timers a)) a)).
Qed.

End Flag.

Lemma executed_startService n service a :
  executed (startService n service a) = executed a.
Proof.
  unfold startService.
  pose proof (obtainModule_frame n service a) as PF.
  destruct (obtainModule n service a) as [a0 m]. simpl in PF.
  apply promise_frame_executed in PF.
  destruct m as [[body completion]|]; [|exact PF].
  pose proof (run_body_frame body (beforeCall n (obtainDepenedcies service a) a0)) as RF.
  destruct (run_body body (beforeCall n (obtainDepenedcies service a) a0))
    as [a2 thrown]. specialize (RF _ _ eq_refl).
  rewrite executed_afterCall.
  destruct RF as (_ & _ & _ & _ & _ & _ & E & _). rewrite E. exact PF.
Qed.

Lemma executed_round fuel : forall i k a a' k',
  round fuel i k a = Some (a', k') -> executed a' = executed a.
Proof.
  induction fuel as [|fuel IH]; intros i k a a' k' R; simpl in R;
    destruct (nth_error (awaiting a) i) as [n|];
    try discriminate; try (injection R as <- _; reflexivity).
  destruct (JsObject.get n (services a)) as [service|]; [|discriminate].
  pose proof (checkDependencies_frame n service a) as PF.
  destruct (checkDependencies n service a) as [a1 ok]. simpl in PF.
  apply promise_frame_executed in PF.
  destruct ok; apply IH in R; rewrite R, ?executed_startService; exact PF.
Qed.

Lemma executed_nextRound a : executed (nextRound a) = executed a.
Proof.
  unfold nextRound. destruct (round (round_fuel a) 0 0 a) as [[a' k]|] eqn:R; auto.
  rewrite executed_round_end. eapply executed_round; eauto.
Qed.

Lemma ignored_round_end k a : ignored (round_end k a) = ignored a.
Proof.
  unfold round_end, promise_resolve, promise_reject, promise_settle. simpl.
  destruct (_ && _); [destruct (promise a) as [[| |m]|]; reflexivity|].
  destruct (Nat.eqb k 0); auto. destruct (JsObject.is_empty _); auto.
  destruct (promise a) as [[| |m]|]; reflexivity.
Qed.

Lemma ignored_nextRound a : ignored (nextRound a) = ignored a.
Proof.
  unfold nextRound. destruct (round (round_fuel a) 0 0 a) as [[a' k]|] eqn:R; auto.
  rewrite ignored_round_end. apply round_frame_round in R. apply R.
Qed.

(** After [execute] an event leaves [ignored] as it is and forgets no
    declaration. *)
Lemma step_after_execute a e :
  executed a = true ->
  executed (step a e) = true /\ ignored (step a e) = ignored a /\ forall x, In x (JsObject.keys (services a)) ->
            In x (JsObject.keys (services (step a e))).
Proof.
  intros E. destruct e as [|c| |n value|n stack|n]; simpl.
  - unfold execute. rewrite E. simpl. auto.
  - destruct (call c a) as [a'|m] eqn:C; auto.
    destruct (call_frame _ _ _ C) as (Ig & _ & _ & _ & _ & _ & Ex & _).
    rewrite Ex, Ig. repeat split; auto. intros x. eapply call_declared; eauto.
  - destruct (jobs a) as [|[n value] rest]; auto. unfold register_then.
    rewrite executed_nextRound, ignored_nextRound. repeat split; auto.
    intros x H. apply nextRound_declared. exact H.
  - destruct (mem n (deferred a)); auto. unfold register_then.
    rewrite executed_nextRound, ignored_nextRound. repeat split; auto.
    intros x H. apply nextRound_declared. exact H.
  - destruct (mem n (deferred a)); auto.
    destruct stack as [stack|]; simpl; auto.
    unfold promise_reject, promise_settle. simpl.
    destruct (promise a) as [[| |m]|]; auto.
  - destruct (_ && _); auto.
    unfold startupTimer, promise_reject, promise_settle. simpl.
    destruct (promise a) as [[| |m]|]; auto.
Qed.

Lemma run_after_execute events : forall a,
  executed a = true ->
  executed (run a events) = true /\ ignored (run a events) = ignored a /\ forall x, In x (JsObject.keys (services a)) ->
            In x (JsObject.keys (services (run a events))).
Proof.
  induction events as [|e r IH]; intros a E; simpl; auto.
  destruct (step_after_execute a e E) as (E1 & I1 & D1).
  destruct (IH _ E1) as (E2 & I2 & D2). rewrite I2, I1. auto.
Qed.

Lemma run_flagged name flag events : forall a,
  executed a = true -> In name (JsObject.keys (services a)) ->
  run (flagged name flag a) events = flagged name flag (run a events).
Proof.
  induction events as [|e r IH]; intros a E D; simpl; auto.
  rewrite step_flagged by auto.
  destruct (step_after_execute a e E) as (E1 & _ & D1). apply IH; auto.
Qed.

Lemma reflag_absent name flag o :
  ~ In name (JsObject.keys o) -> reflag name flag o = o.
Proof.
  induction o as [|[k v] r IH]; simpl; intros N; auto.
  rewrite IH by tauto. unfold flag_at.
  destruct (String.eqb k name) eqn:E; [|reflexivity].
  apply String.eqb_eq in E. subst. tauto.
Qed.

(** C10.  Let [addService] register [name] after [execute] has been called
    (between two events, or from a factory).  The registration appends
    [name] to [awaiting], stores the declaration and leaves [ignored] alone,
    and with any other [ignore] flag it does the same, the stored flag
    apart.  From then on the flag stored for [name] is never read: the rest
    of a factory body, the rest of a round, a whole round and every sequence
    of events commute with replacing it.  [ignored] keeps the value that
    [execute] gave it, and the service is at every later moment in
    [awaiting], in [starting] or in [resolved]. *)
Theorem ignore_after_execute a name spec a1 :
  Reached a -> executed a = true -> addService name spec a = Ok a1 ->
  (ignored a1 = ignored a /\ awaiting a1 = awaiting a ++ [name] /\
   JsObject.get name (services a1) = Some spec /\
   ~ In name (JsObject.keys (ignored a1)) /\
   forall flag, addService name (set_ignore flag spec) a = Ok (flagged name flag a1)) /\
  (forall flag b,
     executed b = true -> In name (JsObject.keys (services b)) ->
     (forall body,
        run_body body (flagged name flag b) =
        (flagged name flag (fst (run_body body b)), snd (run_body body b))) /\
     (forall fuel i k,
        round fuel i k (flagged name flag b) =
        option_map (fun p => (flagged name flag (fst p), snd p)) (round fuel i k b)) /\
     nextRound (flagged name flag b) = flagged name flag (nextRound b) /\
     (forall events,
        run (flagged name flag b) events = flagged name flag (run b events))) /\
  (forall events,
     let c := run a1 events in
     ignored c = ignored a /\
     (In name (awaiting c) \/ In name (JsObject.keys (starting c)) \/
      In name (JsObject.keys (resolved c)))).
Proof.
  intros R E A. pose proof (Reached_Inv a R) as I.
  assert (Hc : JsObject.contains name (services a) = false).
  { unfold addService in A.
    destruct (JsObject.contains name (services a)); [discriminate | reflexivity]. }
  pose proof (addService_Ok _ _ _ _ A) as (H & St & ->).
  apply has_false_iff in H.
  assert (Ni : ~ In name (JsObject.keys (ignored a)))
    by (intros K; apply H, (declared_ignored a I name K)).
  assert (I1 : Inv (with_awaiting (awaiting a ++ [name])
                      (with_services (JsObject.set name spec (services a)) a)))
    by (eapply Inv_addService; eauto).
  split; [|split].
  - simpl. split; [reflexivity|]. split; [reflexivity|].
    split; [apply get_set_same|]. split; [exact Ni|].
    intros flag. unfold addService.
    rewrite Hc, St. unfold flagged. simpl.
    rewrite <- (set_reflag name flag name spec (services a)).
    rewrite (reflag_absent name flag _ H). unfold flag_at.
    rewrite String.eqb_refl. reflexivity.
  - intros flag b Eb Db. split; [|split; [|split]].
    + intros body. apply run_body_flagged. exact Db.
    + intros fuel i k. apply round_flagged. exact Db.
    + apply nextRound_flagged. exact Db.
    + intros events. apply run_flagged; auto.
  - intros events c.
    destruct (run_after_execute events
                (with_awaiting (awaiting a ++ [name])
                   (with_services (JsObject.set name spec (services a)) a)) E)
      as (_ & Ig & Dc). fold c in Ig, Dc.
    simpl in Ig. split; [exact Ig|].
    pose proof (Inv_run events _ I1) as Ic. fold c in Ic.
    destruct (declared_somewhere c Ic name) as [K|K]; auto.
    + apply Dc. simpl. apply in_keys_set. auto.
    + rewrite Ig in K. contradiction.
Qed.

(** An ignored service registered while 'should properly resolve async
    dependencies' waits for its promises. *)
Lemma ignore_after_execute_witness :
  let a := step (new async_config) Execute in
  let spec := set_ignore true (inline None (returning "moduleE")) in
  let a1 := step a (Call (CallAddService "serviceE" spec)) in
  addService "serviceE" spec a = Ok a1 /\
  ignored a1 = ignored a /\ awaiting a1 = awaiting a ++ ["serviceE"].
Proof.
  intros a spec a1. split; [reflexivity|].
  destruct (ignore_after_execute a "serviceE" spec a1
              (reached_step _ _ (reached_new _)) eq_refl eq_refl)
    as ((H1 & H2 & _) & _).
  split; [exact H1 | exact H2].
Defined.

(** A factory registers an ignored service: the service is started in the
    next round and is part of the result. *)
Lemma late_service_resolved :
  let a := run (new late_config) [Execute; Job; Job] in
  promise a = Some Fulfilled /\ ignored a = [] /\
  JsObject.keys (resolved a) = ["serviceA"; "serviceB"] /\
  option_map ignore (JsObject.get "serviceB" (services a)) = Some true.
Proof. repeat split. Qed.

(* ------------------------------------------------------------------------- *)
(** * Further properties *)

(** ** [values], [makeDictionary] and the dependencies [addDependency] files *)

Lemma in_replace_entries (V : Type) (o : JsObject.t V) k v e :
  In e (JsObject.replace k v o) -> e = (k, v) \/ In e o.
Proof.
  induction o as [|[k' v'] r IH]; simpl; [tauto|].
  destruct (String.eqb k k'); simpl; intuition.
Qed.

Lemma in_insert_index_entries (V : Type) (o : JsObject.t V) n k v e :
  In e (JsObject.insert_index n k v o) <-> e = (k, v) \/ In e o.
Proof.
  induction o as [|[k' v'] r IH]; simpl; [intuition|].
  destruct (JsObject.array_index k') as [m|]; [|simpl; intuition].
  destruct (m <? n)%N; simpl; intuition.
Qed.

Lemma in_set_entries (V : Type) (o : JsObject.t V) k v e :
  In e (JsObject.set k v o) -> e = (k, v) \/ In e o.
Proof.
  unfold JsObject.set. destruct (JsObject.has k o).
  - apply in_replace_entries.
  - destruct (JsObject.array_index k).
    + apply in_insert_index_entries.
    + rewrite in_app_iff. simpl. intuition.
Qed.

Lemma in_values_entries (V : Type) (o : JsObject.t V) v :
  In v (JsObject.values o) <-> exists k, In (k, v) o.
Proof.
  unfold JsObject.values. rewrite in_map_iff. split.
  - intros ([k v'] & E & H). simpl in E. subst. eauto.
  - intros (k & H). exists (k, v). auto.
Qed.

Lemma in_values_set (V : Type) (o : JsObject.t V) k v v' :
  In v' (JsObject.values (JsObject.set k v o)) -> v' = v \/ In v' (JsObject.values o).
Proof.
  rewrite !in_values_entries. intros (k' & H).
  apply in_set_entries in H. destruct H as [[= _ ->]|H]; eauto.
Qed.

Lemma value_set_in (V : Type) (o : JsObject.t V) k v :
  In v (JsObject.values (JsObject.set k v o)).
Proof.
  apply in_values_entries. exists k. apply get_in_entries, get_set_same.
Qed.

Lemma values_replace_keep (V : Type) (o : JsObject.t V) k v v' :
  In v' (JsObject.values o) ->
  In v' (JsObject.values (JsObject.replace k v o)) \/ JsObject.get k o = Some v'.
Proof.
  induction o as [|[k' w] r IH]; simpl; [tauto|].
  destruct (String.eqb k k'); simpl.
  - intros [->|H]; auto.
  - intros [->|H]; auto. destruct (IH H); auto.
Qed.

(** Writing a member keeps every value of the object, the one the member had
    before apart. *)
Lemma values_set_keep (V : Type) (o : JsObject.t V) k v v' :
  In v' (JsObject.values o) ->
  In v' (JsObject.values (JsObject.set k v o)) \/ JsObject.get k o = Some v'.
Proof.
  intros H. unfold JsObject.set. destruct (JsObject.has k o).
  - apply values_replace_keep. exact H.
  - left. apply in_values_entries in H. destruct H as (k' & H).
    apply in_values_entries. exists k'.
    destruct (JsObject.array_index k).
    + apply in_insert_index_entries. auto.
    + apply in_app_iff. auto.
Qed.

(** [makeDictionary] files every string but [__proto__]. *)
Lemma makeDictionary_filter array : forall o,
  JsObject.has "__proto__" o = false ->
  fold_left (fun newObject name => JsObject.assign name name newObject) array o =
  fold_left (fun newObject name => JsObject.set name name newObject)
    (filter (fun name => negb (String.eqb name "__proto__")) array) o.
Proof.
  induction array as [|z r IH]; intros o H; simpl; [reflexivity|].
  destruct (String.eqb z "__proto__") eqn:E; simpl.
  - apply String.eqb_eq in E. subst z. unfold JsObject.assign. rewrite H. simpl.
    apply IH. exact H.
  - unfold JsObject.assign. rewrite E. simpl. apply IH.
    rewrite has_set, H, String.eqb_sym, E. reflexivity.
Qed.

Lemma makeDictionary_fold array : forall o,
  NoDup (JsObject.keys o) -> Forall (fun e => fst e = snd e) o ->
  let d := fold_left (fun newObject name => JsObject.set name name newObject) array o in
  NoDup (JsObject.keys d) /\ Forall (fun e => fst e = snd e) d /\
  forall name, In name (JsObject.keys d) <-> In name array \/ In name (JsObject.keys o).
Proof.
  induction array as [|z r IH]; intros o N I; simpl.
  - split; [exact N|]. split; [exact I|]. intros name. tauto.
  - destruct (IH (JsObject.set z z o)) as (N' & I' & K').
    + apply NoDup_keys_set. exact N.
    + apply Forall_forall. intros e H. apply in_set_entries in H.
      destruct H as [->|H]; [reflexivity|].
      rewrite Forall_forall in I. auto.
    + split; [exact N'|]. split; [exact I'|].
      intros name. rewrite K', in_keys_set. intuition.
Qed.

Lemma values_keys_identity (o : JsObject.t string) :
  Forall (fun e => fst e = snd e) o -> JsObject.values o = JsObject.keys o.
Proof.
  induction 1 as [|[k v] r E _ IH]; simpl in *; [reflexivity|]. congruence.
Qed.

Lemma makeDictionary_plain array : forall o,
  NoDup array -> (forall n, In n array -> JsObject.array_index n = None) ->
  (forall n, In n array -> ~ In n (JsObject.keys o)) ->
  fold_left (fun newObject name => JsObject.set name name newObject) array o =
  o ++ map (fun n => (n, n)) array.
Proof.
  induction array as [|z r IH]; intros o N A F; simpl.
  - rewrite app_nil_r. reflexivity.
  - inversion N as [|? ? Nz Nr]; subst.
    assert (E : JsObject.set z z o = o ++ [(z, z)]).
    { unfold JsObject.set.
      assert (H : JsObject.has z o = false)
        by (apply has_false_iff, F; simpl; auto).
      rewrite H, (A z) by (simpl; auto). reflexivity. }
    rewrite E, IH; auto.
    + rewrite <- app_assoc. reflexivity.
    + intros n Hn. apply A. simpl. auto.
    + intros n Hn. unfold JsObject.keys. rewrite map_app, in_app_iff. simpl.
      intros [H|[->|[]]]; [apply (F n); simpl; auto | contradiction].
Qed.

Lemma makeDictionary_set array :
  makeDictionary array =
  fold_left (fun newObject name => JsObject.set name name newObject)
    (filter (fun name => negb (String.eqb name "__proto__")) array)
    (JsObject.empty string).
Proof. unfold makeDictionary. apply makeDictionary_filter. reflexivity. Qed.

Lemma in_filter_proto array name :
  In name (filter (fun name => negb (String.eqb name "__proto__")) array) <->
  In name array /\ name <> "__proto__".
Proof.
  rewrite filter_In, negb_true_iff. split; intros [H E]; split; auto.
  - apply String.eqb_neq. exact E.
  - apply String.eqb_neq. exact E.
Qed.

(** X1.  [values(makeDictionary(array))] lists the strings of [array] other
    than [__proto__] once each, every such string being filed under itself;
    the string [__proto__] is not filed, the assignment going to the accessor
    of [Object.prototype].  When [array] has no duplicate and none of its
    strings is an array index or [__proto__], the result is [array] again. *)
Theorem makeDictionary_values array :
  NoDup (values (makeDictionary array)) /\
  (forall name, In name (values (makeDictionary array)) <->
                In name array /\ name <> "__proto__") /\
  (forall name, In name array -> name <> "__proto__" ->
                JsObject.get name (makeDictionary array) = Some name) /\
  JsObject.get "__proto__" (makeDictionary array) = None /\
  (NoDup array -> (forall n, In n array -> JsObject.array_index n = None) ->
   ~ In "__proto__" array ->
   values (makeDictionary array) = array).
Proof.
  rewrite makeDictionary_set.
  set (plain := filter (fun name => negb (String.eqb name "__proto__")) array).
  destruct (makeDictionary_fold plain (JsObject.empty string)) as (N & I & K);
    [constructor | constructor |]. simpl in N, I, K.
  set (d := fold_left (fun newObject name => JsObject.set name name newObject)
              plain (JsObject.empty string)) in *.
  assert (Kd : forall name, In name (JsObject.keys d) <->
                            In name array /\ name <> "__proto__").
  { intros name. rewrite K. unfold plain. rewrite in_filter_proto. simpl. tauto. }
  unfold values. rewrite (values_keys_identity _ I).
  split; [exact N|]. split; [exact Kd|]. split; [|split].
  - intros name H Np.
    assert (Hk : In name (JsObject.keys d)) by (apply Kd; auto).
    apply in_keys_get in Hk. destruct Hk as [v G]. rewrite G.
    pose proof (get_in_entries _ _ _ _ G) as E.
    rewrite Forall_forall in I. specialize (I _ E). simpl in I. congruence.
  - apply get_none_iff. intros H. apply Kd in H. destruct H as [_ H]. auto.
  - intros Nd A Np.
    assert (P : plain = array).
    { unfold plain. clear -Np. induction array as [|z r IH]; simpl; [reflexivity|].
      destruct (String.eqb z "__proto__") eqn:E; simpl.
      - apply String.eqb_eq in E. subst z. exfalso. apply Np. simpl. auto.
      - rewrite IH; [reflexivity|]. intros H. apply Np. simpl. auto. }
    unfold d. rewrite P.
    rewrite (makeDictionary_plain array (JsObject.empty string) Nd A)
      by (intros n _ []).
    unfold JsObject.keys, JsObject.empty. simpl. rewrite map_map. simpl.
    apply map_id.
Qed.

(** An array index among the strings moves to the front, and [__proto__] is
    dropped. *)
Lemma makeDictionary_reorders :
  values (makeDictionary ["serviceB"; "1"]) = ["1"; "serviceB"] /\
  values (makeDictionary ["__proto__"; "serviceA"]) = ["serviceA"].
Proof. split; reflexivity. Qed.

Lemma in_values_makeDictionary array d :
  In d (values (makeDictionary array)) <-> In d array /\ d <> "__proto__".
Proof. apply (makeDictionary_values array). Qed.

Lemma get_makeDictionary array k d :
  JsObject.get k (makeDictionary array) = Some d -> d = k.
Proof.
  rewrite makeDictionary_set.
  destruct (makeDictionary_fold
              (filter (fun name => negb (String.eqb name "__proto__")) array)
              (JsObject.empty string)) as (_ & I & _);
    [constructor | constructor |]. simpl in I.
  intros G. apply get_in_entries in G. rewrite Forall_forall in I.
  specialize (I _ G). simpl in I. congruence.
Qed.

Lemma keys_set_declared (V : Type) (o : JsObject.t V) k v v' :
  JsObject.get k o = Some v' -> JsObject.keys (JsObject.set k v o) = JsObject.keys o.
Proof.
  intros G. apply keys_set_in. eapply get_in_keys; eauto.
Qed.

Lemma values_set_spec (V : Type) (o : JsObject.t V) k v :
  In v (JsObject.values (JsObject.set k v o)) /\
  (forall z, In z (JsObject.values (JsObject.set k v o)) ->
             z = v \/ In z (JsObject.values o)) /\
  (forall z, In z (JsObject.values o) ->
             In z (JsObject.values (JsObject.set k v o)) \/ JsObject.get k o = Some z).
Proof.
  split; [apply value_set_in|]. split; intros z.
  - apply in_values_set.
  - apply values_set_keep.
Qed.

Lemma values_assign_spec (V : Type) (o : JsObject.t V) k v :
  (k <> "__proto__" \/ JsObject.has k o = true ->
   In v (JsObject.values (JsObject.assign k v o))) /\
  (k = "__proto__" -> JsObject.has k o = false -> JsObject.assign k v o = o) /\
  (forall z, In z (JsObject.values (JsObject.assign k v o)) ->
             z = v \/ In z (JsObject.values o)) /\
  (forall z, In z (JsObject.values o) ->
             In z (JsObject.values (JsObject.assign k v o)) \/ JsObject.get k o = Some z).
Proof.
  destruct (values_set_spec V o k v) as (P1 & P2 & P3).
  destruct (assign_cases V o k v) as [(E & H & ->)|[C ->]].
  - split; [intros [N|T]; congruence|]. split; [reflexivity|]. split; auto.
  - split; [intros _; exact P1|]. split; [|split; assumption].
    intros E H. destruct C as [C|C]; congruence.
Qed.

(** The dependencies a successful [addDependency] leaves. *)
Lemma addDependency_result name dependency alias a a' service :
  JsObject.get name (services a) = Some service ->
  addDependency name dependency alias a = Ok a' ->
  exists deps,
    dependencies service = Some deps /\
    a' = with_services
           (JsObject.set name
              (set_dependencies
                 match deps with
                 | DepArray names =>
                     if truthy alias
                     then DepObject
                            (JsObject.assign (alias_key dependency alias) dependency
                               (makeDictionary names))
                     else DepArray (names ++ [dependency])
                 | DepObject aliases =>
                     DepObject
                       (JsObject.assign (alias_key dependency alias) dependency aliases)
                 end service)
              (services a)) a.
Proof.
  intros G A. unfold addDependency in A. rewrite G in A.
  destruct (isStarting name a); [discriminate|].
  destruct (dependencies service) as [deps|] eqn:D; [|discriminate].
  exists deps. split; [reflexivity|].
  injection A as <-. unfold alias_key.
  destruct deps as [names|aliases]; [destruct (truthy alias)|]; reflexivity.
Qed.

(** X2.  A successful [addDependency(name, dependency, alias)] changes, of
    the declaration of [name], the dependencies only, and leaves the declared
    names and [awaiting] as they are.  No name other than [dependency] is
    added to its dependencies.  An array gets [dependency] appended when
    [alias] is falsy.  Otherwise the dependencies are an alias object, an
    array being first turned into one, each name other than [__proto__]
    being its own key, and [dependency] is assigned to the key [alias], or
    [dependency] when [alias] is falsy: it then is one of the dependencies,
    and the former dependencies are kept except the one that was filed under
    that key; but when the key is [__proto__] and the object has no such
    member, the assignment files nothing and the dependencies of the object
    stay as they are. *)
Theorem addDependency_files name dependency alias a a' service :
  JsObject.get name (services a) = Some service ->
  addDependency name dependency alias a = Ok a' ->
  exists service',
    JsObject.get name (services a') = Some service' /\
    ignore service' = ignore service /\ module service' = module service /\
    path service' = path service /\
    JsObject.keys (services a') = JsObject.keys (services a) /\
    awaiting a' = awaiting a /\ registry_frame a a' /\
    (alias_key dependency alias <> "__proto__" ->
     In dependency (getDependencyNames service')) /\
    (forall d, In d (getDependencyNames service') ->
               d = dependency \/ In d (getDependencyNames service)) /\
    (forall d, In d (getDependencyNames service) ->
               In d (getDependencyNames service') \/
               match dependencies service with
               | Some (DepArray _) =>
                   truthy alias = true /\
                   (d = alias_key dependency alias \/ d = "__proto__")
               | Some (DepObject aliases) =>
                   JsObject.get (alias_key dependency alias) aliases = Some d
               | None => False
               end) /\
    (forall names, dependencies service = Some (DepArray names) ->
                   truthy alias = false ->
                   getDependencyNames service' = names ++ [dependency]) /\
    (forall aliases, dependencies service = Some (DepObject aliases) ->
                     alias_key dependency alias = "__proto__" ->
                     JsObject.has "__proto__" aliases = false ->
                     getDependencyNames service' = getDependencyNames service).
Proof.
  intros G A.
  pose proof (call_frame (CallAddDependency name dependency alias) a a' A) as RF.
  destruct (addDependency_result _ _ _ _ _ _ G A) as (deps & D & ->).
  eexists. simpl services.
  split; [apply get_set_same|].
  split; [destruct service; reflexivity|].
  split; [destruct service; reflexivity|].
  split; [destruct service; reflexivity|].
  split; [eapply keys_set_declared; eauto|].
  split; [reflexivity|]. split; [exact RF|].
  assert (Names : forall d2, getDependencyNames (set_dependencies d2 service) =
                             match d2 with
                             | DepArray names => names
                             | DepObject aliases => values aliases
                             end)
    by (intros d2; destruct service; reflexivity).
  rewrite Names. unfold getDependencyNames. rewrite D.
  destruct deps as [names|aliases]; [destruct (truthy alias)|].
  - destruct (values_assign_spec _ (makeDictionary names)
                (alias_key dependency alias) dependency) as (P1 & _ & P2 & P3).
    split; [intros N; apply P1; auto|]. split; [|split; [|split]].
    + intros d H. destruct (P2 d H) as [E|E]; auto.
      right. apply in_values_makeDictionary in E. tauto.
    + intros d H. destruct (string_dec d "__proto__") as [E|E]; [auto|].
      assert (Hd : In d (values (makeDictionary names)))
        by (apply in_values_makeDictionary; auto).
      destruct (P3 d Hd) as [K|K]; auto.
      right. split; [reflexivity|]. left. exact (get_makeDictionary _ _ _ K).
    + intros names0 _ T. discriminate.
    + intros aliases0 E. discriminate.
  - split; [intros _; apply in_app_iff; simpl; auto|]. split; [|split; [|split]].
    + intros d H. apply in_app_iff in H. destruct H as [H|[->|[]]]; auto.
    + intros d H. left. apply in_app_iff. auto.
    + intros names0 [= <-] _. reflexivity.
    + intros aliases0 E. discriminate.
  - destruct (values_assign_spec _ aliases (alias_key dependency alias) dependency)
      as (P1 & P0 & P2 & P3).
    split; [intros N; apply P1; auto|]. split; [exact P2|]. split; [exact P3|].
    split; [intros names0 E; discriminate|].
    intros aliases0 [= <-] K H. rewrite K in *. rewrite (P0 eq_refl H). reflexivity.
Qed.

(** The alias ['serviceB'] is already the key of a dependency: the new
    dependency replaces it. *)
Lemma addDependency_files_witness :
  let a := new resolve_config in
  let a' := step a (Call (CallAddDependency "serviceA" "serviceC" (Some "serviceB"))) in
  exists service',
    JsObject.get "serviceA" (services a') = Some service' /\
    In "serviceC" (getDependencyNames service').
Proof.
  intros a a'.
  assert (G : JsObject.get "serviceA" (services a) =
              Some (inline (Some (DepArray ["serviceB"])) (returning "moduleA")))
    by (vm_compute; reflexivity).
  assert (A : addDependency "serviceA" "serviceC" (Some "serviceB") a = Ok a')
    by (vm_compute; reflexivity).
  destruct (addDependency_files _ _ _ _ _ _ G A)
    as (service' & G' & _ & _ & _ & _ & _ & _ & H & _).
  exists service'. split; [exact G' | apply H; discriminate].
Defined.

(** Under the alias [__proto__] nothing is filed: the array becomes an
    object and the new dependency is lost. *)
Lemma addDependency_proto_alias :
  option_map
    (fun a' => option_map getDependencyNames (JsObject.get "serviceA" (services a')))
    (match addDependency "serviceA" "serviceC" (Some "__proto__") (new resolve_config) with
     | Ok a' => Some a'
     | Throw _ => None
     end) =
  Some (Some ["serviceB"]).
Proof. reflexivity. Qed.

(* ------------------------------------------------------------------------- *)
(** ** What [execute] does before the first round *)

Lemma filter_all (f : string -> bool) l :
  (forall x, In x l -> f x = true) -> filter f l = l.
Proof.
  induction l as [|z r IH]; simpl; intros H; [reflexivity|].
  rewrite (H z) by auto. rewrite IH; auto.
Qed.

(** Outside the case of index -1, [splice] at [indexOf] removes the one
    occurrence of the name. *)
Lemma splice_indexOf_filter l name :
  NoDup l -> In name l ->
  splice_indexOf name l = filter (fun n => negb (String.eqb n name)) l.
Proof.
  unfold splice_indexOf. induction l as [|z r IH]; intros N H; [destruct H|].
  inversion N as [|? ? Nz Nr]; subst. simpl.
  destruct (String.eqb name z) eqn:E.
  - apply String.eqb_eq in E. subst z. rewrite String.eqb_refl. simpl.
    symmetry. apply filter_all. intros x Hx.
    apply negb_true_iff, String.eqb_neq. intros ->. contradiction.
  - assert (Hr : In name r).
    { destruct H as [->|H]; auto. rewrite String.eqb_refl in E. discriminate. }
    rewrite String.eqb_sym, E. simpl.
    specialize (IH Nr Hr).
    destruct (indexOf name r) as [i|] eqn:Ix.
    + simpl. rewrite IH. reflexivity.
    + exfalso. clear -Hr Ix. induction r as [|w r IH]; [destruct Hr|].
      simpl in Ix. destruct (String.eqb name w) eqn:E; [discriminate|].
      destruct (indexOf name r); [discriminate|].
      destruct Hr as [->|Hr]; auto. rewrite String.eqb_refl in E. discriminate.
Qed.

Lemma filter_twice (f g : string -> bool) l :
  filter f (filter g l) = filter (fun n => g n && f n) l.
Proof.
  induction l as [|z r IH]; simpl; [reflexivity|].
  destruct (g z); simpl; [destruct (f z)|]; rewrite IH; reflexivity.
Qed.

Lemma cleanAwaiting_filter ks : forall aw,
  NoDup aw -> NoDup ks -> incl ks aw ->
  fold_left (fun awaiting name => splice_indexOf name awaiting) ks aw =
  filter (fun n => negb (mem n ks)) aw.
Proof.
  induction ks as [|k ks IH]; intros aw N Nk Inc; simpl.
  - symmetry. apply filter_all. reflexivity.
  - inversion Nk as [|? ? Hk Nks]; subst.
    rewrite splice_indexOf_filter by (auto; apply Inc; simpl; auto).
    rewrite IH.
    + rewrite filter_twice. apply filter_ext. intros n.
      unfold mem. simpl. destruct (String.eqb n k); reflexivity.
    + apply NoDup_filter. exact N.
    + exact Nks.
    + intros z Hz. apply filter_In. split; [apply Inc; simpl; auto|].
      apply negb_true_iff, String.eqb_neq. intros ->. contradiction.
Qed.

(** X3.  Before its first round [execute] moves exactly the declared services
    whose [ignore] is truthy from [awaiting] to [ignored]; the other services
    keep their order in [awaiting], and the promise of the run is pending. *)
Theorem prepare_skips_ignored a :
  Reached a -> executed a = false ->
  awaiting (prepare a) =
  filter (fun n => negb (ignore_of (services a) n)) (awaiting a) /\
  (forall n, In n (JsObject.keys (ignored (prepare a))) <->
             exists s, JsObject.get n (services a) = Some s /\ ignore s = true) /\
  services (prepare a) = services a /\
  promise (prepare a) = Some Pending /\ executed (prepare a) = true.
Proof.
  intros R E. pose proof (Reached_Inv a R) as I.
  destruct (fresh a I E) as (Ig & St & Re & Sd).
  assert (Keys : forall n, In n (JsObject.keys (ignored (prepare a))) <->
                           In n (awaiting a) /\
                           exists s, JsObject.get n (services a) = Some s /\
                                     ignore s = true).
  { intros n. unfold prepare, cleanAwaiting, fillIgnored. simpl.
    rewrite fillIgnored_keys, Ig. simpl. tauto. }
  split; [|split; [|repeat split]].
  - assert (Keys' := Keys).
    change (ignored (prepare a)) with (ignored (fillIgnored a)) in Keys'.
    change (awaiting (prepare a))
      with (fold_left (fun awaiting name => splice_indexOf name awaiting)
              (JsObject.keys (ignored (fillIgnored a))) (awaiting a)).
    rewrite cleanAwaiting_filter.
    + apply filter_ext_in. intros n Hn. f_equal.
      unfold ignore_of.
      destruct (mem n (JsObject.keys (ignored (fillIgnored a)))) eqn:M.
      * apply mem_true_iff in M.
        apply (Keys' n) in M. destruct M as (_ & s & G & Is). rewrite G, Is. reflexivity.
      * destruct (JsObject.get n (services a)) as [s|] eqn:G; [|reflexivity].
        destruct (ignore s) eqn:Is; [|reflexivity].
        assert (Hk : In n (JsObject.keys (ignored (fillIgnored a))))
          by (apply (proj2 (Keys' n)); eauto).
        apply mem_true_iff in Hk. congruence.
    + apply (nodup_awaiting a I).
    + apply (nodup_ignored _ (Inv_prepare a I E)).
    + intros n Hn. apply (Keys n) in Hn. tauto.
  - intros n. rewrite Keys. split; [tauto|].
    intros (s & G & Is). split; [|eauto].
    destruct (declared_somewhere a I n) as [H|[H|[H|H]]]; auto.
    + eapply get_in_keys; eauto.
    + rewrite Ig in H. destruct H.
    + rewrite St in H. destruct H.
    + rewrite Re in H. destruct H.
Qed.

(** 'should skip ignored services' *)
Lemma prepare_skips_ignored_witness :
  awaiting (prepare (new skip_config)) = ["serviceA"] /\
  JsObject.keys (ignored (prepare (new skip_config))) = ["serviceB"].
Proof.
  destruct (prepare_skips_ignored (new skip_config) (reached_new _) eq_refl)
    as (A & _).
  split; [rewrite A; vm_compute; reflexivity | vm_compute; reflexivity].
Defined.
(* ------------------------------------------------------------------------- *)
(** ** The answer of [checkDependencies] and the imports of a factory *)

Lemma checkDependencies_yes name service a :
  eligible service a -> snd (checkDependencies name service a) = true.
Proof.
  unfold eligible, checkDependencies, getDependencyNames.
  destruct (dependencies service) as [[[|z r]|m]|]; intros H; try reflexivity;
    rewrite snd_fold_checkDependency_eq; apply forallb_forall; intros d Hd;
    apply H, Hd.
Qed.

Lemma checkDependencies_true name service a :
  ready service a -> snd (checkDependencies name service a) = true.
Proof. intros R. apply checkDependencies_yes, ready_eligible, R. Qed.

(** X4.  [checkDependencies] answers [true] exactly when every dependency of
    the service (the entries of an array, the values of an alias object) is
    [in this.resolved]: it has an entry in [resolved], or it is the name of a
    member of [Object.prototype].  When no dependency bears such a name, the
    answer is [true] exactly when every dependency has an entry in
    [resolved].  The answer is [true] when there is no dependency, and the
    call changes nothing but the promise of the run. *)
Theorem checkDependencies_answer name service a :
  (snd (checkDependencies name service a) = true <-> eligible service a) /\
  ((forall d, In d (getDependencyNames service) -> JsObject.inherited d = false) ->
   (snd (checkDependencies name service a) = true <-> ready service a)) /\
  promise_frame a (fst (checkDependencies name service a)) /\
  (getDependencyNames service = [] -> checkDependencies name service a = (a, true)).
Proof.
  split; [split|split; [|split]].
  - apply checkDependencies_eligible.
  - apply checkDependencies_yes.
  - intros N. split.
    + intros C. apply eligible_ready; [exact N|].
      apply checkDependencies_eligible with (name := name). exact C.
    + apply checkDependencies_true.
  - apply checkDependencies_frame.
  - unfold checkDependencies, getDependencyNames.
    destruct (dependencies service) as [[[|z r]|m]|]; try reflexivity;
      try discriminate. intros ->. reflexivity.
Qed.

(** A dependency named like a member of [Object.prototype] never blocks:
    the service of [prototype_config] is eligible in the first round. *)
Lemma checkDependencies_answer_inherited :
  snd (checkDependencies "serviceA"
         (inline (Some (DepArray ["constructor"])) (returning "moduleA"))
         (prepare (new prototype_config))) = true /\
  resolved (prepare (new prototype_config)) = [].
Proof. split; reflexivity. Qed.






(** The imports of the run of 'should properly resolve dependencies', and
    those of a service that names [constructor] and [__proto__]. *)
Lemma startService_imports_examples :
  calls (run (new resolve_config) [Execute; Job]) =
  [("serviceB", [("__app__", ImportApp)]);
   ("serviceA",
    [("__app__", ImportApp);
     ("serviceB",
      ImportValue (Some {| label := "moduleB"; shutdown_member := None |}))])] /\
  obtainDepenedcies
    (inline (Some (DepArray ["constructor"; "__proto__"])) (returning "moduleA"))
    (new prototype_config) =
  [("__app__", ImportApp); ("constructor", ImportInherited "constructor")].
Proof. split; reflexivity. Qed.

(* ------------------------------------------------------------------------- *)
(** ** The loop of [nextRound] skips the service after each one it starts *)

Lemma remove_at_app (pre : list string) z rest :
  remove_at (List.length pre) (pre ++ z :: rest) = pre ++ rest.
Proof.
  induction pre as [|w pre IH]; simpl; [reflexivity|]. rewrite IH. reflexivity.
Qed.

Lemma nth_error_middle (pre : list string) z rest :
  nth_error (pre ++ z :: rest) (List.length pre) = Some z.
Proof.
  induction pre as [|w pre IH]; simpl; auto.
Qed.

Lemma nth_error_end (pre : list string) :
  nth_error (pre ++ []) (List.length pre) = None.
Proof.
  apply nth_error_None. rewrite app_nil_r. auto.
Qed.

Lemma length_alternate keep (xs : list string) :
  List.length (alternate keep xs) <= List.length xs.
Proof.
  revert keep. induction xs as [|z r IH]; intros keep; simpl; auto.
  destruct keep; simpl.
  - specialize (IH false). lia.
  - specialize (IH true). lia.
Qed.

(** The effect of [startService] for a factory that makes no registry
    call. *)
Lemma startService_plain name service completion a :
  factory_of service = Some (Function [] completion) ->
  services (startService name service a) = services a /\
  resolved (startService name service a) = resolved a /\
  awaiting (startService name service a) = splice_indexOf name (awaiting a) /\
  JsObject.keys (starting (startService name service a)) =
  JsObject.keys (JsObject.set name true (starting a)).
Proof.
  intros Fo. unfold startService.
  pose proof (obtainModule_factory_of name service a) as E.
  pose proof (obtainModule_frame name service a) as PF.
  destruct (obtainModule name service a) as [a0 m]. simpl in E, PF.
  rewrite Fo in E. subst m. destruct PF as (p & -> & _). simpl.
  unfold afterCall, promise_reject, promise_settle. simpl.
  destruct completion; simpl; try (repeat split; fail);
    destruct p as [[| |m]|]; repeat split.
Qed.

Lemma round_alternate D R fuel : forall pre rest n0 a,
  services a = D -> resolved a = R -> awaiting a = pre ++ rest ->
  NoDup (pre ++ rest) ->
  (forall n, In n (alternate true rest) ->
     exists s c, JsObject.get n D = Some s /\
                 (forall d, In d (getDependencyNames s) -> In d (JsObject.keys R)) /\
                 factory_of s = Some (Function [] c)) ->
  List.length (alternate true rest) <= fuel ->
  exists a',
    round fuel (List.length pre) n0 a =
    Some (a', n0 + List.length (alternate true rest)) /\
    services a' = D /\ resolved a' = R /\
    awaiting a' = pre ++ alternate false rest /\
    forall n, In n (JsObject.keys (starting a')) <->
              In n (JsObject.keys (starting a)) \/ In n (alternate true rest).
Proof.
  induction fuel as [|fuel IH]; intros pre rest n0 a Es Er Ea N P L.
  - destruct rest as [|z rest]; [|simpl in L; lia].
    exists a. simpl. rewrite Ea, nth_error_end, Nat.add_0_r.
    repeat split; auto; tauto.
  - destruct rest as [|z rest].
    { exists a. simpl. rewrite Ea, nth_error_end, Nat.add_0_r.
      repeat split; auto; tauto. }
    destruct (P z) as (s & c & G & Rd & Fo); [simpl; auto|].
    simpl round. rewrite Ea, nth_error_middle, Es, G.
    assert (C : snd (checkDependencies z s a) = true).
    { apply checkDependencies_true. intros d Hd. rewrite Er. auto. }
    pose proof (checkDependencies_frame z s a) as PF.
    destruct (checkDependencies z s a) as [a1 ok]. simpl in C, PF. subst ok.
    destruct PF as (p & -> & _).
    destruct (startService_plain z s c (with_promise p a) Fo) as (S1 & S2 & S3 & S4).
    simpl in S1, S2, S3, S4.
    rewrite Ea, (splice_indexOf_nth _ _ _ N (nth_error_middle pre z rest)),
      remove_at_app in S3.
    set (a2 := startService z s (with_promise p a)) in *.
    assert (K2 : forall n, In n (JsObject.keys (starting a2)) <->
                           n = z \/ In n (JsObject.keys (starting a))).
    { intros n. rewrite S4. apply in_keys_set. }
    clearbody a2.
    assert (N2 : NoDup (pre ++ rest)).
    { apply NoDup_remove_1 in N. exact N. }
    destruct rest as [|y rest].
    + assert (Nn : nth_error (awaiting a2) (S (List.length pre)) = None)
        by (apply nth_error_None; rewrite S3, app_nil_r; lia).
      exists a2. destruct fuel; cbn [round]; rewrite Nn; cbn [alternate List.length];
        (split; [f_equal; f_equal; lia|]);
        (split; [congruence|]); (split; [congruence|]);
        (split; [exact S3|]); intros n; rewrite K2; simpl; intuition congruence.
    + destruct (IH (pre ++ [y]) rest (S n0) a2) as (a' & Rd' & Es' & Er' & Ea' & K').
      * congruence.
      * congruence.
      * rewrite S3, <- app_assoc. reflexivity.
      * rewrite <- app_assoc. exact N2.
      * intros n Hn. apply P. simpl. auto.
      * simpl in L. lia.
      * exists a'. rewrite length_app in Rd'. simpl in Rd'.
        rewrite Nat.add_1_r in Rd'. rewrite Rd'.
        split; [simpl; f_equal; f_equal; lia|].
        split; [exact Es'|]. split; [exact Er'|].
        split; [rewrite Ea', <- app_assoc; reflexivity|].
        intros n. rewrite K', K2. simpl. intuition congruence.
Qed.

Lemma length_le_weight svcs (xs : list string) :
  incl xs (JsObject.keys svcs) ->
  List.length xs <= list_sum (map (weight_of svcs) xs).
Proof.
  induction xs as [|z r IH]; simpl; intros Dc; [lia|].
  pose proof (weight_of_declared svcs z (Dc z (or_introl eq_refl))).
  assert (List.length r <= list_sum (map (weight_of svcs) r))
    by (apply IH; intros w Hw; apply Dc; simpl; auto).
  lia.
Qed.

(** X6.  A round visits the services in [awaiting] at the positions 0, 2, 4 and so
    on, because a started service is taken out of the array the loop is
    running over.  When each of those services has all its dependencies in
    [resolved] and a factory that makes no registry call, the round starts
    exactly them, whatever their factories return or throw: the services at
    the positions 1, 3, 5 and so on stay in [awaiting] for a later round,
    even when they have no dependency at all. *)
Theorem round_starts_every_other a :
  Reached a -> executed a = true ->
  (forall n, In n (alternate true (awaiting a)) ->
     exists s c, JsObject.get n (services a) = Some s /\ ready s a /\
                 factory_of s = Some (Function [] c)) ->
  exists a',
    round (round_fuel a) 0 0 a =
    Some (a', List.length (alternate true (awaiting a))) /\
    awaiting a' = alternate false (awaiting a) /\
    (forall n, In n (JsObject.keys (starting a')) <->
               In n (JsObject.keys (starting a)) \/
               In n (alternate true (awaiting a))) /\
    services a' = services a /\ resolved a' = resolved a.
Proof.
  intros R E P. pose proof (Reached_Inv a R) as I.
  destruct (round_alternate (services a) (resolved a) (round_fuel a)
              [] (awaiting a) 0 a) as (a' & Rd & Es & Er & Ea & K); auto.
  - apply (nodup_awaiting a I).
  - etransitivity; [apply length_alternate|].
    apply length_le_weight, (declared_awaiting a I).
  - exists a'. simpl in Rd, Ea. auto.
Qed.

(** Of three services without dependencies the first round starts the first
    and the third. *)
Lemma round_starts_every_other_witness :
  let a := prepare (new independent_config) in
  exists a',
    round (round_fuel a) 0 0 a = Some (a', 2) /\ awaiting a' = ["serviceB"].
Proof.
  intros a.
  assert (P : forall n, In n (alternate true (awaiting a)) ->
            exists s c, JsObject.get n (services a) = Some s /\ ready s a /\
                        factory_of s = Some (Function [] c)).
  { intros n H. vm_compute in H.
    destruct H as [<-|[<-|[]]]; do 2 eexists;
      (split; [vm_compute; reflexivity|]);
      (split; [intros d Hd; vm_compute in Hd; destruct Hd | reflexivity]). }
  destruct (round_starts_every_other a
              (reached_prepare _ (reached_new independent_config) eq_refl) eq_refl P)
    as (a' & Rd & Aw & _).
  exists a'. split; [exact Rd | exact Aw].
Defined.

(* ------------------------------------------------------------------------- *)
(** ** [shutdown] *)

Section MapValues.
Variables (V W : Type) (h : V -> W).

Let M (o : JsObject.t V) : JsObject.t W := map (fun e => (fst e, h (snd e))) o.

Lemma keys_map_values o : JsObject.keys (M o) = JsObject.keys o.
Proof. unfold M, JsObject.keys. rewrite map_map. reflexivity. Qed.

Lemma get_map_values k o : JsObject.get k (M o) = option_map h (JsObject.get k o).
Proof.
  induction o as [|[k' v] r IH]; simpl; auto.
  destruct (String.eqb k k'); auto.
Qed.

Lemma set_map_values k v o : JsObject.set k (h v) (M o) = M (JsObject.set k v o).
Proof.
  unfold JsObject.set.
  assert (H : JsObject.has k (M o) = JsObject.has k o).
  { unfold JsObject.has. rewrite get_map_values.
    destruct (JsObject.get k o); reflexivity. }
  rewrite H. destruct (JsObject.has k o).
  - clear H. induction o as [|[k' v'] r IH]; simpl; auto.
    destruct (String.eqb k k'); simpl; [reflexivity|]. rewrite IH. reflexivity.
  - destruct (JsObject.array_index k) as [n|].
    + clear H. induction o as [|[k' v'] r IH]; simpl; auto.
      destruct (JsObject.array_index k') as [m|]; [|reflexivity].
      destruct (m <? n)%N; simpl; [|reflexivity]. rewrite IH. reflexivity.
    + unfold M. rewrite map_app. reflexivity.
Qed.

End MapValues.

Lemma teardown_nextRound a : teardown (nextRound a) = teardown a.
Proof.
  unfold nextRound. destruct (round (round_fuel a) 0 0 a) as [[a' k]|] eqn:R; auto.
  rewrite teardown_round_end. apply (round_frame_round _ _ _ _ _ _ R).
Qed.

(** An event records at most one service, and its teardown action with
    it. *)
Lemma recorded_step a e :
  (resolved (step a e) = resolved a /\ teardown (step a e) = teardown a) \/
  exists name service,
    resolved (step a e) = JsObject.set name service (resolved a) /\
    teardown (step a e) = JsObject.set name (teardown_of service) (teardown a).
Proof.
  destruct e as [|c| |name value|name stack|name]; simpl.
  - left. unfold execute. destruct (executed a); auto.
    destruct (checkConstraints a); auto. simpl.
    rewrite resolved_nextRound, teardown_nextRound. auto.
  - left. destruct (call c a) eqn:C; auto.
    apply call_frame in C. destruct C as (_ & _ & C1 & C2 & _). auto.
  - destruct (jobs a) as [|[name value] rest] eqn:J; auto. right.
    exists name, (match value with Some s => s | None => emptyObject end).
    unfold register_then. rewrite resolved_nextRound, teardown_nextRound.
    split; reflexivity.
  - destruct (mem name (deferred a)) eqn:M; auto. right.
    exists name, (match value with Some s => s | None => emptyObject end).
    unfold register_then. rewrite resolved_nextRound, teardown_nextRound.
    split; reflexivity.
  - left. destruct (mem name (deferred a)); auto.
    destruct stack as [stack|]; simpl; auto.
    unfold promise_reject, promise_settle.
    destruct (promise _) as [[| |m]|]; auto.
  - left. destruct (_ && _); auto.
    unfold startupTimer, promise_reject, promise_settle. simpl.
    destruct (promise a) as [[| |m]|]; auto.
Qed.

(** The teardown actions are those of the recorded objects, in the same
    order. *)
Lemma teardown_run events : forall a,
  teardown a = map (fun e => (fst e, teardown_of (snd e))) (resolved a) ->
  teardown (run a events) =
  map (fun e => (fst e, teardown_of (snd e))) (resolved (run a events)).
Proof.
  induction events as [|e r IH]; intros a H; simpl; auto.
  apply IH. destruct (recorded_step a e) as [[-> ->]|(name & service & -> & ->)]; auto.
  rewrite H. apply set_map_values.
Qed.

Lemma callTeardowns_facts (td : JsObject.t Teardown) :
  NoDup (JsObject.keys td) ->
  (forall w, snd (callTeardowns td) = Ok w ->
     forall n, In n w <-> JsObject.get n td = Some TeardownPending) /\
  (forall stack, snd (callTeardowns td) = Throw stack ->
     exists n before,
       fst (callTeardowns td) = before ++ [n] /\
       JsObject.get n td = Some (TeardownThrows stack)).
Proof.
  induction td as [|[name f] r IH]; simpl; intros N.
  - split; [|discriminate]. intros w [= <-] n. simpl. split; [tauto | discriminate].
  - inversion N as [|? ? Nn Nr]; subst. specialize (IH Nr). destruct IH as [IH1 IH2].
    assert (Other : forall n g, JsObject.get n r = Some g -> String.eqb n name = false).
    { intros n g G. apply String.eqb_neq. intros ->.
      apply Nn. eapply get_in_keys; eauto. }
    destruct f as [| |stack0]; simpl.
    + destruct (callTeardowns r) as [called res]; simpl in *. split.
      * intros w Hw n. rewrite (IH1 w Hw n).
        destruct (String.eqb n name) eqn:E; [|tauto].
        split; [|discriminate]. intros G. rewrite (Other _ _ G) in E. discriminate.
      * intros stack Hs. destruct (IH2 stack Hs) as (n & before & -> & G).
        exists n, (name :: before). rewrite (Other _ _ G). auto.
    + destruct (callTeardowns r) as [called res]; simpl in *. split.
      * destruct res as [w0|m]; [|discriminate]. intros w [= <-] n. simpl.
        rewrite (IH1 w0 eq_refl n).
        destruct (String.eqb n name) eqn:E.
        -- apply String.eqb_eq in E. subst. split; auto.
        -- apply String.eqb_neq in E. split; [intros [F|F]; congruence || auto | auto].
      * destruct res as [w0|m]; [discriminate|]. intros stack [= <-].
        destruct (IH2 m eq_refl) as (n & before & -> & G).
        exists n, (name :: before). rewrite (Other _ _ G). auto.
    + split; [discriminate|]. intros stack [= <-].
      exists name, []. rewrite String.eqb_refl. auto.
Qed.

(** X7.  [shutdown()] throws, without calling anything, until the instance has
    fully started.  Afterwards it calls the teardown actions in the order of
    the keys of [resolved], each at most once, the action of a service being
    the [shutdown] member of the object recorded for it, or a function that
    does nothing; the first action that throws ends the calls and its
    exception leaves [shutdown].  When no action throws, all have been
    called, and the promise returned waits for the actions that returned a
    promise: it is fulfilled at once when there is none. *)
Theorem shutdown_calls config_services events :
  let a := run (new config_services) events in
  (started a = false -> shutdown a = ([], Throw NotStarted)) /\
  (started a = true ->
   NoDup (fst (shutdown a)) /\
   (exists rest, JsObject.keys (resolved a) = fst (shutdown a) ++ rest) /\
   (forall n, JsObject.get n (teardown a) =
              option_map teardown_of (JsObject.get n (resolved a))) /\
   (forall p, snd (shutdown a) = Ok p ->
      fst (shutdown a) = JsObject.keys (resolved a) /\
      (forall n, In n (waiting p) <->
                 JsObject.get n (teardown a) = Some TeardownPending) /\
      state p = (if is_nil (waiting p) then Fulfilled else Pending)) /\
   (forall stack, snd (shutdown a) = Throw stack ->
      exists n before,
        fst (shutdown a) = before ++ [n] /\
        JsObject.get n (teardown a) = Some (TeardownThrows stack))).
Proof.
  intros a.
  pose proof (Inv_run events _ (Inv_new config_services)) as I. fold a in I.
  pose proof (teardown_run events (new config_services) eq_refl) as T. fold a in T.
  pose proof (teardown_resolved a I) as K.
  assert (N : NoDup (JsObject.keys (teardown a)))
    by (rewrite K; apply (nodup_resolved a I)).
  destruct (callTeardowns_order (teardown a)) as [(rest & Pre) Full].
  destruct (callTeardowns_facts (teardown a) N) as [W Th].
  unfold shutdown. split; intros S; rewrite S; simpl; [reflexivity|].
  destruct (callTeardowns (teardown a)) as [called res]. simpl in *.
  split; [|split; [|split; [|split]]].
  - rewrite Pre in N. eapply NoDup_app_remove_r. exact N.
  - exists rest. rewrite <- K. exact Pre.
  - intros n. rewrite T. apply get_map_values.
  - intros p Hp. destruct res as [w|m]; [|discriminate].
    injection Hp as <-. simpl.
    split; [rewrite <- K; apply (Full w eq_refl)|].
    split; [apply (W w eq_refl)|]. destruct w; reflexivity.
  - intros stack Hs. destruct res as [w|m]; [discriminate|].
    injection Hs as <-. apply (Th m eq_refl).
Qed.

(** The teardown of [serviceA] throws: [shutdown] throws and the teardown of
    [serviceB] is not called. *)
Lemma shutdown_throwing_teardown :
  shutdown (run (new throwing_teardown_config) [Execute; Job; Job]) =
  (["serviceA"], Throw "Error: stop").
Proof. vm_compute. reflexivity. Qed.

Lemma shutdown_settled_any later : forall p,
  state p <> Pending -> state (shutdown_run p later) = state p.
Proof.
  induction later as [|e r IH]; intros p H; simpl; auto.
  assert (E : state (shutdown_step p e) = state p).
  { destruct e as [name|name error|]; simpl.
    - destruct (mem name (waiting p)); simpl; auto.
      destruct (remove string_dec name (waiting p)); auto.
      destruct (state p); auto. contradiction.
    - destruct (mem name (waiting p)); simpl; auto.
      destruct (state p); auto. contradiction.
    - destruct (state p); auto. contradiction. }
  rewrite IH; rewrite E; auto.
Qed.

(** While only fulfilments arrive, the promise of [shutdown] waits for the
    teardown promises that are not fulfilled yet. *)
Lemma shutdown_fulfilments es : forall p,
  state p = (if is_nil (waiting p) then Fulfilled else Pending) ->
  forallb is_fulfilled es = true ->
  state (shutdown_run p es) =
  (if is_nil (waiting (shutdown_run p es)) then Fulfilled else Pending) /\
  forall n, In n (waiting (shutdown_run p es)) <->
            In n (waiting p) /\ ~ In (TeardownFulfilled n) es.
Proof.
  induction es as [|e r IH]; intros p S F; simpl.
  - split; [exact S|]. intros n. tauto.
  - simpl in F. apply andb_true_iff in F. destruct F as [F1 F2].
    destruct e as [name|name error|]; try discriminate. simpl.
    destruct (mem name (waiting p)) eqn:M.
    + destruct (IH {| waiting := remove string_dec name (waiting p);
                      state := match remove string_dec name (waiting p) with
                               | [] => settle_once Fulfilled (state p)
                               | _ :: _ => state p
                               end |}) as [S' W']; auto.
      * simpl. apply mem_true_iff in M.
        destruct (waiting p) as [|w0 ws] eqn:Wp; [destruct M|]. simpl in S.
        rewrite S. destruct (remove string_dec name (w0 :: ws)); reflexivity.
      * split; [exact S'|]. intros n. rewrite W'. simpl.
        split.
        -- intros [Hn Nn]. apply in_remove in Hn. destruct Hn as [Hn Ne].
           split; [exact Hn|]. intros [[= E]|E]; auto.
        -- intros [Hn Nn]. split.
           ++ apply in_in_remove; auto. intros ->. apply Nn. auto.
           ++ intros E. apply Nn. auto.
    + destruct (IH p S F2) as [S' W']. split; [exact S'|].
      intros n. rewrite W'. split.
      * intros [Hn Nn]. split; [exact Hn|]. intros [[= E]|E]; auto.
        subst. apply mem_true_iff in Hn. congruence.
      * intros [Hn Nn]. split; auto.
Qed.

(** X8.  The promise [shutdown] returns is settled by whichever comes first: the
    fulfilment of the last teardown promise it waits for (success), the
    rejection of one of them (failure with that error) or the shutdown timer
    (failure with the timeout error); what comes later changes nothing. *)
Theorem shutdown_outcome p es later :
  state p = (if is_nil (waiting p) then Fulfilled else Pending) ->
  forallb is_fulfilled es = true ->
  ((forall n, In n (waiting p) -> In (TeardownFulfilled n) es) ->
   state (shutdown_run p (es ++ later)) = Fulfilled) /\
  (forall n, In n (waiting p) -> ~ In (TeardownFulfilled n) es ->
     state (shutdown_run p (es ++ ShutdownTimer :: later)) =
     Rejected ShutdownTimeout /\
     forall error,
       state (shutdown_run p (es ++ TeardownRejected n error :: later)) =
       Rejected error).
Proof.
  intros S F. destruct (shutdown_fulfilments es p S F) as [S' W'].
  assert (App : forall evs, shutdown_run p (es ++ evs) = shutdown_run (shutdown_run p es) evs)
    by (intros evs; apply fold_left_app).
  set (q := shutdown_run p es) in *. split.
  - intros All. rewrite App.
    assert (E : waiting q = []).
    { destruct (waiting q) as [|n w] eqn:Wq; auto.
      destruct (W' n) as [H _]. destruct H as [Hn Nn]; [simpl; auto|].
      destruct (Nn (All n Hn)). }
    rewrite E in S'. simpl in S'.
    apply (shutdown_settled later). exact S'.
  - intros n Hn Nn.
    assert (Hq : In n (waiting q)) by (apply W'; auto).
    assert (P : state q = Pending).
    { rewrite S'. destruct (waiting q); [destruct Hq | reflexivity]. }
    split; [|intros error]; rewrite App.
    + change (shutdown_run q (ShutdownTimer :: later))
        with (shutdown_run (shutdown_step q ShutdownTimer) later).
      rewrite shutdown_settled_any; simpl; rewrite P; [reflexivity | discriminate].
    + change (shutdown_run q (TeardownRejected n error :: later))
        with (shutdown_run (shutdown_step q (TeardownRejected n error)) later).
      apply mem_true_iff in Hq.
      rewrite shutdown_settled_any; simpl; rewrite Hq; simpl; rewrite P;
        [reflexivity | discriminate].
Qed.

(** The teardown of [B] returns a promise and the timer fires before it is
    fulfilled. *)
Lemma shutdown_outcome_witness :
  let a := run (new (scenario_D (Returns (stoppable "moduleA" TeardownReturns))
                                (Returns (stoppable "moduleB" TeardownPending))))
               [Execute; Job; Job] in
  exists p, snd (shutdown a) = Ok p /\
            state (shutdown_run p [ShutdownTimer; TeardownFulfilled "B"]) =
            Rejected ShutdownTimeout.
Proof.
  intros a. exists {| waiting := ["B"]; state := Pending |}.
  split; [vm_compute; reflexivity|].
  apply (shutdown_outcome {| waiting := ["B"]; state := Pending |} []
           [TeardownFulfilled "B"] eq_refl eq_refl) with (n := "B").
  - simpl. auto.
  - intros [].
Defined.

(* ------------------------------------------------------------------------- *)
(** ** [execute] and the registry before and after the run *)

(** X9.  [execute] can start a run once.  A call rejected by the check of the
    names leaves the instance as it was, and not executed; a call that
    returned the promise of a run makes every later call throw, whatever
    happened in between, and such a call changes nothing. *)
Theorem execute_once a :
  (forall e, snd (execute a) = ExecuteRejected e ->
             fst (execute a) = a /\ executed a = false) /\
  (snd (execute a) = ExecutePromise ->
   forall events,
     execute (run (fst (execute a)) events) =
     (run (fst (execute a)) events, ExecuteThrows AlreadyExecuted)) /\
  (executed a = true -> execute a = (a, ExecuteThrows AlreadyExecuted)).
Proof.
  unfold execute. destruct (executed a) eqn:E.
  - simpl. split; [discriminate|]. split; [discriminate | reflexivity].
  - destruct (checkConstraints a) as [u|m]; simpl.
    + split; [discriminate|]. split; [|discriminate]. intros _ events.
      assert (Ex : executed (nextRound (prepare a)) = true)
        by (rewrite executed_nextRound; reflexivity).
      destruct (run_after_execute events _ Ex) as (Er & _).
      rewrite Er. reflexivity.
    + split; [auto|]. split; discriminate.
Qed.

Lemma nothing_pending a :
  Inv a -> started a = true ->
  awaiting a = [] /\ starting a = [] /\ jobs a = [] /\ deferred a = [].
Proof.
  intros I S. destruct (started_done a I S) as [A St].
  pose proof (pending_starting a I) as P. rewrite St in P. unfold pending in P.
  split; [exact A|]. split; [exact St|]. split.
  - destruct (jobs a) as [|j js]; auto. exfalso. apply (P (fst j)). simpl. auto.
  - destruct (deferred a) as [|d ds]; auto. exfalso. apply (P d).
    apply in_app_iff. simpl. auto.
Qed.

Lemma frozen_step a e :
  Inv a -> promise a = Some Fulfilled ->
  promise (step a e) = Some Fulfilled /\
  teardown (step a e) = teardown a /\
  JsObject.keys (services (step a e)) = JsObject.keys (services a).
Proof.
  intros I F.
  destruct (nothing_pending a I (fulfilled_started a I F)) as (_ & _ & J & D).
  split; [apply (promise_kept_step a e I Fulfilled F); discriminate|].
  destruct e as [|c| |name value|name stack|name]; simpl.
  - unfold execute. rewrite (executed_of_promise a I) by congruence. auto.
  - destruct (call c a) as [a'|m] eqn:C; auto.
    pose proof (call_frame _ _ _ C) as (_ & _ & _ & T & _). split; [exact T|].
    destruct c as [n spec|n dependency alias]; simpl in C.
    + apply addService_Ok in C. destruct C as (_ & S & _).
      rewrite (fulfilled_started a I F) in S. discriminate.
    + apply addDependency_Ok in C. destruct C as (s & ? & ? & G & _ & _ & ->).
      simpl. eapply keys_set_declared; eauto.
  - rewrite J. auto.
  - rewrite D. auto.
  - rewrite D. auto.
  - destruct (_ && _); auto.
    unfold startupTimer, promise_reject, promise_settle. simpl. rewrite F. auto.
Qed.

(** X10.  Once [execute] has succeeded the instance is at rest: whatever happens
    afterwards, no service is awaiting or starting, no reaction is queued,
    [resolved] and the teardown actions stay as they are, the promise stays
    fulfilled, every [addService] throws and the declared names stay the
    same. *)
Theorem started_frozen a events :
  Reached a -> promise a = Some Fulfilled ->
  let b := run a events in
  promise b = Some Fulfilled /\ started b = true /\
  awaiting b = [] /\ starting b = [] /\ jobs b = [] /\ deferred b = [] /\
  resolved b = resolved a /\ teardown b = teardown a /\
  JsObject.keys (services b) = JsObject.keys (services a) /\
  forall name spec, exists message, addService name spec b = Throw message.
Proof.
  intros R F. pose proof (Reached_Inv a R) as I. clear R. simpl.
  assert (H : Inv (run a events) /\ promise (run a events) = Some Fulfilled /\
              resolved (run a events) = resolved a /\
              teardown (run a events) = teardown a /\
              JsObject.keys (services (run a events)) = JsObject.keys (services a)).
  { revert a I F. induction events as [|e r IH]; intros a I F; simpl; [auto|].
    destruct (frozen_step a e I F) as (F' & T' & K').
    destruct (IH (step a e) (Inv_step a e I) F') as (Ib & Fb & Rb & Tb & Kb).
    rewrite Rb, Tb, Kb, (resolved_frozen a e I F). auto. }
  destruct H as (Ib & Fb & Rb & Tb & Kb).
  pose proof (fulfilled_started _ Ib Fb) as Sb.
  destruct (nothing_pending _ Ib Sb) as (A & St & J & D).
  repeat (split; [assumption|]).
  intros name spec. unfold addService. rewrite Sb.
  destruct (JsObject.contains name (services (run a events))); eauto.
Qed.

(** 'should properly resolve dependencies', then a late completion and a
    late timer. *)
Lemma started_frozen_witness :
  let a := run (new resolve_config) [Execute; Job; Job] in
  let b := run a [Job; Timer "serviceA"; Execute] in
  promise b = Some Fulfilled /\ resolved b = resolved a.
Proof.
  intros a b.
  assert (F : promise a = Some Fulfilled) by (vm_compute; reflexivity).
  assert (R : Reached a)
    by exact (reached_step _ Job
                (reached_step _ Job
                   (reached_step _ Execute (reached_new resolve_config)))).
  destruct (started_frozen a [Job; Timer "serviceA"; Execute] R F)
    as (H1 & _ & _ & _ & _ & _ & H2 & _).
  split; [exact H1 | exact H2].
Defined.

(* ------------------------------------------------------------------------- *)
(** ** Start-up timers *)

Lemma timers_promise_settle s a :
  timers (promise_settle s a) = timers a /\
  starting (promise_settle s a) = starting a.
Proof.
  unfold promise_settle. destruct (promise a) as [[| |m]|]; auto.
Qed.

Lemma timers_startService name service a :
  incl (timers a) (JsObject.keys (starting a)) ->
  incl (timers (startService name service a))
       (JsObject.keys (starting (startService name service a))).
Proof.
  intros H. unfold startService.
  pose proof (obtainModule_frame name service a) as PF.
  destruct (obtainModule name service a) as [a0 m]. simpl in PF.
  destruct PF as (p & -> & _).
  destruct m as [[body completion]|]; [|exact H].
  pose proof (run_body_frame body
                (beforeCall name (obtainDepenedcies service a) (with_promise p a))) as RF.
  destruct (run_body body _) as [a2 thrown]. specialize (RF _ _ eq_refl).
  destruct RF as (_ & St & _ & _ & _ & _ & _ & _ & _ & Ti & _).
  assert (H2 : incl (timers a2) (JsObject.keys (starting a2))).
  { rewrite St, Ti. simpl. intros z [<-|Hz]; apply in_keys_set; auto. }
  unfold afterCall, promise_reject.
  destruct thrown; [destruct (timers_promise_settle (Rejected (ServiceStartupError name s)) a2)
                      as [-> ->]; exact H2|].
  destruct completion as [v| |stack]; try exact H2.
  destruct (timers_promise_settle (Rejected (ServiceStartupError name stack)) a2)
    as [-> ->]. exact H2.
Qed.

Lemma timers_round fuel : forall i k a a' k',
  round fuel i k a = Some (a', k') ->
  incl (timers a) (JsObject.keys (starting a)) ->
  incl (timers a') (JsObject.keys (starting a')).
Proof.
  induction fuel as [|fuel IH]; intros i k a a' k' R H; simpl in R;
    destruct (nth_error (awaiting a) i) as [n|];
    try discriminate; try (injection R as <- _; exact H).
  destruct (JsObject.get n (services a)) as [service|]; [|discriminate].
  pose proof (checkDependencies_frame n service a) as PF.
  destruct (checkDependencies n service a) as [a1 ok]. simpl in PF.
  destruct PF as (p & -> & _).
  destruct ok; eapply IH; eauto. apply timers_startService. exact H.
Qed.

Lemma timers_nextRound a :
  incl (timers a) (JsObject.keys (starting a)) ->
  incl (timers (nextRound a)) (JsObject.keys (starting (nextRound a))).
Proof.
  intros H. unfold nextRound.
  destruct (round (round_fuel a) 0 0 a) as [[a' k]|] eqn:R; [|exact H].
  apply timers_round in R; [|exact H].
  unfold round_end, promise_resolve, promise_reject.
  destruct (_ && _).
  - destruct (timers_promise_settle Fulfilled (with_started true a')) as [-> ->].
    exact R.
  - destruct (Nat.eqb k 0); [|exact R]. destruct (JsObject.is_empty _); [|exact R].
    destruct (timers_promise_settle (Rejected (CircularDependency (awaiting a'))) a')
      as [-> ->]. exact R.
Qed.

Lemma timers_record name value a :
  incl (timers a) (JsObject.keys (starting a)) ->
  incl (timers (record name value a)) (JsObject.keys (starting (record name value a))).
Proof.
  intros H z Hz. simpl in *. apply in_remove_string in Hz. destruct Hz as [Hz N].
  apply in_keys_delete_other; auto.
Qed.

(** A timer runs only for a service that is starting. *)
Lemma timers_step a e :
  incl (timers a) (JsObject.keys (starting a)) ->
  incl (timers (step a e)) (JsObject.keys (starting (step a e))).
Proof.
  intros H. destruct e as [|c| |name value|name stack|name]; simpl.
  - unfold execute. destruct (executed a); [exact H|].
    destruct (checkConstraints a); [|exact H]. simpl.
    apply timers_nextRound. exact H.
  - destruct (call c a) as [a'|m] eqn:C; [|exact H].
    destruct (call_frame _ _ _ C) as (_ & St & _ & _ & _ & _ & _ & _ & _ & Ti & _).
    rewrite St, Ti. exact H.
  - destruct (jobs a) as [|[name value] rest]; [exact H|].
    apply timers_nextRound, timers_record. exact H.
  - destruct (mem name (deferred a)); [|exact H].
    apply timers_nextRound, timers_record. exact H.
  - destruct (mem name (deferred a)); [|exact H].
    destruct stack as [stack|]; [|exact H].
    unfold register_catch, promise_reject.
    destruct (timers_promise_settle (Rejected (ServiceStartupError name stack))
                (with_deferred (remove string_dec name (deferred a)) a)) as [-> ->].
    exact H.
  - destruct (_ && _); [|exact H].
    unfold startupTimer, promise_reject.
    destruct (timers_promise_settle (Rejected (StartupTimeout name))
                (with_timers (remove string_dec name (timers a)) a)) as [-> ->].
    simpl. intros z Hz. apply in_remove_string in Hz. apply H. tauto.
Qed.

Lemma timers_run events : forall a,
  incl (timers a) (JsObject.keys (starting a)) ->
  incl (timers (run a events)) (JsObject.keys (starting (run a events))).
Proof.
  induction events as [|e r IH]; intros a H; simpl; auto using timers_step.
Qed.

(** X11.  A start-up timer exists only while its service is starting: its firing
    is impossible for a service that is recorded in [resolved] or still
    awaiting.  When it fires it rejects the promise of the run with the
    timeout error if the promise is still pending, and does nothing else:
    the service stays in [starting], and a factory promise fulfilled later
    is still recorded. *)
Theorem startup_timer config_services events name :
  let a := run (new config_services) events in
  (In name (timers a) -> In name (JsObject.keys (starting a))) /\
  (In name (JsObject.keys (resolved a)) \/ In name (awaiting a) ->
   step a (Timer name) = a) /\
  (In name (timers a) -> jobs a = [] ->
   let b := step a (Timer name) in
   promise b = match promise a with
               | Some Pending => Some (Rejected (StartupTimeout name))
               | settled => settled
               end /\
   starting b = starting a /\ awaiting b = awaiting a /\ resolved b = resolved a /\
   deferred b = deferred a /\ ~ In name (timers b) /\
   forall value,
     In name (deferred a) ->
     JsObject.get name (resolved (step b (Fulfil name value))) =
     Some (match value with Some s => s | None => emptyObject end)).
Proof.
  intros a.
  pose proof (Inv_run events _ (Inv_new config_services)) as I. fold a in I.
  assert (T : incl (timers a) (JsObject.keys (starting a))).
  { apply timers_run. intros z []. }
  split; [apply T|]. split.
  - intros H. simpl.
    destruct (mem name (timers a)) eqn:M; [|reflexivity].
    apply mem_true_iff in M. apply T in M. exfalso. destruct H as [H|H].
    + apply (starting_resolved a I name M H).
    + apply (awaiting_starting a I name H M).
  - intros H J b. subst b. simpl.
    apply mem_true_iff in H. rewrite H, J. simpl.
    unfold startupTimer, promise_reject, promise_settle. simpl.
    assert (N : ~ In name (remove string_dec name (timers a)))
      by (intros F; apply in_remove_string in F; tauto).
    destruct (promise a) as [[| |m]|] eqn:P; simpl;
      (repeat (split; [first [reflexivity | exact N | exact P]|]));
      intros value D; apply mem_true_iff in D; rewrite D;
      unfold register_then; rewrite resolved_nextRound; simpl;
      apply get_set_same.
Qed.

(** A factory that returned a promise times out and is fulfilled later. *)
Lemma startup_timer_witness :
  let a := run (new deferred_config) [Execute] in
  promise (step a (Timer "serviceA")) =
  Some (Rejected (StartupTimeout "serviceA")).
Proof.
  intros a.
  assert (H : In "serviceA" (timers a)) by (vm_compute; auto).
  assert (J : jobs a = []) by (vm_compute; reflexivity).
  exact (proj1 (proj2 (proj2 (startup_timer deferred_config [Execute] "serviceA"))
                  H J)).
Defined.

(* ------------------------------------------------------------------------- *)
(** ** A factory that fails *)

Lemma stuck_startService z name service a :
  Inv a -> In name (awaiting a) ->
  In z (JsObject.keys (starting a)) -> ~ In z (pending a) ->
  In z (JsObject.keys (starting (startService name service a))) /\
  ~ In z (pending (startService name service a)).
Proof.
  intros I Hn Hz Pz.
  assert (Ne : z <> name) by (intros ->; apply (awaiting_starting a I name Hn Hz)).
  unfold startService.
  pose proof (obtainModule_frame name service a) as PF.
  destruct (obtainModule name service a) as [a0 m]. simpl in PF.
  destruct PF as (p & -> & _).
  destruct m as [[body completion]|]; [|auto].
  pose proof (run_body_frame body
                (beforeCall name (obtainDepenedcies service a) (with_promise p a))) as RF.
  destruct (run_body body _) as [a2 thrown]. specialize (RF _ _ eq_refl).
  destruct RF as (_ & St & _ & _ & _ & _ & _ & J & D & _).
  simpl in St, J, D.
  assert (H2 : In z (JsObject.keys (starting a2)))
    by (rewrite St; apply in_keys_set; auto).
  assert (P2 : ~ In z (pending a2)) by (unfold pending in *; rewrite J, D; exact Pz).
  unfold afterCall, promise_reject, promise_settle.
  destruct thrown; [destruct (promise a2) as [[| |m]|]; auto|].
  destruct completion as [v| |stack]; simpl.
  - split; [exact H2|]. unfold pending in *. simpl.
    rewrite map_app, <- app_assoc. simpl. intros F.
    apply in_app_iff in F. destruct F as [F|[F|F]]; [|congruence|];
      apply P2, in_app_iff; auto.
  - split; [exact H2|]. unfold pending in *. simpl. intros F.
    apply in_app_iff in F. destruct F as [F|[F|F]]; [|congruence|];
      apply P2, in_app_iff; auto.
  - destruct (promise a2) as [[| |m]|]; auto.
Qed.

Lemma stuck_round z fuel : forall i k a a' k',
  Inv a -> executed a = true -> round fuel i k a = Some (a', k') ->
  In z (JsObject.keys (starting a)) -> ~ In z (pending a) ->
  In z (JsObject.keys (starting a')) /\ ~ In z (pending a').
Proof.
  induction fuel as [|fuel IH]; intros i k a a' k' I E R Hz Pz; simpl in R;
    destruct (nth_error (awaiting a) i) as [name|] eqn:N;
    try discriminate; try (injection R as <- _; auto; fail).
  destruct (JsObject.get name (services a)) as [service|] eqn:G; [|discriminate].
  pose proof (checkDependencies_frame name service a) as PF.
  pose proof (checkDependencies_eligible name service a) as Rd.
  destruct (checkDependencies name service a) as [a1 ok]. simpl in PF, Rd.
  assert (I1 : Inv a1) by (eapply Inv_promise_frame; eauto).
  destruct PF as (p & -> & _).
  destruct ok; [|eapply IH; eauto].
  assert (H1 : In name (awaiting (with_promise p a)))
    by (simpl; eapply nth_error_In; eauto).
  destruct (Inv_startService name service _ I1 H1 E G (Rd eq_refl)) as [I2 E2].
  destruct (stuck_startService z name service _ I1 H1 Hz Pz) as [H2 P2].
  eapply IH; eauto.
Qed.

Lemma stuck_nextRound z a :
  Inv a -> executed a = true ->
  In z (JsObject.keys (starting a)) -> ~ In z (pending a) ->
  In z (JsObject.keys (starting (nextRound a))) /\ ~ In z (pending (nextRound a)).
Proof.
  intros I E Hz Pz. unfold nextRound.
  destruct (round (round_fuel a) 0 0 a) as [[a' k]|] eqn:R; [|auto].
  destruct (stuck_round z _ _ _ _ _ _ I E R Hz Pz) as [H P].
  unfold round_end, promise_resolve, promise_reject, promise_settle.
  destruct (_ && _); [simpl; destruct (promise a') as [[| |m]|]; auto|].
  destruct (Nat.eqb k 0); auto. destruct (JsObject.is_empty _); auto.
  destruct (promise a') as [[| |m]|]; auto.
Qed.

(** A service that is starting although no reaction and no promise of its
    factory is outstanding stays so. *)
Lemma stuck_step z a e :
  Inv a -> In z (JsObject.keys (starting a)) -> ~ In z (pending a) ->
  In z (JsObject.keys (starting (step a e))) /\ ~ In z (pending (step a e)).
Proof.
  intros I Hz Pz.
  assert (E : executed a = true) by (eapply executed_of_starting; eauto).
  destruct e as [|c| |name value|name stack|name]; simpl.
  - unfold execute. rewrite E. auto.
  - destruct (call c a) as [a'|m] eqn:C; auto.
    destruct (call_frame _ _ _ C) as (_ & St & _ & _ & _ & _ & _ & J & D & _).
    unfold pending. rewrite St, J, D. auto.
  - destruct (jobs a) as [|[name value] rest] eqn:J; auto.
    destruct (Inv_drop_job a name value rest I J) as (I1 & S1 & P1).
    destruct (Inv_record name value _ I1 S1 P1) as [I2 E2].
    assert (Ne : z <> name).
    { intros ->. apply Pz. unfold pending. rewrite J. simpl. auto. }
    apply stuck_nextRound; auto.
    + simpl. apply in_keys_delete_other; auto.
    + unfold pending in *. simpl. rewrite J in Pz. simpl in Pz. tauto.
  - destruct (mem name (deferred a)) eqn:M; auto. apply mem_true_iff in M.
    destruct (Inv_drop_deferred a name I M) as (I1 & S1 & P1).
    destruct (Inv_record name value _ I1 S1 P1) as [I2 E2].
    assert (Ne : z <> name).
    { intros ->. apply Pz, in_app_iff. auto. }
    apply stuck_nextRound; auto.
    + simpl. apply in_keys_delete_other; auto.
    + unfold pending in *. simpl. intros F. apply Pz.
      apply in_app_iff in F. apply in_app_iff.
      destruct F as [F|F]; auto. apply in_remove_string in F. tauto.
  - destruct (mem name (deferred a)) eqn:M; auto.
    assert (P' : ~ In z (map fst (jobs a) ++ remove string_dec name (deferred a))).
    { intros F. apply Pz. apply in_app_iff in F. apply in_app_iff.
      destruct F as [F|F]; auto. apply in_remove_string in F. tauto. }
    destruct stack as [stack|]; simpl; auto.
    unfold promise_reject, promise_settle. simpl.
    destruct (promise a) as [[| |m]|]; auto.
  - destruct (_ && _); auto.
    unfold startupTimer, promise_reject, promise_settle. simpl.
    destruct (promise a) as [[| |m]|]; auto.
Qed.

Lemma stuck_run z events : forall a,
  Inv a -> In z (JsObject.keys (starting a)) -> ~ In z (pending a) ->
  In z (JsObject.keys (starting (run a events))) /\ ~ In z (pending (run a events)).
Proof.
  induction events as [|e r IH]; intros a I Hz Pz; simpl; auto.
  destruct (stuck_step z a e I Hz Pz) as [H P].
  apply IH; auto using Inv_step.
Qed.

Lemma promise_kept_run events : forall a,
  Inv a -> promise_kept a (run a events).
Proof.
  induction events as [|e r IH]; intros a I; simpl; [apply promise_kept_refl|].
  eapply promise_kept_trans; [apply promise_kept_step; exact I|].
  apply IH, Inv_step, I.
Qed.

(** X12.  A service whose factory has failed is never recorded and keeps the
    instance from starting.  The factory has failed when the promise it
    returned is rejected, or when the service is in [starting] with no
    reaction and no promise of its factory outstanding, as after an
    exception of the factory.  From then on the service stays in [starting],
    it never gets an entry in [resolved], the promise of the run is never
    fulfilled and [started] stays false, whatever the other services do.  A
    rejection whose reason is not [null] or [undefined] and that finds the
    promise of the run pending settles it with the start-up error of the
    service, which ends with the [stack] member of the reason.  A rejection
    with [null] or [undefined] rejects nothing, reading [error.stack]
    throwing inside the reaction: the promise of the run is left as it
    is. *)
Theorem failed_service_blocks config_services events name :
  let a := run (new config_services) events in
  (forall reason more,
     In name (deferred a) ->
     let b := run (step a (Reject name reason)) more in
     (forall stack,
        reason = Some stack -> promise a = Some Pending ->
        promise b = Some (Rejected (ServiceStartupError name stack))) /\
     (reason = None ->
      step a (Reject name reason) =
      with_deferred (remove string_dec name (deferred a)) a) /\
     In name (JsObject.keys (starting b)) /\
     ~ In name (JsObject.keys (resolved b)) /\
     promise b <> Some Fulfilled /\ started b = false) /\
  (forall more,
     In name (JsObject.keys (starting a)) -> ~ In name (pending a) ->
     let b := run a more in
     In name (JsObject.keys (starting b)) /\
     ~ In name (JsObject.keys (resolved b)) /\
     promise b <> Some Fulfilled /\ started b = false).
Proof.
  intros a.
  pose proof (Inv_run events _ (Inv_new config_services)) as I. fold a in I.
  assert (Blocks : forall c, Inv c ->
            In name (JsObject.keys (starting c)) ->
            ~ In name (JsObject.keys (resolved c)) /\
            promise c <> Some Fulfilled /\ started c = false).
  { intros c Ic Hc. split; [apply (starting_resolved c Ic name Hc)|].
    assert (S : started c = false).
    { destruct (started c) eqn:S; auto.
      destruct (started_done c Ic S) as [_ St]. rewrite St in Hc. destruct Hc. }
    split; [|exact S]. intros F. rewrite (fulfilled_started c Ic F) in S.
    discriminate. }
  split.
  - intros reason more D b.
    destruct (Inv_drop_deferred a name I D) as (_ & Hs & Pn).
    assert (Ir : Inv (step a (Reject name reason))) by (apply Inv_step, I).
    assert (St : In name (JsObject.keys (starting (step a (Reject name reason)))) /\
                 ~ In name (pending (step a (Reject name reason)))).
    { simpl. apply mem_true_iff in D. rewrite D.
      unfold pending in Pn. simpl in Pn.
      destruct reason as [stack|]; simpl; auto.
      unfold promise_reject, promise_settle. simpl.
      destruct (promise a) as [[| |m]|]; auto. }
    destruct St as [H1 P1].
    destruct (stuck_run name more _ Ir H1 P1) as [Hb _]. fold b in Hb.
    pose proof (Inv_run more _ Ir) as Ib. fold b in Ib.
    split; [|split; [|split; [exact Hb | apply Blocks; assumption]]].
    + intros stack -> P. apply (promise_kept_run more _ Ir); [|discriminate].
      simpl. apply mem_true_iff in D. rewrite D.
      unfold register_catch, promise_reject, promise_settle. simpl.
      rewrite P. reflexivity.
    + intros ->. simpl. apply mem_true_iff in D. rewrite D. reflexivity.
  - intros more Hs Pn b.
    destruct (stuck_run name more a I Hs Pn) as [Hb _]. fold b in Hb.
    pose proof (Inv_run more _ I) as Ib. fold b in Ib.
    split; [exact Hb | apply Blocks; assumption].
Qed.

(** The factory of [serviceA] throws: the other service is started and
    recorded, and the run stays rejected.  The promise of a factory is
    rejected with an error: the run is rejected; it is rejected with
    [undefined]: the run stays pending. *)
Lemma failed_service_blocks_witness :
  (let b := run (run (new throwing_config) [Execute]) [Job; Job] in
   In "serviceA" (JsObject.keys (starting b)) /\
   ~ In "serviceA" (JsObject.keys (resolved b)) /\
   promise b <> Some Fulfilled /\ started b = false) /\
  promise (run (step (run (new deferred_config) [Execute])
                  (Reject "serviceA" (Some "Error: failed"))) []) =
  Some (Rejected (ServiceStartupError "serviceA" "Error: failed")) /\
  step (run (new deferred_config) [Execute]) (Reject "serviceA" None) =
  with_deferred
    (remove string_dec "serviceA" (deferred (run (new deferred_config) [Execute])))
    (run (new deferred_config) [Execute]).
Proof.
  assert (H : In "serviceA"
                (JsObject.keys (starting (run (new throwing_config) [Execute]))))
    by (vm_compute; auto).
  assert (P : ~ In "serviceA" (pending (run (new throwing_config) [Execute])))
    by (vm_compute; intros []).
  assert (D : In "serviceA" (deferred (run (new deferred_config) [Execute])))
    by (vm_compute; auto).
  assert (Pe : promise (run (new deferred_config) [Execute]) = Some Pending)
    by (vm_compute; reflexivity).
  split; [|split].
  - exact (proj2 (failed_service_blocks throwing_config [Execute] "serviceA")
             [Job; Job] H P).
  - exact (proj1 (proj1 (failed_service_blocks deferred_config [Execute] "serviceA")
                    (Some "Error: failed") [] D)
             "Error: failed" eq_refl Pe).
  - exact (proj1 (proj2 (proj1 (failed_service_blocks deferred_config [Execute]
                                  "serviceA")
                           None [] D)) eq_refl).
Defined.

(** After a rejection with [undefined] the run hangs: its promise is still
    pending and the service is still starting, with nothing outstanding. *)
Lemma failed_service_hangs :
  let b := step (run (new deferred_config) [Execute]) (Reject "serviceA" None) in
  promise b = Some Pending /\ JsObject.keys (starting b) = ["serviceA"] /\
  pending b = [] /\ timers b = ["serviceA"].
Proof. repeat split. Qed.

(* ------------------------------------------------------------------------- *)
(** ** The check of the names *)

Lemma checkNameConstraints_ok names :
  checkNameConstraints names = Ok tt <-> forall n, In n names -> ~ reserved n.
Proof.
  unfold reserved. induction names as [|z r IH]; simpl.
  - split; [intros _ n [] | reflexivity].
  - destruct (String.eqb z "require") eqn:E1.
    { apply String.eqb_eq in E1. split; [discriminate|].
      intros H. exfalso. apply (H z); auto. }
    destruct (String.eqb z "requireDefault") eqn:E2.
    { apply String.eqb_eq in E2. split; [discriminate|].
      intros H. exfalso. apply (H z); auto. }
    apply String.eqb_neq in E1, E2. rewrite IH. split.
    + intros H n [<-|Hn]; [tauto | auto].
    + intros H n Hn. auto.
Qed.

Lemma checkServicesConstraints_ok svcs names :
  incl names (JsObject.keys svcs) ->
  (checkServicesConstraints svcs names = Ok tt <->
   forall n s d, In n names -> JsObject.get n svcs = Some s ->
                 In d (getDependencyNames s) -> ~ reserved d).
Proof.
  induction names as [|z r IH]; simpl; intros Inc.
  - split; [intros _ n s d [] | reflexivity].
  - destruct (in_keys_get _ _ _ (Inc z (or_introl eq_refl))) as [sz G]. rewrite G.
    assert (Incr : incl r (JsObject.keys svcs))
      by (intros w Hw; apply Inc; simpl; auto).
    destruct (checkNameConstraints (getDependencyNames sz)) as [[]|m] eqn:C.
    + rewrite (IH Incr).
      pose proof (proj1 (checkNameConstraints_ok (getDependencyNames sz)) C) as C'.
      split.
      * intros H n s d [<-|Hn] Gn Hd; [|eauto].
        rewrite G in Gn. injection Gn as <-. auto.
      * intros H n s d Hn. apply H. auto.
    + split; [discriminate|]. intros H. exfalso.
      assert (Ok' : checkNameConstraints (getDependencyNames sz) = Ok tt).
      { apply checkNameConstraints_ok. intros d Hd. eapply (H z); eauto. }
      congruence.
Qed.

(** X13.  The check that [execute] makes first passes exactly when neither an
    awaiting service nor a dependency of an awaiting service (an entry of its
    array, a value of its alias object) is named [require] or
    [requireDefault]; the aliases themselves are not examined.  A first
    [execute] returns the promise of a run exactly in that case. *)
Theorem checkConstraints_passes a :
  Reached a ->
  (checkConstraints a = Ok tt <->
   (forall n, In n (awaiting a) -> ~ reserved n) /\
   (forall n s d, In n (awaiting a) -> JsObject.get n (services a) = Some s ->
                  In d (getDependencyNames s) -> ~ reserved d)) /\
  (executed a = false ->
   (snd (execute a) = ExecutePromise <-> checkConstraints a = Ok tt)).
Proof.
  intros R. pose proof (Reached_Inv a R) as I. split.
  - unfold checkConstraints.
    destruct (checkNameConstraints (awaiting a)) as [[]|m] eqn:C.
    + rewrite (checkServicesConstraints_ok _ _ (declared_awaiting a I)).
      pose proof (proj1 (checkNameConstraints_ok (awaiting a)) C) as C'. tauto.
    + split; [discriminate|]. intros [H _].
      pose proof (proj2 (checkNameConstraints_ok (awaiting a)) H) as C'. congruence.
  - intros E. unfold execute. rewrite E.
    destruct (checkConstraints a) as [[]|m]; simpl; split;
      try reflexivity; discriminate.
Qed.

(** '`require` is is forbidden alias': the alias is not examined. *)
Lemma checkConstraints_passes_witness :
  checkConstraints (new alias_config) = Ok tt /\
  (forall n, In n (awaiting (new alias_config)) -> ~ reserved n).
Proof.
  assert (C : checkConstraints (new alias_config) = Ok tt)
    by (vm_compute; reflexivity).
  split; [exact C|].
  exact (proj1 (proj1 (proj1 (checkConstraints_passes (new alias_config)
                                (reached_new alias_config))) C)).
Defined.

(* ------------------------------------------------------------------------- *)
(** ** A module that exports a falsy value *)

Lemma startService_falsy name service a :
  module service = None -> path service = RequireReturns ExportsFalsy ->
  startService name service a = a.
Proof.
  intros M P. unfold startService, obtainModule. rewrite M, P. reflexivity.
Qed.

Section Falsy.
Variable z : string.

(** [z] is awaiting and its declaration names a module that exports a falsy
    value. *)
Let Q (a : Architect) : Prop :=
  In z (awaiting a) /\
  exists s, JsObject.get z (services a) = Some s /\
            module s = None /\ path s = RequireReturns ExportsFalsy.

Lemma falsy_call c a a' : call c a = Ok a' -> Q a -> Q a'.
Proof.
  unfold Q. intros C (H & s & G & M & P).
  destruct c as [n spec|n dependency alias]; simpl in C.
  - apply addService_Ok in C. destruct C as (Hn & _ & ->). simpl.
    split; [apply in_app_iff; auto|]. exists s.
    split; [|auto]. rewrite get_set_other; auto. intros Eq. subst n.
    apply has_false_iff in Hn. apply Hn. eapply get_in_keys; eauto.
  - apply addDependency_Ok in C.
    destruct C as (s' & deps & deps' & G' & _ & _ & ->). simpl.
    split; [exact H|]. destruct (string_dec z n) as [<-|Ne].
    + rewrite G in G'. injection G' as <-.
      exists (set_dependencies deps' s).
      split; [apply get_set_same | destruct s; auto].
    + exists s. split; [rewrite get_set_other; auto | auto].
Qed.

Lemma falsy_run_body body : forall a, Q a -> Q (fst (run_body body a)).
Proof.
  induction body as [|c rest IH]; simpl; intros a H; auto.
  destruct (call c a) as [a1|m] eqn:C; simpl; auto.
  apply IH. eapply falsy_call; eauto.
Qed.

Lemma falsy_promise p a : Q a -> Q (with_promise p a).
Proof. auto. Qed.

Lemma falsy_startService name service a :
  Inv a -> In name (awaiting a) ->
  JsObject.get name (services a) = Some service ->
  Q a -> Q (startService name service a).
Proof.
  unfold Q. intros I Hn G (H & s & Gz & M & P).
  destruct (string_dec z name) as [<-|Ne].
  { rewrite G in Gz. injection Gz as ->. rewrite startService_falsy; auto.
    split; eauto. }
  unfold startService.
  pose proof (obtainModule_frame name service a) as PF.
  destruct (obtainModule name service a) as [a0 m]. simpl in PF.
  destruct PF as (p & -> & _).
  destruct m as [[body completion]|]; [|split; eauto].
  assert (Q0 : Q (beforeCall name (obtainDepenedcies service a) (with_promise p a))).
  { split; [|exists s; auto]. simpl.
    apply in_splice; auto. apply (nodup_awaiting a I). }
  pose proof (falsy_run_body body _ Q0) as Q2.
  destruct (run_body body _) as [a2 thrown]. simpl in Q2.
  unfold afterCall, promise_reject, promise_settle.
  destruct thrown; [destruct (promise a2) as [[| |m]|]; exact Q2|].
  destruct completion; try exact Q2. destruct (promise a2) as [[| |m]|]; exact Q2.
Qed.

Lemma falsy_round fuel : forall i k a a' k',
  Inv a -> executed a = true -> round fuel i k a = Some (a', k') -> Q a -> Q a'.
Proof.
  induction fuel as [|fuel IH]; intros i k a a' k' I E R H; simpl in R;
    destruct (nth_error (awaiting a) i) as [name|] eqn:N;
    try discriminate; try (injection R as <- _; exact H).
  destruct (JsObject.get name (services a)) as [service|] eqn:G; [|discriminate].
  pose proof (checkDependencies_frame name service a) as PF.
  pose proof (checkDependencies_eligible name service a) as Rd.
  destruct (checkDependencies name service a) as [a1 ok]. simpl in PF, Rd.
  assert (I1 : Inv a1) by (eapply Inv_promise_frame; eauto).
  destruct PF as (p & -> & _).
  destruct ok; [|eapply IH; eauto].
  assert (H1 : In name (awaiting (with_promise p a)))
    by (simpl; eapply nth_error_In; eauto).
  destruct (Inv_startService name service _ I1 H1 E G (Rd eq_refl)) as [I2 E2].
  eapply IH; eauto. apply falsy_startService; auto.
Qed.

Lemma falsy_nextRound a : Inv a -> executed a = true -> Q a -> Q (nextRound a).
Proof.
  intros I E H. unfold nextRound.
  destruct (round (round_fuel a) 0 0 a) as [[a' k]|] eqn:R; [|exact H].
  pose proof (falsy_round _ _ _ _ _ _ I E R H) as H'.
  unfold round_end, promise_resolve, promise_reject, promise_settle.
  destruct (_ && _); [simpl; destruct (promise a') as [[| |m]|]; exact H'|].
  destruct (Nat.eqb k 0); auto. destruct (JsObject.is_empty _); auto.
  destruct (promise a') as [[| |m]|]; exact H'.
Qed.

Lemma falsy_step a e : Inv a -> executed a = true -> Q a -> Q (step a e).
Proof.
  intros I E H. destruct e as [|c| |name value|name stack|name]; simpl.
  - unfold execute. rewrite E. exact H.
  - destruct (call c a) as [a'|m] eqn:C; [eapply falsy_call; eauto | exact H].
  - destruct (jobs a) as [|[name value] rest] eqn:J; [exact H|].
    destruct (Inv_drop_job a name value rest I J) as (I1 & S1 & P1).
    destruct (Inv_record name value _ I1 S1 P1) as [I2 E2].
    apply falsy_nextRound; auto.
  - destruct (mem name (deferred a)) eqn:M; [|exact H]. apply mem_true_iff in M.
    destruct (Inv_drop_deferred a name I M) as (I1 & S1 & P1).
    destruct (Inv_record name value _ I1 S1 P1) as [I2 E2].
    apply falsy_nextRound; auto.
  - destruct (mem name (deferred a)); [|exact H].
    destruct stack as [stack|]; [|exact H].
    unfold register_catch, promise_reject, promise_settle. simpl.
    destruct (promise a) as [[| |m]|]; exact H.
  - destruct (_ && _); [|exact H].
    unfold startupTimer, promise_reject, promise_settle. simpl.
    destruct (promise a) as [[| |m]|]; exact H.
Qed.

Lemma falsy_run events : forall a,
  Inv a -> executed a = true -> Q a -> Q (run a events).
Proof.
  induction events as [|e r IH]; intros a I E H; simpl; auto.
  destruct (step_after_execute a e E) as (E1 & _).
  apply IH; auto using Inv_step, falsy_step.
Qed.

End Falsy.

(** X14.  A service declared with a [path] whose module exports a falsy value (0,
    an empty string, [false]) is never started and no error is reported for
    it: [startService] returns without any effect.  Once [execute] has been
    called the service stays in [awaiting] for ever, so that the promise of
    the run is never fulfilled and [started] stays false. *)
Theorem falsy_module_never_starts config_services events name service more :
  let a := run (new config_services) events in
  executed a = true -> In name (awaiting a) ->
  JsObject.get name (services a) = Some service ->
  module service = None -> path service = RequireReturns ExportsFalsy ->
  let b := run a more in
  startService name service a = a /\
  In name (awaiting b) /\
  ~ In name (JsObject.keys (starting b)) /\
  ~ In name (JsObject.keys (resolved b)) /\
  promise b <> Some Fulfilled /\ started b = false.
Proof.
  intros a E H G M P b.
  pose proof (Inv_run events _ (Inv_new config_services)) as I. fold a in I.
  pose proof (Inv_run more _ I) as Ib. fold b in Ib.
  destruct (falsy_run name more a I E) as (Hb & _); [split; eauto|]. fold b in Hb.
  split; [apply startService_falsy; auto|]. split; [exact Hb|].
  split; [apply (awaiting_starting b Ib name Hb)|].
  split; [apply (awaiting_resolved b Ib name Hb)|].
  assert (S : started b = false).
  { destruct (started b) eqn:S; auto.
    destruct (started_done b Ib S) as [A _]. rewrite A in Hb. destruct Hb. }
  split; [|exact S]. intros F. rewrite (fulfilled_started b Ib F) in S. discriminate.
Qed.

(** The other service is started and recorded; the promise of the run stays
    pending. *)
Lemma falsy_module_never_starts_witness :
  let b := run (run (new falsy_config) [Execute]) [Job] in
  In "serviceA" (awaiting b) /\ promise b <> Some Fulfilled.
Proof.
  assert (E : executed (run (new falsy_config) [Execute]) = true)
    by (vm_compute; reflexivity).
  assert (H : In "serviceA" (awaiting (run (new falsy_config) [Execute])))
    by (vm_compute; auto).
  assert (G : JsObject.get "serviceA" (services (run (new falsy_config) [Execute])) =
              Some (Service None false None (RequireReturns ExportsFalsy)))
    by (vm_compute; reflexivity).
  destruct (falsy_module_never_starts falsy_config [Execute] "serviceA" _ [Job]
              E H G eq_refl eq_refl) as (_ & H1 & _ & _ & H2 & _).
  split; [exact H1 | exact H2].
Defined.

(** In that run the promise is pending with nothing left to happen. *)
Lemma falsy_module_hangs :
  let b := run (new falsy_config) [Execute; Job] in
  promise b = Some Pending /\ pending b = [] /\ timers b = [] /\
  JsObject.keys (resolved b) = ["serviceB"].
Proof. vm_compute. auto. Qed.

(* ------------------------------------------------------------------------- *)
(** ** Every factory is called at most once *)

Section Called.

(** The factories called so far are those of the services in [starting] or
    [resolved], each called once. *)
Let C (a : Architect) : Prop :=
  NoDup (map fst (calls a)) /\
  forall n, In n (map fst (calls a)) <->
            In n (JsObject.keys (starting a)) \/ In n (JsObject.keys (resolved a)).









End Called.

